(** * LayeredBeam: layered elastoplastic Timoshenko beam material

    A shallow embedding of [src/materials/LayeredBeam.C].

    [Real] values are idealised as real numbers: every finite double is a
    real, and the arithmetic of the source is carried out exactly, so the
    statements below hold of the algorithm, not of its rounding.  Division
    is the total division of the reals; a statement that depends on the
    value of a quotient carries the hypothesis that its divisor is not zero.
    The one quotient whose divisor the source lets reach zero, the one of
    the relative convergence test, is used only inside a comparison, and
    what IEEE arithmetic makes of that comparison is written out in
    [abs_quotient_gt].

    What rounding changes in a value is small; what it changes in the
    outcome of a test is not.  The Newton loop of the return mapping
    leaves the loop when a residual that is zero over the reals is within
    the tolerances, and in binary64 that residual is whatever rounding
    left of it.  Statements about the loop therefore speak of every
    iterate, and of the state a solve returns when it returns; when it
    returns is stated by the tolerances it has met.  The module
    [Binary64] carries the same loop over binary64 numbers, to show at
    given inputs which way rounding decides.

    Functions return [exec]: a normal return, or the [MooseException] that
    leaves the call.  Stateful properties of the host are passed in (the
    "old" values) and returned (the values written). *)

From Stdlib Require Import Reals Lra Lia List Bool String Arith.
From Stdlib Require PrimFloat.
Import ListNotations.
Open Scope R_scope.

(** ** Comparisons of [Real] values *)

Definition Rgtb (a b : R) : bool := if Rgt_dec a b then true else false.
Definition Rgeb (a b : R) : bool := if Rge_dec a b then true else false.

(** [std::abs(a / b) > tol].  The source divides without looking at [b];
    the case distinction below is what the double division does.  For
    [b <> 0] the test is the comparison of reals.  For [b = 0] the quotient
    is not a real: [a / 0] is an infinity when [a <> 0], which exceeds every
    finite tolerance, and [0 / 0] is a NaN, for which every ordered
    comparison is false. *)
Definition abs_quotient_gt (a b tol : R) : bool :=
  if Req_dec_T b 0
  then (if Req_dec_T a 0 then false else true)
  else Rgtb (Rabs (a / b)) tol.

(** [MathUtils::sign] of the framework: [x >= 0.0 ? 1.0 : -1.0]. *)
Definition sign (x : R) : R := if Rgeb x 0 then 1 else -1.

(** ** Outcomes of a call

    [Done] is a normal return, [Throw] an exception that leaves the call,
    and [Fuel] marks a model loop that ran out of fuel (shown below never to
    happen for the fuel the model uses). *)

Inductive exception : Type :=
| MooseException (msg : string).

Inductive exec (A : Type) : Type :=
| Done (a : A)
| Throw (e : exception)
| Fuel.
Arguments Done {A} a.
Arguments Throw {A} e.
Arguments Fuel {A}.

Definition bind {A B : Type} (m : exec A) (k : A -> exec B) : exec B :=
  match m with
  | Done a => k a
  | Throw e => Throw e
  | Fuel => Fuel
  end.

Notation "x <- m ;; k" := (bind m (fun x => k))
  (at level 61, m at next level, right associativity).

(** ** Vectors and tensors *)

Record RealVectorValue : Type := Vec { c0 : R; c1 : R; c2 : R }.

Definition Point := RealVectorValue.
Definition zero_vector : RealVectorValue := Vec 0 0 0.

Definition vadd (u v : RealVectorValue) : RealVectorValue :=
  Vec (c0 u + c0 v) (c1 u + c1 v) (c2 u + c2 v).
Definition vsub (u v : RealVectorValue) : RealVectorValue :=
  Vec (c0 u - c0 v) (c1 u - c1 v) (c2 u - c2 v).
Definition vscale (k : R) (v : RealVectorValue) : RealVectorValue :=
  Vec (k * c0 v) (k * c1 v) (k * c2 v).

Record RankTwoTensor : Type := Tensor {
  t00 : R; t01 : R; t02 : R;
  t10 : R; t11 : R; t12 : R;
  t20 : R; t21 : R; t22 : R
}.

Definition transpose (m : RankTwoTensor) : RankTwoTensor :=
  Tensor (t00 m) (t10 m) (t20 m)
         (t01 m) (t11 m) (t21 m)
         (t02 m) (t12 m) (t22 m).

Definition tadd (a b : RankTwoTensor) : RankTwoTensor :=
  Tensor (t00 a + t00 b) (t01 a + t01 b) (t02 a + t02 b)
         (t10 a + t10 b) (t11 a + t11 b) (t12 a + t12 b)
         (t20 a + t20 b) (t21 a + t21 b) (t22 a + t22 b).

Definition tscale (k : R) (a : RankTwoTensor) : RankTwoTensor :=
  Tensor (k * t00 a) (k * t01 a) (k * t02 a)
         (k * t10 a) (k * t11 a) (k * t12 a)
         (k * t20 a) (k * t21 a) (k * t22 a).

Definition topp (a : RankTwoTensor) : RankTwoTensor :=
  Tensor (- t00 a) (- t01 a) (- t02 a)
         (- t10 a) (- t11 a) (- t12 a)
         (- t20 a) (- t21 a) (- t22 a).

Definition tmul (a b : RankTwoTensor) : RankTwoTensor :=
  Tensor (t00 a * t00 b + t01 a * t10 b + t02 a * t20 b)
         (t00 a * t01 b + t01 a * t11 b + t02 a * t21 b)
         (t00 a * t02 b + t01 a * t12 b + t02 a * t22 b)
         (t10 a * t00 b + t11 a * t10 b + t12 a * t20 b)
         (t10 a * t01 b + t11 a * t11 b + t12 a * t21 b)
         (t10 a * t02 b + t11 a * t12 b + t12 a * t22 b)
         (t20 a * t00 b + t21 a * t10 b + t22 a * t20 b)
         (t20 a * t01 b + t21 a * t11 b + t22 a * t21 b)
         (t20 a * t02 b + t21 a * t12 b + t22 a * t22 b).

Definition tapply (a : RankTwoTensor) (v : RealVectorValue) : RealVectorValue :=
  Vec (t00 a * c0 v + t01 a * c1 v + t02 a * c2 v)
      (t10 a * c0 v + t11 a * c1 v + t12 a * c2 v)
      (t20 a * c0 v + t21 a * c1 v + t22 a * c2 v).

Definition identity : RankTwoTensor := Tensor 1 0 0 0 1 0 0 0 1.

Definition symmetric (m : RankTwoTensor) : Prop := transpose m = m.

(** ** The material object *)

(** A framework [Function]: [value(t, p)] and [timeDerivative(t, p)]. *)
Record Function : Type := {
  value : R -> Point -> R;
  timeDerivative : R -> Point -> R
}.

(** A coupled variable ([VariableValue]), indexed as the source indexes it. *)
Definition VariableValue := nat -> R.

(** What the constructor reads from the input file and the coupled
    variables. *)
Record InputParameters : Type := {
  p_rotations : nat;            (* coupledComponents("rotations") *)
  p_displacements : nat;        (* coupledComponents("displacements") *)
  p_num_layers : nat;
  p_area : VariableValue;
  p_width : R;
  p_depth : R;
  p_Ay : VariableValue;
  p_Az : VariableValue;
  p_Ix : option VariableValue;
  p_Iy : VariableValue;
  p_Iz : VariableValue;
  p_large_strain : bool;
  p_elasticity_prefactor : option Function;
  p_yield_stress : R;
  p_hardening_constant : R;
  p_hardening_function : option Function;
  p_absolute_tolerance : R;
  p_relative_tolerance : R
}.

(** The members of a constructed [LayeredBeam] that the computations use. *)
Record LayeredBeam : Type := {
  has_Ix : bool;
  nrot : nat;
  ndisp : nat;
  nlayers : nat;
  area : VariableValue;
  width : R;
  depth : R;
  Ay : VariableValue;
  Az : VariableValue;
  Iy : VariableValue;
  Iz : VariableValue;
  Ix : VariableValue;
  large_strain : bool;
  prefactor_function : option Function;
  yield_stress : R;
  hardening_constant : R;
  hardening_function : option Function;
  absolute_tolerance : R;
  relative_tolerance : R;
  max_its : nat
}.

(** A fatal [mooseError] raised while the object is set up. *)
Inductive setup (A : Type) : Type :=
| Constructed (a : A)
| mooseError (msg : string).
Arguments Constructed {A} a.
Arguments mooseError {A} msg.

(** The member initialisers of the constructor; [_zero] is the framework's
    all-zero variable. *)
Definition members (p : InputParameters) : LayeredBeam :=
  {| has_Ix := match p_Ix p with Some _ => true | None => false end;
     nrot := p_rotations p;
     ndisp := p_displacements p;
     nlayers := p_num_layers p;
     area := p_area p;
     width := p_width p;
     depth := p_depth p;
     Ay := p_Ay p;
     Az := p_Az p;
     Iy := p_Iy p;
     Iz := p_Iz p;
     Ix := match p_Ix p with Some v => v | None => fun _ => 0 end;
     large_strain := p_large_strain p;
     prefactor_function := p_elasticity_prefactor p;
     yield_stress := p_yield_stress p;
     hardening_constant := p_hardening_constant p;
     hardening_function := p_hardening_function p;
     absolute_tolerance := p_absolute_tolerance p;
     relative_tolerance := p_relative_tolerance p;
     max_its := 1000 |}.

(** [LayeredBeam::LayeredBeam]: the two consistency checks of the
    constructor body, after the member initialisers. *)
Definition construct (p : InputParameters) : setup LayeredBeam :=
  let b := members p in
  if negb (ndisp b =? nrot b)%nat then
    mooseError "LayeredBeam: The number of variables supplied in 'displacements' and 'rotations' must match."
  else if large_strain b &&
          (Rgtb (Ay b 0%nat) 0 || Rgtb (Ay b 1%nat) 0 ||
           Rgtb (Az b 0%nat) 0 || Rgtb (Az b 1%nat) 0) then
    mooseError "LayeredBeam: Large strain calculation does not currently support asymmetric beam configurations with non-zero first or third moments of area."
  else
    Constructed b.

(** ** Per-layer state *)

Record LayerState : Type := Layer {
  direct_stress : R;
  plastic_strain : R;
  hardening_variable : R
}.

(** The stateful properties of one quadrature point: layer [i] of the
    previous step is [old i]. *)
Definition LayersOld := nat -> LayerState.

Section PlasticReturnMapping.

Variable b : LayeredBeam.

(** [LayeredBeam::computeHardeningValue] for the layer whose previous state
    is [old]; the default-constructed [Point] is the origin. *)
Definition computeHardeningValue (old : LayerState) (scalar : R) : R :=
  match hardening_function b with
  | Some f =>
      let strain_old := plastic_strain old in
      value f (Rabs strain_old + scalar) zero_vector - yield_stress b
  | None => hardening_variable old + hardening_constant b * scalar
  end.

(** [LayeredBeam::computeHardeningDerivative]. *)
Definition computeHardeningDerivative (old : LayerState) (scalar : R) : R :=
  match hardening_function b with
  | Some f =>
      let strain_old := plastic_strain old in
      timeDerivative f (Rabs strain_old) zero_vector
  | None => hardening_constant b
  end.

(** The local variables of the Newton loop of [computeQpStress]. *)
Record NewtonState : Type := Newton {
  plastic_strain_increment : R;
  hardening : R;               (* the layer's current _hardening_variable *)
  residual : R;
  reference_residual : R;
  iteration : nat
}.

(** State on entry to the [while]: [flexure] is [_material_flexure[_qp](2)]. *)
Definition newton_init (flexure trial_stress : R) (old : LayerState) : NewtonState :=
  let hardening_variable := hardening_variable old in
  let plastic_strain_increment := 0 in
  {| plastic_strain_increment := plastic_strain_increment;
     hardening := hardening_variable;
     residual := Rabs trial_stress - hardening_variable - yield_stress b -
                 flexure * plastic_strain_increment;
     reference_residual := Rabs trial_stress - flexure * plastic_strain_increment;
     iteration := 0 |}.

(** The condition of the [while]; [||] evaluates its second operand only
    when the first is false. *)
Definition loop_condition (st : NewtonState) : bool :=
  Rgtb (Rabs (residual st)) (absolute_tolerance b) ||
  abs_quotient_gt (residual st) (reference_residual st) (relative_tolerance b).

(** The body of the [while], up to and including [++iteration]. *)
Definition newton_body (flexure trial_stress : R) (old : LayerState)
    (st : NewtonState) : NewtonState :=
  let hardening_variable :=
    computeHardeningValue old (plastic_strain_increment st) in
  let hardening_slope :=
    computeHardeningDerivative old (plastic_strain_increment st) in
  let scalar :=
    (Rabs trial_stress - hardening_variable - yield_stress b -
     flexure * plastic_strain_increment st) / (flexure + hardening_slope) in
  let plastic_strain_increment := plastic_strain_increment st + scalar in
  {| plastic_strain_increment := plastic_strain_increment;
     hardening := hardening_variable;
     residual := Rabs trial_stress - hardening_variable - yield_stress b -
                 flexure * plastic_strain_increment;
     reference_residual := Rabs trial_stress - flexure * plastic_strain_increment;
     iteration := S (iteration st) |}.

(** The [while] loop with its throw. *)
Fixpoint newton_loop (fuel : nat) (flexure trial_stress : R) (old : LayerState)
    (st : NewtonState) : exec NewtonState :=
  if loop_condition st then
    match fuel with
    | O => Fuel
    | S fuel' =>
        let st' := newton_body flexure trial_stress old st in
        if (max_its b <? iteration st')%nat
        then Throw (MooseException "LayeredBeam: Plasticity model did not converge")
        else newton_loop fuel' flexure trial_stress old st'
    end
  else Done st.

Definition newton_solve (flexure trial_stress : R) (old : LayerState)
    : exec NewtonState :=
  newton_loop (S (max_its b)) flexure trial_stress old
              (newton_init flexure trial_stress old).

(** The [k]-th iterate of the loop body. *)
Fixpoint newton_iterate (k : nat) (flexure trial_stress : R) (old : LayerState)
    : NewtonState :=
  match k with
  | O => newton_init flexure trial_stress old
  | S k' => newton_body flexure trial_stress old
                        (newton_iterate k' flexure trial_stress old)
  end.

(** One pass of the layer loop of [computeQpStress] for the layer centred
    at [zmidl]: trial stress, yield test, return mapping, new stress. *)
Definition layer_update (flexure strain_increment zmidl : R) (old : LayerState)
    : exec LayerState :=
  let trial_stress := direct_stress old + flexure * strain_increment * zmidl in
  let hardening_variable := hardening_variable old in
  let plastic_strain := plastic_strain old in
  let yield_condition := Rabs trial_stress - hardening_variable - yield_stress b in
  let elastic_strain_increment := strain_increment * zmidl in
  if Rgtb yield_condition 0 then
    st <- newton_solve flexure trial_stress old ;;
    let plastic_strain_increment :=
      plastic_strain_increment st * sign trial_stress in
    let plastic_strain := plastic_strain + plastic_strain_increment in
    let elastic_strain_increment :=
      strain_increment * zmidl - plastic_strain_increment in
    Done {| direct_stress := direct_stress old + elastic_strain_increment * flexure;
            plastic_strain := plastic_strain;
            hardening_variable := hardening st |}
  else
    Done {| direct_stress := direct_stress old + elastic_strain_increment * flexure;
            plastic_strain := plastic_strain;
            hardening_variable := hardening_variable |}.

(** The variables carried round the layer loop. *)
Record LayerLoop : Type := {
  zmidl : R;
  moment : R;
  stres : R;                    (* _stres[_qp] *)
  layers : list LayerState      (* the layers written so far, 0 first *)
}.

Definition layer_step (flexure strain_increment thick : R) (old : LayersOld)
    (i : nat) (acc : LayerLoop) : exec LayerLoop :=
  let zmidl := zmidl acc + thick / 2 in
  l <- layer_update flexure strain_increment zmidl (old i) ;;
  let moment := moment acc + direct_stress l * width b * zmidl * thick in
  Done {| zmidl := zmidl + thick / 2;
          moment := moment;
          stres := moment;
          layers := layers acc ++ [l] |}.

(** [for (unsigned int i = 0; i < _nlayers; ++i)], entered at [i] with [n]
    passes left. *)
Fixpoint layer_loop (n : nat) (flexure strain_increment thick : R)
    (old : LayersOld) (i : nat) (acc : LayerLoop) : exec LayerLoop :=
  match n with
  | O => Done acc
  | S n' =>
      acc' <- layer_step flexure strain_increment thick old i acc ;;
      layer_loop n' flexure strain_increment thick old (S i) acc'
  end.

(** [LayeredBeam::computeQpStress].  [total_stretch] is [_total_stretch[_qp]],
    [stres0] what [_stres[_qp]] holds on entry. *)
Definition computeQpStress (flexure total_stretch stres0 : R) (old : LayersOld)
    : exec LayerLoop :=
  let strain_increment := total_stretch in
  let zmidl := -0.5 * depth b in
  let thick := depth b / INR (nlayers b) in
  let moment := 0 in
  layer_loop (nlayers b) flexure strain_increment thick old 0
             {| zmidl := zmidl; moment := moment; stres := stres0; layers := [] |}.

End PlasticReturnMapping.

(** ** Strain kinematics *)

(** One named eigenstrain at the quadrature point: current and old
    displacement and rotational parts. *)
Record Eigenstrain : Type := {
  disp_eigenstrain : RealVectorValue;
  disp_eigenstrain_old : RealVectorValue;
  rot_eigenstrain : RealVectorValue;
  rot_eigenstrain_old : RealVectorValue
}.

(** What [computeQpStrain] reads besides the object's parameters. *)
Record QpInput : Type := {
  qp : nat;
  original_length : R;                       (* _original_length[0] *)
  total_rotation : RankTwoTensor;            (* _total_rotation[0] *)
  disp0 : RealVectorValue;
  disp1 : RealVectorValue;
  rot0 : RealVectorValue;
  rot1 : RealVectorValue;
  total_disp_strain_old : RealVectorValue;   (* at _qp *)
  total_rot_strain_old : RealVectorValue;    (* at _qp *)
  eigenstrains : list Eigenstrain;
  material_stiffness : RealVectorValue;      (* _material_stiffness[0] *)
  material_flexure : RealVectorValue;        (* _material_flexure[_qp] *)
  time : R;                                  (* _t *)
  q_point : Point;                           (* _q_point[_qp] *)
  layers_old : LayersOld;
  stres_entry : R                            (* _stres[_qp] on entry *)
}.

(** What [computeQpStrain] writes. *)
Record QpOutput : Type := {
  grad_disp_0_local_t : RealVectorValue;
  grad_rot_0_local_t : RealVectorValue;
  avg_rot_local_t : RealVectorValue;
  total_stretch : R;
  mech_disp_strain_increment : RealVectorValue;
  mech_rot_strain_increment : RealVectorValue;
  total_disp_strain : RealVectorValue;
  total_rot_strain : RealVectorValue;
  effective_stiffness : R;
  stress : LayerLoop
}.

Section StrainKinematics.

Variable b : LayeredBeam.
Variable q : QpInput.

Definition A_avg : R := (area b 0%nat + area b 1%nat) / 2.
Definition Iy_avg : R := (Iy b 0%nat + Iy b 1%nat) / 2.
Definition Iz_avg : R := (Iz b 0%nat + Iz b 1%nat) / 2.

(** [Ix] of [computeQpStrain]. *)
Definition Ix_qp : R :=
  if negb (has_Ix b) then Iy b (qp q) + Iz b (qp q) else Ix b (qp q).

Definition grad_disp_0 : RealVectorValue :=
  vscale (1 / original_length q) (vsub (disp1 q) (disp0 q)).
Definition grad_rot_0 : RealVectorValue :=
  vscale (1 / original_length q) (vsub (rot1 q) (rot0 q)).
Definition avg_rot : RealVectorValue :=
  Vec (0.5 * (c0 (rot0 q) + c0 (rot1 q)))
      (0.5 * (c1 (rot0 q) + c1 (rot1 q)))
      (0.5 * (c2 (rot0 q) + c2 (rot1 q))).

Definition local_grad_disp : RealVectorValue := tapply (total_rotation q) grad_disp_0.
Definition local_grad_rot : RealVectorValue := tapply (total_rotation q) grad_rot_0.
Definition local_avg_rot : RealVectorValue := tapply (total_rotation q) avg_rot.

(** The small-strain increments; [Iyz] is the constant [0] of the source. *)
Definition small_disp_strain : RealVectorValue :=
  let g := local_grad_disp in
  let gr := local_grad_rot in
  let a := local_avg_rot in
  let i := qp q in
  Vec (c0 g * area b i - c2 gr * Ay b i + c1 gr * Az b i)
      (- c2 a * area b i + c1 g * area b i - c0 gr * Az b i)
      (c1 a * area b i + c2 g * area b i + c0 gr * Ay b i).

Definition small_rot_strain : RealVectorValue :=
  let g := local_grad_disp in
  let gr := local_grad_rot in
  let a := local_avg_rot in
  let i := qp q in
  let Iyz := 0 in
  Vec (c1 a * Ay b i + c2 g * Ay b i + c0 gr * Ix_qp + c2 a * Az b i -
       c1 g * Az b i)
      (c0 g * Az b i - c2 gr * Iyz + c1 gr * Iz b i)
      (- c0 g * Ay b i + c2 gr * Iy b i - c1 gr * Iyz).

(** The terms added under [if (_large_strain)]. *)
Definition large_disp_strain_terms : RealVectorValue :=
  let g := local_grad_disp in
  let gr := local_grad_rot in
  let a := local_avg_rot in
  let i := qp q in
  Vec (0.5 * ((c0 g ^ 2 + c1 g ^ 2 + c2 g ^ 2) * area b i +
              c2 gr ^ 2 * Iy b i + c1 gr ^ 2 * Iz b i + c0 gr ^ 2 * Ix_qp))
      ((- c2 a * c0 g + c0 a * c2 g) * area b i)
      ((c1 a * c0 g - c0 a * c1 g) * area b i).

Definition large_rot_strain_terms : RealVectorValue :=
  let g := local_grad_disp in
  let gr := local_grad_rot in
  let a := local_avg_rot in
  let i := qp q in
  Vec (- c1 a * c2 gr * Iy b i + c2 a * c1 gr * Iz b i)
      ((c0 g * c1 gr - c1 g * c0 gr) * Iz b i)
      (- (c2 g * c0 gr - c0 g * c2 gr) * Iy b i).

(** The strain increments as they stand when the totals are updated. *)
Definition disp_strain_increment : RealVectorValue :=
  if large_strain b then vadd small_disp_strain large_disp_strain_terms
  else small_disp_strain.

Definition rot_strain_increment : RealVectorValue :=
  if large_strain b then vadd small_rot_strain large_rot_strain_terms
  else small_rot_strain.

(** The eigenstrain loop: each named eigenstrain increment is rotated to the
    local frame and removed. *)
Definition remove_eigenstrains (dr : RealVectorValue * RealVectorValue)
    : RealVectorValue * RealVectorValue :=
  fold_left
    (fun acc e =>
       (vsub (fst acc)
             (vscale (area b (qp q))
                (tapply (total_rotation q)
                   (vsub (disp_eigenstrain e) (disp_eigenstrain_old e)))),
        vsub (snd acc)
             (tapply (total_rotation q)
                (vsub (rot_eigenstrain e) (rot_eigenstrain_old e)))))
    (eigenstrains q) dr.

(** The effective stiffness before the prefactor is applied. *)
Definition effective_stiffness_base : R :=
  let c1_paper := sqrt (c0 (material_stiffness q)) in
  let c2_paper := sqrt (c1 (material_stiffness q)) in
  let effec_stiff_1 := Rmax c1_paper c2_paper in
  let effec_stiff_2 := 2 / (c2_paper * sqrt (A_avg / Iz_avg)) in
  Rmax effec_stiff_1 (original_length q / effec_stiff_2).

Definition effective_stiffness_value : R :=
  match prefactor_function b with
  | Some f => effective_stiffness_base * sqrt (value f (time q) (q_point q))
  | None => effective_stiffness_base
  end.

(** [LayeredBeam::computeQpStrain]. *)
Definition computeQpStrain : exec QpOutput :=
  let total_stretch := c2 local_grad_rot in
  s <- computeQpStress b (c2 (material_flexure q)) total_stretch
                       (stres_entry q) (layers_old q) ;;
  let total_disp_strain :=
    vadd (tapply (transpose (total_rotation q)) disp_strain_increment)
         (total_disp_strain_old q) in
  let total_rot_strain :=
    vadd (tapply (transpose (total_rotation q)) rot_strain_increment)
         (total_disp_strain_old q) in
  let mech := remove_eigenstrains (disp_strain_increment, rot_strain_increment) in
  Done {| grad_disp_0_local_t := local_grad_disp;
          grad_rot_0_local_t := local_grad_rot;
          avg_rot_local_t := local_avg_rot;
          total_stretch := total_stretch;
          mech_disp_strain_increment := fst mech;
          mech_rot_strain_increment := snd mech;
          total_disp_strain := total_disp_strain;
          total_rot_strain := total_rot_strain;
          effective_stiffness := effective_stiffness_value;
          stress := s |}.

End StrainKinematics.

(** ** Tangent stiffness blocks *)

(** The five blocks handed to the host. *)
Record StiffnessBlocks : Type := {
  K11 : RankTwoTensor;
  K21_cross : RankTwoTensor;
  K21 : RankTwoTensor;
  K22 : RankTwoTensor;
  K22_cross : RankTwoTensor
}.

(** [R.transpose() * K * R]. *)
Definition rotate (R K : RankTwoTensor) : RankTwoTensor :=
  tmul (tmul (transpose R) K) R.

Section StiffnessAssembler.

Variable b : LayeredBeam.

(** [_material_stiffness[0]], [_original_length[0]], [_total_rotation[0]]
    and the three local kinematic vectors left by [computeQpStrain]
    ([g] = [_grad_disp_0_local_t], [gr] = [_grad_rot_0_local_t],
    [a] = [_avg_rot_local_t]). *)
Variable stiffness : RealVectorValue.
Variable L : R.
Variable Rot : RankTwoTensor.
Variables g gr a : RealVectorValue.

Definition youngs_modulus : R := c0 stiffness.
Definition shear_modulus : R := c1 stiffness.

Definition Ix_avg : R :=
  if negb (has_Ix b) then Iy_avg b + Iz_avg b
  else (Ix b 0%nat + Ix b 1%nat) / 2.

Definition K11_local : RankTwoTensor :=
  Tensor (youngs_modulus * A_avg b / L) 0 0
         0 (shear_modulus * A_avg b / L) 0
         0 0 (shear_modulus * A_avg b / L).

Definition K21_local : RankTwoTensor :=
  Tensor 0 0 0
         0 0 (- shear_modulus * A_avg b * 0.5)
         0 (shear_modulus * A_avg b * 0.5) 0.

Definition K22_local : RankTwoTensor :=
  Tensor (shear_modulus * Ix_avg / L) 0 0
         0 (youngs_modulus * Iz_avg b / L + shear_modulus * A_avg b * L / 4) 0
         0 0 (youngs_modulus * Iy_avg b / L + shear_modulus * A_avg b * L / 4).

Definition K22_local_cross : RankTwoTensor :=
  let m := topp K22_local in
  Tensor (t00 m) (t01 m) (t02 m)
         (t10 m) (t11 m + 2 * shear_modulus * A_avg b * L / 4) (t12 m)
         (t20 m) (t21 m) (t22 m + 2 * shear_modulus * A_avg b * L / 4).

(** The blocks before the large-strain terms are added. *)
Definition small_blocks : StiffnessBlocks :=
  {| K11 := rotate Rot K11_local;
     K21_cross := topp (rotate Rot K21_local);
     K21 := rotate Rot K21_local;
     K22 := rotate Rot K22_local;
     K22_cross := rotate Rot K22_local_cross |}.

(** [k1_large_11]; entries (0,1), (0,2), (1,2) are copied from (1,0),
    (2,0), (2,1). *)
Definition k1_large_11 : RankTwoTensor :=
  let k00 := c0 g ^ 2 + 1.5 * c2 gr ^ 2 * Iy_avg b + 1.5 * c1 gr ^ 2 * Iz_avg b +
             0.5 * c1 g ^ 2 + 0.5 * c2 g ^ 2 + 0.5 * c0 gr ^ 2 * Ix_avg in
  let k10 := 0.5 * c0 g * c1 g - 1 / 3 * c0 gr * c1 gr * Iz_avg b in
  let k20 := 0.5 * c0 g * c2 g - 1 / 3 * c0 gr * c2 gr * Iy_avg b in
  let k11 := c1 g ^ 2 + 1.5 * c0 gr ^ 2 * Iz_avg b + 0.5 * c0 g ^ 2 +
             0.5 * c2 g ^ 2 + 0.5 * c2 gr ^ 2 * Iy_avg b +
             0.5 * c1 gr ^ 2 * Iz_avg b + 0.5 * c0 gr ^ 2 * Iy_avg b in
  let k21 := 0.5 * c1 g * c2 g in
  let k22 := c2 g ^ 2 + 1.5 * c0 gr ^ 2 * Iy_avg b + 0.5 * c0 g ^ 2 +
             0.5 * c1 g ^ 2 + 0.5 * c0 gr ^ 2 * Iz_avg b +
             0.5 * c2 gr ^ 2 * Iy_avg b + 0.5 * c2 gr ^ 2 * Iz_avg b in
  tscale (1 / 4 / L ^ 2)
    (Tensor k00 k10 k20
            k10 k11 k21
            k20 k21 k22).

Definition k1_large_21 : RankTwoTensor :=
  let k00 := 0.5 * c0 g * c0 gr * Ix_avg - 1 / 3 * c1 g * c1 gr * Iz_avg b -
             1 / 3 * c2 g * c2 gr in
  let k10 := 1.5 * c0 g * c1 gr * Iz_avg b - 1 / 3 * c1 g * c0 gr * Iz_avg b in
  let k20 := 1.5 * c0 g * c2 gr * Iy_avg b - 1 / 3 * c2 g * c0 gr * Iy_avg b in
  let k11 := 0.5 * c1 g * c1 gr * Iz_avg b - 1 / 3 * c0 g * c0 gr * Iz_avg b in
  let k21 := 0.5 * c1 g * c2 gr * Iy_avg b in
  let k22 := 0.5 * c2 g * c2 gr * Iy_avg b - 1 / 3 * c0 g * c0 gr * Iy_avg b in
  tscale (1 / 4 / L ^ 2)
    (Tensor k00 k10 k20
            k10 k11 k21
            k20 k21 k22).

Definition k1_large_22 : RankTwoTensor :=
  let k00 := c0 gr ^ 2 * Ix_avg ^ 2 + 1.5 * c1 g ^ 2 * Iz_avg b +
             1.5 * c2 g ^ 2 * Iy_avg b + 0.5 * c0 g ^ 2 * Ix_avg +
             0.5 * c2 g ^ 2 * Iz_avg b + 0.5 * c1 g ^ 2 * Iy_avg b +
             0.5 * c2 gr ^ 2 * Iy_avg b * Ix_avg +
             0.5 * c1 gr ^ 2 * Iz_avg b * Ix_avg in
  let k10 := 0.5 * c0 gr * c1 gr * Iz_avg b * Ix_avg -
             1 / 3 * c0 g * c1 g * Iz_avg b in
  let k20 := 0.5 * c0 gr * c2 gr * Iy_avg b * Ix_avg -
             1 / 3 * c0 g * c2 g * Iy_avg b in
  let k11 := c1 gr ^ 2 * Iz_avg b * Iz_avg b + 1.5 * c0 g ^ 2 * Iz_avg b +
             1.5 * c2 gr ^ 2 * Iy_avg b * Iz_avg b + 0.5 * c1 g ^ 2 * Iz_avg b +
             0.5 * c2 g ^ 2 * Iz_avg b + 0.5 * c0 gr ^ 2 * Iz_avg b * Ix_avg in
  let k21 := 1.5 * c1 gr * c2 gr * Iy_avg b * Iz_avg b in
  let k22 := c2 gr ^ 2 * Iy_avg b * Iy_avg b + 1.5 * c0 g ^ 2 * Iy_avg b +
             1.5 * c1 gr ^ 2 * Iy_avg b * Iz_avg b + 0.5 * c1 g ^ 2 * Iy_avg b +
             0.5 * c2 g ^ 2 * Iy_avg b + 0.5 * c0 gr ^ 2 * Iz_avg b * Ix_avg in
  tscale (1 / 4 / L ^ 2)
    (Tensor k00 k10 k20
            k10 k11 k21
            k20 k21 k22).

(** [k2_large_11]; entries (1,2) and (2,1) are never assigned and keep the
    zero of the default-constructed tensor. *)
Definition k2_large_11 : RankTwoTensor :=
  let k00 := 0.25 * c2 a ^ 2 + 0.25 * c1 a ^ 2 in
  let k10 := - 1 / 6 * c0 a * c1 a in
  let k20 := - 1 / 6 * c0 a * c2 a in
  let k11 := 0.25 * c0 a in
  let k22 := 0.25 * c0 a ^ 2 in
  tscale (1 / 4 / L ^ 2)
    (Tensor k00 k10 k20
            k10 k11 0
            k20 0 k22).

Definition k2_large_22 : RankTwoTensor :=
  let k00 := 0.25 * c0 a ^ 2 * Ix_avg in
  let k10 := 1 / 6 * c0 a * c1 a * Iz_avg b in
  let k20 := 1 / 6 * c0 a * c2 a * Iy_avg b in
  let k11 := 0.25 * c2 a ^ 2 * Iz_avg b + 0.25 * c1 a ^ 2 * Iz_avg b in
  let k22 := 0.25 * c2 a ^ 2 * Iy_avg b + 0.25 * c1 a ^ 2 * Iy_avg b in
  tscale (1 / 4 / L ^ 2)
    (Tensor k00 k10 k20
            k10 k11 0
            k20 0 k22).

(** [k3_large_22] before [k4_large_22] is added: the source assigns entry
    (2,2) twice and entry (1,1) never. *)
Definition k3_large_22_first : RankTwoTensor :=
  let k00 := 0.25 * c2 g ^ 2 + 0.25 * c0 gr * Ix_avg + 0.25 * c1 g ^ 2 in
  let k10 := - 1 / 6 * c0 g * c1 g + 1 / 6 * c0 gr * c1 gr * Iz_avg b in
  let k20 := - 1 / 6 * c0 g * c2 g + 1 / 6 * c0 gr * c2 gr * Iy_avg b in
  let k22 := 0.25 * c0 g ^ 2 + 0.25 * c2 gr * Iy_avg b +
             0.25 * c1 gr * Iz_avg b in
  tscale (1 / 16)
    (Tensor k00 k10 k20
            k10 0 0
            k20 0 k22).

Definition k3_large_21 : RankTwoTensor :=
  let k00 := - 1 / 6 * (c2 g * c2 a + c1 g * c1 a) in
  let k10 := 0.25 * c0 g * c1 a - 1 / 6 * c1 g * c0 a in
  let k20 := 0.25 * c0 g * c2 a - 1 / 6 * c2 g * c0 a in
  let k01 := 0.25 * c1 g * c0 a - 1 / 6 * c0 g * c1 a in
  let k11 := - 1 / 6 * c0 g * c0 a in
  let k02 := 0.25 * c2 g * c0 a - 1 / 6 * c0 g * c2 a in
  let k22 := - 1 / 6 * c0 g * c0 a in
  tscale (1 / 8 / L)
    (Tensor k00 k01 k02
            k10 k11 0
            k20 0 k22).

Definition k4_large_22 : RankTwoTensor :=
  let k00 := 0.25 * c0 gr * c0 a * Ix_avg + 1 / 6 * c2 gr * c2 a * Iy_avg b +
             1 / 6 * c1 gr * c1 a * Iz_avg b in
  let k10 := 1 / 6 * c1 gr * c0 a * Iz_avg b in
  let k20 := 1 / 6 * c2 gr * c0 a * Iy_avg b in
  let k01 := 1 / 6 * c0 gr * c1 a * Iz_avg b in
  let k11 := 0.25 * c1 gr * c1 a * Iz_avg b + 1 / 6 * c0 gr * c0 a * Iz_avg b in
  let k21 := 0.25 * c1 gr * c2 a * Iz_avg b in
  let k02 := 1 / 6 * c0 gr * c2 a * Iy_avg b in
  let k12 := 0.25 * c2 gr * c1 a * Iy_avg b in
  let k22 := 0.25 * c2 gr * c2 a * Iy_avg b + 1 / 6 * c0 gr * c0 a * Iy_avg b in
  Tensor k00 k01 k02
         k10 k11 k12
         k20 k21 k22.

Definition k3_large_22 : RankTwoTensor :=
  tadd k3_large_22_first
       (tscale (1 / 8 / L) (tadd k4_large_22 (transpose k4_large_22))).

(** The local large-strain term added to each block. *)
Definition K11_large : RankTwoTensor := tadd k1_large_11 k2_large_11.
Definition K22_large : RankTwoTensor :=
  tadd (tadd k1_large_22 k2_large_22) k3_large_22.
Definition K21_large : RankTwoTensor := tadd k1_large_21 k3_large_21.
Definition K21_cross_large : RankTwoTensor :=
  tadd (topp k1_large_21) k3_large_21.
Definition K22_cross_large : RankTwoTensor :=
  tadd (tadd (topp k1_large_22) (topp k2_large_22)) k3_large_22.

(** [LayeredBeam::computeStiffnessMatrix]. *)
Definition computeStiffnessMatrix : StiffnessBlocks :=
  let s := small_blocks in
  if large_strain b then
    {| K11 := tadd (K11 s) (rotate Rot K11_large);
       K21_cross := tadd (K21_cross s) (rotate Rot K21_cross_large);
       K21 := tadd (K21 s) (rotate Rot K21_large);
       K22 := tadd (K22 s) (rotate Rot K22_large);
       K22_cross := tadd (K22_cross s) (rotate Rot K22_cross_large) |}
  else s.

End StiffnessAssembler.

(** ** Example configurations *)

Definition constant (x : R) : VariableValue := fun _ => x.

(** A rectangular section of width 0.1 and depth 0.2 with default
    tolerances; the remaining parameters are left open. *)
Definition section_parameters (n : nat) (yield hardening : R)
    (curve prefactor : option Function) (large : bool) (first_moment : R)
    : InputParameters :=
  {| p_rotations := 3;
     p_displacements := 3;
     p_num_layers := n;
     p_area := constant 0.02;
     p_width := 0.1;
     p_depth := 0.2;
     p_Ay := constant first_moment;
     p_Az := constant 0;
     p_Ix := None;
     p_Iy := constant (0.1 * 0.2 ^ 3 / 12);
     p_Iz := constant (0.2 * 0.1 ^ 3 / 12);
     p_large_strain := large;
     p_elasticity_prefactor := prefactor;
     p_yield_stress := yield;
     p_hardening_constant := hardening;
     p_hardening_function := curve;
     p_absolute_tolerance := 1e-10;
     p_relative_tolerance := 1e-8 |}.

(** A piecewise-linear stress-strain curve starting at 200 with slope 1 up
    to a plastic strain of 1 and slope 7 beyond, with its derivative. *)
Definition kinked_curve : Function :=
  {| value := fun x _ => if Rle_dec x 1 then 200 + x else 201 + 7 * (x - 1);
     timeDerivative := fun x _ => if Rle_dec x 1 then 1 else 7 |}.

(** The section with that curve as hardening function. *)
Definition kinked : InputParameters :=
  section_parameters 10 200 0 (Some kinked_curve) None false 0.

(** The concrete scenario: ten layers, yield stress 200, hardening constant
    1e3. *)
Definition scenario : InputParameters :=
  section_parameters 10 200 1e3 None None false 0.


(** A layer in its initial state ([initQpStatefulProperties]). *)
Definition virgin : LayerState := Layer 0 0 0.

(** A quadrature point of a beam of unit length lying along the global
    axes: no displacement increment, rotation increment [rot] at node 1
    only, no eigenstrains, moduli 2e5 (axial, bending) and 8e4 (shear). *)
Definition unit_beam_input (rot : RealVectorValue) (old : LayersOld)
    (stres_entry : R) : QpInput :=
  {| qp := 0;
     original_length := 1;
     total_rotation := identity;
     disp0 := zero_vector;
     disp1 := zero_vector;
     rot0 := zero_vector;
     rot1 := rot;
     total_disp_strain_old := zero_vector;
     total_rot_strain_old := zero_vector;
     eigenstrains := [];
     material_stiffness := Vec 2e5 8e4 8e4;
     material_flexure := Vec 2e5 2e5 2e5;
     time := 0;
     q_point := zero_vector;
     layers_old := old;
     stres_entry := stres_entry |}.

(** The layers a returned call leaves, as the next call reads them. *)
Definition as_old (ls : list LayerState) : LayersOld :=
  fun i => nth i ls virgin.

(** A two-layer section with a negative hardening constant (softening). *)
Definition softening : LayeredBeam :=
  members (section_parameters 2 200 (-1e5) None None false 0).

(** The layers of [softening] after a first call from the initial state with
    curvature 0.08, and after a second call without increments. *)
Definition after_first : list LayerState :=
  [Layer 400 (-0.006) (-600); Layer (-400) 0.006 (-600)].
Definition after_second : list LayerState :=
  [Layer (-1200) 0.002 (-1400); Layer 1200 (-0.002) (-1400)].

(** The scenario's section in large-strain mode with a first moment of area
    [Ay] of -1e-3 at both nodes. *)
Definition negative_first_moment : InputParameters :=
  section_parameters 10 200 1e3 None None true (-1e-3).

(** The scenario's section in large-strain mode, symmetric. *)
Definition large_strain_section : InputParameters :=
  section_parameters 10 200 1e3 None None true 0.

(** A prefactor function of constant value 4, and the scenario with it. *)
Definition fourfold : Function :=
  {| value := fun _ _ => 4; timeDerivative := fun _ _ => 0 |}.

Definition with_prefactor : InputParameters :=
  section_parameters 10 200 1e3 None (Some fourfold) false 0.

(** A unit beam without increments whose previous total strains are [d]
    (displacement) and [r] (rotation). *)
Definition resting_input (d r : RealVectorValue) : QpInput :=
  {| qp := 0;
     original_length := 1;
     total_rotation := identity;
     disp0 := zero_vector;
     disp1 := zero_vector;
     rot0 := zero_vector;
     rot1 := zero_vector;
     total_disp_strain_old := d;
     total_rot_strain_old := r;
     eigenstrains := [];
     material_stiffness := Vec 2e5 8e4 8e4;
     material_flexure := Vec 2e5 2e5 2e5;
     time := 0;
     q_point := zero_vector;
     layers_old := fun _ => virgin;
     stres_entry := 0 |}.

(** A unit beam whose node 1 is displaced by [u] along the axis. *)
Definition axial_pull (u : R) : QpInput :=
  {| qp := 0;
     original_length := 1;
     total_rotation := identity;
     disp0 := zero_vector;
     disp1 := Vec u 0 0;
     rot0 := zero_vector;
     rot1 := zero_vector;
     total_disp_strain_old := zero_vector;
     total_rot_strain_old := zero_vector;
     eigenstrains := [];
     material_stiffness := Vec 2e5 8e4 8e4;
     material_flexure := Vec 2e5 2e5 2e5;
     time := 0;
     q_point := zero_vector;
     layers_old := fun _ => virgin;
     stres_entry := 0 |}.

(** The beam [b] with another cross-section area. *)
Definition with_area (x : VariableValue) (b : LayeredBeam) : LayeredBeam :=
  {| has_Ix := has_Ix b;
     nrot := nrot b;
     ndisp := ndisp b;
     nlayers := nlayers b;
     area := x;
     width := width b;
     depth := depth b;
     Ay := Ay b;
     Az := Az b;
     Iy := Iy b;
     Iz := Iz b;
     Ix := Ix b;
     large_strain := large_strain b;
     prefactor_function := prefactor_function b;
     yield_stress := yield_stress b;
     hardening_constant := hardening_constant b;
     hardening_function := hardening_function b;
     absolute_tolerance := absolute_tolerance b;
     relative_tolerance := relative_tolerance b;
     max_its := max_its b |}.



(** The effective stiffness as the contract writes it, before any
    prefactor. *)
Definition contract_stiffness (b : LayeredBeam) (q : QpInput) : R :=
  let c_axial := sqrt (c0 (material_stiffness q)) in
  let c_shear := sqrt (c1 (material_stiffness q)) in
  Rmax (Rmax c_axial c_shear)
       (original_length q / (2 / (c_shear * sqrt (A_avg b / Iz_avg b)))).

(** ** Reference definitions used by the statements *)

(** Both tolerances are met at a Newton state.  A zero reference residual
    meets the relative tolerance only together with a zero residual. *)
Definition both_tolerances_met (b : LayeredBeam) (st : NewtonState) : Prop :=
  Rabs (residual st) <= absolute_tolerance b /\
  ((reference_residual st <> 0 /\
    Rabs (residual st / reference_residual st) <= relative_tolerance b) \/
   (reference_residual st = 0 /\ residual st = 0)).

(** The closed-form return-mapping increment for linear hardening. *)
Definition closed_form_increment (b : LayeredBeam) (flexure trial_stress : R)
    (old : LayerState) : R :=
  (Rabs trial_stress - yield_stress b - hardening_variable old) /
  (flexure + hardening_constant b).

(** Thickness and centroid offset of layer [i]. *)
Definition layer_thickness (b : LayeredBeam) : R := depth b / INR (nlayers b).

Definition layer_offset (b : LayeredBeam) (i : nat) : R :=
  -0.5 * depth b + layer_thickness b / 2 + INR i * layer_thickness b.

(** The midpoint-rule moment of the layers [ls], the first of which is
    layer [i]. *)
Fixpoint midpoint_moment (b : LayeredBeam) (i : nat) (ls : list LayerState) : R :=
  match ls with
  | [] => 0
  | l :: ls' =>
      direct_stress l * width b * layer_offset b i * layer_thickness b +
      midpoint_moment b (S i) ls'
  end.

(** The return mapping applied to layers [i], ..., [i + n - 1], each at its
    centroid offset. *)
Fixpoint update_layers (b : LayeredBeam) (flexure strain_increment : R)
    (old : LayersOld) (n i : nat) : exec (list LayerState) :=
  match n with
  | O => Done []
  | S n' =>
      l <- layer_update b flexure strain_increment (layer_offset b i) (old i) ;;
      ls <- update_layers b flexure strain_increment old n' (S i) ;;
      Done (l :: ls)
  end.

(** A previous layer state that needs no plastic correction when nothing
    moves: within the yield condition, or beyond it by a residual that
    meets both tolerances. *)
Definition at_rest (b : LayeredBeam) (flexure : R) (l : LayerState) : Prop :=
  Rabs (direct_stress l) - hardening_variable l - yield_stress b <= 0 \/
  both_tolerances_met b (newton_init b flexure (direct_stress l) l).

(** The current yield strength of a layer is not negative. *)
Definition admissible (b : LayeredBeam) (l : LayerState) : Prop :=
  0 <= hardening_variable l + yield_stress b.

(** ** Initial stateful properties *)

(** [TypeVector::norm] and [TypeVector::operator/=]. *)
Definition norm (v : RealVectorValue) : R :=
  sqrt (c0 v * c0 v + c1 v * c1 v + c2 v * c2 v).
Definition vdiv (v : RealVectorValue) (k : R) : RealVectorValue :=
  Vec (c0 v / k) (c1 v / k) (c2 v / k).

(** What [initQpStatefulProperties] writes at a quadrature point. *)
Record StatefulProperties : Type := {
  init_total_stretch : R;
  init_layers : list LayerState;
  init_stres : R;
  original_local_config : RankTwoTensor;
  init_total_rotation : RankTwoTensor;
  init_total_disp_strain : RealVectorValue;
  init_total_rot_strain : RealVectorValue
}.

(** [LayeredBeam::initQpStatefulProperties].  [dxyzdxi] is the tangent of
    the element the finite-element object reports at its first point,
    [y_param] the parameter [y_orientation]. *)
Definition initQpStatefulProperties (b : LayeredBeam)
    (dxyzdxi y_param : RealVectorValue) : setup StatefulProperties :=
  let x_orientation := vdiv dxyzdxi (norm dxyzdxi) in
  let y_orientation := vdiv y_param (norm y_param) in
  let sum := c0 x_orientation * c0 y_orientation +
             c1 x_orientation * c1 y_orientation +
             c2 x_orientation * c2 y_orientation in
  if Rgtb (Rabs sum) 1e-4 then
    mooseError "LayeredBeam: y_orientation should be perpendicular to the axis of the beam."
  else
    let z_orientation :=
      Vec (c1 x_orientation * c2 y_orientation - c2 x_orientation * c1 y_orientation)
          (c2 x_orientation * c0 y_orientation - c0 x_orientation * c2 y_orientation)
          (c0 x_orientation * c1 y_orientation - c1 x_orientation * c0 y_orientation) in
    let config :=
      Tensor (c0 x_orientation) (c1 x_orientation) (c2 x_orientation)
             (c0 y_orientation) (c1 y_orientation) (c2 y_orientation)
             (c0 z_orientation) (c1 z_orientation) (c2 z_orientation) in
    Constructed {| init_total_stretch := 0;
                   init_layers := repeat (Layer 0 0 0) (nlayers b);
                   init_stres := 0;
                   original_local_config := config;
                   init_total_rotation := config;
                   init_total_disp_strain := zero_vector;
                   init_total_rot_strain := zero_vector |}.

(** ** The element call *)

(** Component access [v(i)] and assignment [v(i) = x] of a three-component
    vector.  The mesh library asserts [i < 3]; the statements about the
    loops below assume at most three coupled components, so that the last
    cases are never reached. *)
Definition component (v : RealVectorValue) (i : nat) : R :=
  match i with
  | O => c0 v
  | S O => c1 v
  | S (S O) => c2 v
  | _ => 0
  end.

Definition assign (v : RealVectorValue) (i : nat) (x : R) : RealVectorValue :=
  match i with
  | O => Vec x (c1 v) (c2 v)
  | S O => Vec (c0 v) x (c2 v)
  | S (S O) => Vec (c0 v) (c1 v) x
  | _ => v
  end.

(** [for (unsigned int i = ...; i < _ndisp; ++i) v(i) = f(i)], entered at
    [i] with [n] passes left. *)
Fixpoint assign_from (i n : nat) (f : nat -> R) (v : RealVectorValue)
    : RealVectorValue :=
  match n with
  | O => v
  | S n' => assign_from (S i) n' f (assign v i (f i))
  end.

(** The member vectors [_disp0], [_disp1], [_rot0], [_rot1]: they keep
    their values between calls. *)
Record NodalIncrements : Type := {
  m_disp0 : RealVectorValue;
  m_disp1 : RealVectorValue;
  m_rot0 : RealVectorValue;
  m_rot1 : RealVectorValue
}.

(** The local kinematic vectors [_grad_disp_0_local_t],
    [_grad_rot_0_local_t] and [_avg_rot_local_t], members as well. *)
Record LocalKinematics : Type := {
  k_grad_disp : RealVectorValue;
  k_grad_rot : RealVectorValue;
  k_avg_rot : RealVectorValue
}.

(** What a quadrature point contributes to [computeQpStrain]. *)
Record QpData : Type := {
  d_total_disp_strain_old : RealVectorValue;
  d_total_rot_strain_old : RealVectorValue;
  d_eigenstrains : list Eigenstrain;
  d_material_flexure : RealVectorValue;
  d_q_point : Point;
  d_layers_old : LayersOld;
  d_stres_entry : R
}.

(** What [computeProperties] reads: the two end nodes, the current and the
    old solution at the degrees of freedom of the displacement and rotation
    variables of either node, the members as the previous call left them,
    the frame of [initQpStatefulProperties], and the quadrature points. *)
Record ElementInput : Type := {
  node0 : Point;
  node1 : Point;
  sol_disp0 : RealVectorValue;
  sol_disp1 : RealVectorValue;
  sol_rot0 : RealVectorValue;
  sol_rot1 : RealVectorValue;
  sol_old_disp0 : RealVectorValue;
  sol_old_disp1 : RealVectorValue;
  sol_old_rot0 : RealVectorValue;
  sol_old_rot1 : RealVectorValue;
  increments_before : NodalIncrements;
  kinematics_before : LocalKinematics;
  element_local_config : RankTwoTensor;      (* _original_local_config *)
  element_stiffness_property : RealVectorValue;  (* _material_stiffness[0] *)
  element_time : R;
  currentlyComputingJacobian : bool;
  points : list QpData
}.

(** What [computeProperties] writes. *)
Record ElementOutput : Type := {
  out_original_length : R;
  out_increments : NodalIncrements;
  out_total_rotation : RankTwoTensor;
  out_initial_rotation : RankTwoTensor;
  out_points : list QpOutput;
  out_blocks : option StiffnessBlocks       (* None: left untouched *)
}.

Section ElementCall.

Variable b : LayeredBeam.
Variable e : ElementInput.

(** [_original_length[0]]: the norm of [dxyz], whose first [_ndisp]
    components are set. *)
Definition dxyz : RealVectorValue :=
  assign_from 0 (ndisp b)
    (fun i => component (node1 e) i - component (node0 e) i) zero_vector.

Definition element_length : R := norm dxyz.

(** The loop over the coupled components that fills the nodal increments. *)
Definition nodal_increments : NodalIncrements :=
  let m := increments_before e in
  {| m_disp0 := assign_from 0 (ndisp b)
       (fun i => component (sol_disp0 e) i - component (sol_old_disp0 e) i)
       (m_disp0 m);
     m_disp1 := assign_from 0 (ndisp b)
       (fun i => component (sol_disp1 e) i - component (sol_old_disp1 e) i)
       (m_disp1 m);
     m_rot0 := assign_from 0 (ndisp b)
       (fun i => component (sol_rot0 e) i - component (sol_old_rot0 e) i)
       (m_rot0 m);
     m_rot1 := assign_from 0 (ndisp b)
       (fun i => component (sol_rot1 e) i - component (sol_old_rot1 e) i)
       (m_rot1 m) |}.

(** [LayeredBeam::computeRotation]. *)
Definition computeRotation : RankTwoTensor := element_local_config e.

(** What [computeQpStrain] sees at quadrature point [k]. *)
Definition qp_input (k : nat) (d : QpData) : QpInput :=
  {| qp := k;
     original_length := element_length;
     total_rotation := computeRotation;
     disp0 := m_disp0 nodal_increments;
     disp1 := m_disp1 nodal_increments;
     rot0 := m_rot0 nodal_increments;
     rot1 := m_rot1 nodal_increments;
     total_disp_strain_old := d_total_disp_strain_old d;
     total_rot_strain_old := d_total_rot_strain_old d;
     eigenstrains := d_eigenstrains d;
     material_stiffness := element_stiffness_property e;
     material_flexure := d_material_flexure d;
     time := element_time e;
     q_point := d_q_point d;
     layers_old := d_layers_old d;
     stres_entry := d_stres_entry d |}.

(** [for (_qp = 0; _qp < _qrule->n_points(); ++_qp) computeQpStrain();],
    entered at [_qp = k]. *)
Fixpoint quadrature_loop (k : nat) (ds : list QpData) : exec (list QpOutput) :=
  match ds with
  | [] => Done []
  | d :: ds' =>
      o <- computeQpStrain b (qp_input k d) ;;
      os <- quadrature_loop (S k) ds' ;;
      Done (o :: os)
  end.

(** The local kinematic vectors after the loop: those the last quadrature
    point wrote, or the ones found when there is no point. *)
Definition kinematics_after (os : list QpOutput) : LocalKinematics :=
  fold_left
    (fun _ o => {| k_grad_disp := grad_disp_0_local_t o;
                   k_grad_rot := grad_rot_0_local_t o;
                   k_avg_rot := avg_rot_local_t o |})
    os (kinematics_before e).

(** [LayeredBeam::computeProperties]. *)
Definition computeProperties : exec ElementOutput :=
  os <- quadrature_loop 0 (points e) ;;
  let kin := kinematics_after os in
  Done {| out_original_length := element_length;
          out_increments := nodal_increments;
          out_total_rotation := computeRotation;
          out_initial_rotation := element_local_config e;
          out_points := os;
          out_blocks :=
            if currentlyComputingJacobian e then
              Some (computeStiffnessMatrix b (element_stiffness_property e)
                      element_length computeRotation
                      (k_grad_disp kin) (k_grad_rot kin) (k_avg_rot kin))
            else None |}.

End ElementCall.

(** ** Further example configurations *)

(** The scenario's section without hardening (the default hardening
    constant). *)
Definition perfectly_plastic : InputParameters :=
  section_parameters 10 200 0 None None false 0.

(** The beam [b] with another absolute tolerance. *)
Definition with_absolute_tolerance (t : R) (b : LayeredBeam) : LayeredBeam :=
  {| has_Ix := has_Ix b;
     nrot := nrot b;
     ndisp := ndisp b;
     nlayers := nlayers b;
     area := area b;
     width := width b;
     depth := depth b;
     Ay := Ay b;
     Az := Az b;
     Iy := Iy b;
     Iz := Iz b;
     Ix := Ix b;
     large_strain := large_strain b;
     prefactor_function := prefactor_function b;
     yield_stress := yield_stress b;
     hardening_constant := hardening_constant b;
     hardening_function := hardening_function b;
     absolute_tolerance := t;
     relative_tolerance := relative_tolerance b;
     max_its := max_its b |}.

(** A straight stress-strain curve [f0 + k * x] with its derivative, and
    the scenario's section with the curve [200 + 1e3 * x]. *)
Definition affine_curve (f0 k : R) : Function :=
  {| value := fun x _ => f0 + k * x; timeDerivative := fun _ _ => k |}.

Definition with_affine_curve : InputParameters :=
  section_parameters 10 200 0 (Some (affine_curve 200 1e3)) None false 0.

(** The scenario's section as a single layer, and without any layer. *)
Definition single_layer : InputParameters :=
  section_parameters 1 200 1e3 None None false 0.

Definition no_layer : InputParameters :=
  section_parameters 0 200 1e3 None None false 0.

(** ** Further reference definitions *)

(** Scalar and vector product, and the zero tensor. *)
Definition dot (u v : RealVectorValue) : R :=
  c0 u * c0 v + c1 u * c1 v + c2 u * c2 v.

Definition cross (u v : RealVectorValue) : RealVectorValue :=
  Vec (c1 u * c2 v - c2 u * c1 v)
      (c2 u * c0 v - c0 u * c2 v)
      (c0 u * c1 v - c1 u * c0 v).

Definition zero_tensor : RankTwoTensor := Tensor 0 0 0 0 0 0 0 0 0.

(** The rows of a frame: the beam axis, the y and the z direction. *)
Definition axis_of (m : RankTwoTensor) : RealVectorValue :=
  Vec (t00 m) (t01 m) (t02 m).
Definition y_of (m : RankTwoTensor) : RealVectorValue :=
  Vec (t10 m) (t11 m) (t12 m).
Definition z_of (m : RankTwoTensor) : RealVectorValue :=
  Vec (t20 m) (t21 m) (t22 m).

(** The sum of the increments of the named eigenstrains: displacement and
    rotational part, in global coordinates. *)
Definition eigen_increment (es : list Eigenstrain)
    : RealVectorValue * RealVectorValue :=
  fold_right
    (fun e acc =>
       (vadd (vsub (disp_eigenstrain e) (disp_eigenstrain_old e)) (fst acc),
        vadd (vsub (rot_eigenstrain e) (rot_eigenstrain_old e)) (snd acc)))
    (zero_vector, zero_vector) es.

(** The input [q] with other eigenstrains. *)
Definition with_eigenstrains (es : list Eigenstrain) (q : QpInput) : QpInput :=
  {| qp := qp q;
     original_length := original_length q;
     total_rotation := total_rotation q;
     disp0 := disp0 q;
     disp1 := disp1 q;
     rot0 := rot0 q;
     rot1 := rot1 q;
     total_disp_strain_old := total_disp_strain_old q;
     total_rot_strain_old := total_rot_strain_old q;
     eigenstrains := es;
     material_stiffness := material_stiffness q;
     material_flexure := material_flexure q;
     time := time q;
     q_point := q_point q;
     layers_old := layers_old q;
     stres_entry := stres_entry q |}.

(** A unit beam along the global axes whose nodes are displaced by [d0]
    and [d1] and rotated by [r0] and [r1]; no eigenstrains, layers in their
    initial state. *)
Definition moved_beam (d0 d1 r0 r1 : RealVectorValue) : QpInput :=
  {| qp := 0;
     original_length := 1;
     total_rotation := identity;
     disp0 := d0;
     disp1 := d1;
     rot0 := r0;
     rot1 := r1;
     total_disp_strain_old := zero_vector;
     total_rot_strain_old := zero_vector;
     eigenstrains := [];
     material_stiffness := Vec 2e5 8e4 8e4;
     material_flexure := Vec 2e5 2e5 2e5;
     time := 0;
     q_point := zero_vector;
     layers_old := fun _ => virgin;
     stres_entry := 0 |}.

(** A thermal-like eigenstrain that grew from nothing to [v] (displacement
    part) without a rotational part. *)
Definition grown_eigenstrain (v : RealVectorValue) : Eigenstrain :=
  {| disp_eigenstrain := v;
     disp_eigenstrain_old := zero_vector;
     rot_eigenstrain := zero_vector;
     rot_eigenstrain_old := zero_vector |}.

(** The input [q] with all four nodal increments multiplied by [k]. *)
Definition scaled_motion (k : R) (q : QpInput) : QpInput :=
  {| qp := qp q;
     original_length := original_length q;
     total_rotation := total_rotation q;
     disp0 := vscale k (disp0 q);
     disp1 := vscale k (disp1 q);
     rot0 := vscale k (rot0 q);
     rot1 := vscale k (rot1 q);
     total_disp_strain_old := total_disp_strain_old q;
     total_rot_strain_old := total_rot_strain_old q;
     eigenstrains := eigenstrains q;
     material_stiffness := material_stiffness q;
     material_flexure := material_flexure q;
     time := time q;
     q_point := q_point q;
     layers_old := layers_old q;
     stres_entry := stres_entry q |}.

(** A layer state with stress and plastic strain reversed. *)
Definition mirrored (l : LayerState) : LayerState :=
  Layer (- direct_stress l) (- plastic_strain l) (hardening_variable l).

(** A quadrature point in its initial state, and an element of unit length
    along the global x axis with two such points: the old solution is zero,
    the current one is zero but for the rotation [r] at node 1. *)
Definition initial_point : QpData :=
  {| d_total_disp_strain_old := zero_vector;
     d_total_rot_strain_old := zero_vector;
     d_eigenstrains := [];
     d_material_flexure := Vec 2e5 2e5 2e5;
     d_q_point := zero_vector;
     d_layers_old := fun _ => virgin;
     d_stres_entry := 0 |}.

Definition no_increments : NodalIncrements :=
  {| m_disp0 := zero_vector; m_disp1 := zero_vector;
     m_rot0 := zero_vector; m_rot1 := zero_vector |}.

Definition unit_element (r : RealVectorValue) (jacobian : bool) : ElementInput :=
  {| node0 := zero_vector;
     node1 := Vec 1 0 0;
     sol_disp0 := zero_vector;
     sol_disp1 := zero_vector;
     sol_rot0 := zero_vector;
     sol_rot1 := r;
     sol_old_disp0 := zero_vector;
     sol_old_disp1 := zero_vector;
     sol_old_rot0 := zero_vector;
     sol_old_rot1 := zero_vector;
     increments_before := no_increments;
     kinematics_before :=
       {| k_grad_disp := zero_vector; k_grad_rot := zero_vector;
          k_avg_rot := zero_vector |};
     element_local_config := identity;
     element_stiffness_property := Vec 2e5 8e4 8e4;
     element_time := 0;
     currentlyComputingJacobian := jacobian;
     points := [initial_point; initial_point] |}.

(** ** Reference definitions for the large-strain terms *)





(** ** The return mapping in binary64 arithmetic

    The return mapping of one layer once more, lines 733 to 791 with the
    two hardening functions, this time with [Real] as the IEEE binary64
    number it is: every operation is rounded to nearest, in the order in
    which the source writes the operations, and no multiplication is fused
    with an addition.  The algorithm is that of [layer_update] above, term
    for term; only the number system differs.  The counter [iteration], a
    [Real] in the source, counts in [nat]: it stays far below the integers
    a double no longer represents. *)

Module Binary64.

Import PrimFloat.
#[local] Set Warnings "-inexact-float".
Local Open Scope float_scope.

(** [MathUtils::sign]. *)
Definition sign (x : float) : float := if 0 <=? x then 1 else -1.

(** The [value] and [timeDerivative] of a [Function], at the default
    [Point]. *)
Record Function : Type := {
  value : float -> float;
  timeDerivative : float -> float
}.

(** The members the return mapping reads. *)
Record LayeredBeam : Type := {
  yield_stress : float;
  hardening_constant : float;
  hardening_function : option Function;
  absolute_tolerance : float;
  relative_tolerance : float;
  max_its : nat
}.

Record LayerState : Type := Layer {
  direct_stress : float;
  plastic_strain : float;
  hardening_variable : float
}.

Section PlasticReturnMapping.

Variable b : LayeredBeam.

Definition computeHardeningValue (old : LayerState) (scalar : float) : float :=
  match hardening_function b with
  | Some f =>
      let strain_old := plastic_strain old in
      value f (abs strain_old + scalar) - yield_stress b
  | None => hardening_variable old + hardening_constant b * scalar
  end.

Definition computeHardeningDerivative (old : LayerState) (scalar : float)
    : float :=
  match hardening_function b with
  | Some f =>
      let strain_old := plastic_strain old in
      timeDerivative f (abs strain_old)
  | None => hardening_constant b
  end.

Record NewtonState : Type := Newton {
  plastic_strain_increment : float;
  hardening : float;
  residual : float;
  reference_residual : float;
  iteration : nat
}.

Definition newton_init (flexure trial_stress : float) (old : LayerState)
    : NewtonState :=
  let hardening_variable := hardening_variable old in
  let plastic_strain_increment := 0 in
  {| plastic_strain_increment := plastic_strain_increment;
     hardening := hardening_variable;
     residual := abs trial_stress - hardening_variable - yield_stress b -
                 flexure * plastic_strain_increment;
     reference_residual := abs trial_stress - flexure * plastic_strain_increment;
     iteration := 0 |}.

(** The condition of the [while].  Both comparisons are ordered: they are
    false when an operand is a NaN. *)
Definition loop_condition (st : NewtonState) : bool :=
  (absolute_tolerance b <? abs (residual st)) ||
  (relative_tolerance b <? abs (residual st / reference_residual st)).

Definition newton_body (flexure trial_stress : float) (old : LayerState)
    (st : NewtonState) : NewtonState :=
  let hardening_variable :=
    computeHardeningValue old (plastic_strain_increment st) in
  let hardening_slope :=
    computeHardeningDerivative old (plastic_strain_increment st) in
  let scalar :=
    (abs trial_stress - hardening_variable - yield_stress b -
     flexure * plastic_strain_increment st) / (flexure + hardening_slope) in
  let plastic_strain_increment := plastic_strain_increment st + scalar in
  {| plastic_strain_increment := plastic_strain_increment;
     hardening := hardening_variable;
     residual := abs trial_stress - hardening_variable - yield_stress b -
                 flexure * plastic_strain_increment;
     reference_residual := abs trial_stress - flexure * plastic_strain_increment;
     iteration := S (iteration st) |}.

Fixpoint newton_loop (fuel : nat) (flexure trial_stress : float)
    (old : LayerState) (st : NewtonState) : exec NewtonState :=
  if loop_condition st then
    match fuel with
    | O => Fuel
    | S fuel' =>
        let st' := newton_body flexure trial_stress old st in
        if (max_its b <? iteration st')%nat
        then Throw (MooseException "LayeredBeam: Plasticity model did not converge")
        else newton_loop fuel' flexure trial_stress old st'
    end
  else Done st.

Definition newton_solve (flexure trial_stress : float) (old : LayerState)
    : exec NewtonState :=
  newton_loop (S (max_its b)) flexure trial_stress old
              (newton_init flexure trial_stress old).

Definition layer_update (flexure strain_increment zmidl : float)
    (old : LayerState) : exec LayerState :=
  let trial_stress := direct_stress old + flexure * strain_increment * zmidl in
  let hardening_variable := hardening_variable old in
  let plastic_strain := plastic_strain old in
  let yield_condition := abs trial_stress - hardening_variable - yield_stress b in
  let elastic_strain_increment := strain_increment * zmidl in
  if 0 <? yield_condition then
    st <- newton_solve flexure trial_stress old ;;
    let plastic_strain_increment :=
      plastic_strain_increment st * sign trial_stress in
    let plastic_strain := plastic_strain + plastic_strain_increment in
    let elastic_strain_increment :=
      strain_increment * zmidl - plastic_strain_increment in
    Done {| direct_stress := direct_stress old + elastic_strain_increment * flexure;
            plastic_strain := plastic_strain;
            hardening_variable := hardening st |}
  else
    Done {| direct_stress := direct_stress old + elastic_strain_increment * flexure;
            plastic_strain := plastic_strain;
            hardening_variable := hardening_variable |}.

End PlasticReturnMapping.

(** The plasticity parameters with the default tolerances and cap of
    [validParams]. *)
Definition plasticity (yield hardening : float) (curve : option Function)
    : LayeredBeam :=
  {| yield_stress := yield;
     hardening_constant := hardening;
     hardening_function := curve;
     absolute_tolerance := 1e-10;
     relative_tolerance := 1e-8;
     max_its := 1000 |}.

Definition virgin : LayerState := Layer 0 0 0.

(** The hardening line [f0 + k * x] with its derivative. *)
Definition affine_curve (f0 k : float) : Function :=
  {| value := fun x => f0 + k * x; timeDerivative := fun _ => k |}.

(** The plasticity parameters of [scenario]: yield stress 200, hardening
    constant 1e3, for a modulus of 2e5. *)
Definition scenario : LayeredBeam := plasticity 200 1e3 None.

(** A steel section in SI units: yield stress 2.5e8, hardening constant
    1e9, for a modulus of 2e11. *)
Definition steel : LayeredBeam := plasticity 2.5e8 1e9 None.

(** The same steel without hardening, and with the hardening line
    [2.5e8 + 1e9 * x]. *)
Definition steel_perfectly_plastic : LayeredBeam := plasticity 2.5e8 0 None.
Definition steel_with_curve : LayeredBeam :=
  plasticity 2.5e8 0 (Some (affine_curve 2.5e8 1e9)).

(** Moduli and trial stresses of the examples. *)
Definition scenario_modulus : float := 2e5.
Definition scenario_trial : float := -360.
Definition steel_modulus : float := 2e11.
Definition steel_trial : float := 3e8.
Definition steel_trial_near_yield : float := -2.52e8.

(** The offset of the first layer as lines 716 to 731 compute it, for the
    section of the examples (depth 0.2, ten layers), and three
    curvatures. *)
Definition first_offset (depth nlayers : float) : float :=
  let zmidl := -0.5 * depth in
  let thick := depth / nlayers in
  zmidl + thick / 2.
Definition outer_offset : float := first_offset 0.2 10.
Definition scenario_curvature : float := 0.02.
Definition steel_curvature : float := 0.014.
Definition steel_large_curvature : float := 0.2.

End Binary64.

(** The steel section of [Binary64.steel] over the reals. *)
Definition steel : InputParameters :=
  section_parameters 10 2.5e8 1e9 None None false 0.


(** * Facts *)

Lemma Rgtb_true_iff (x y : R) : Rgtb x y = true <-> x > y.
Proof.
  unfold Rgtb. destruct (Rgt_dec x y); split; intros; try easy; lra.
Qed.

Lemma Rgtb_false_iff (x y : R) : Rgtb x y = false <-> x <= y.
Proof.
  unfold Rgtb. destruct (Rgt_dec x y); split; intros; try easy; lra.
Qed.

Lemma abs_quotient_gt_false_iff (x y tol : R) :
  abs_quotient_gt x y tol = false <->
  (y <> 0 /\ Rabs (x / y) <= tol) \/ (y = 0 /\ x = 0).
Proof.
  unfold abs_quotient_gt.
  destruct (Req_dec_T y 0) as [Hy | Hy].
  - destruct (Req_dec_T x 0) as [Hx | Hx]; split; intros H; auto;
      try discriminate; destruct H as [[H _] | [_ H]]; contradiction.
  - rewrite Rgtb_false_iff. split; intros H; auto.
    destruct H as [[_ H] | [H _]]; [assumption | contradiction].
Qed.

Lemma loop_condition_false_iff (b : LayeredBeam) (st : NewtonState) :
  loop_condition b st = false <-> both_tolerances_met b st.
Proof.
  unfold loop_condition, both_tolerances_met.
  rewrite orb_false_iff, Rgtb_false_iff, abs_quotient_gt_false_iff. tauto.
Qed.

Lemma loop_condition_true_iff (b : LayeredBeam) (st : NewtonState) :
  loop_condition b st = true <-> ~ both_tolerances_met b st.
Proof.
  rewrite <- loop_condition_false_iff.
  destruct (loop_condition b st); split; intros H; easy.
Qed.

Section NewtonFacts.

Variable b : LayeredBeam.
Variables flexure trial_stress : R.
Variable old : LayerState.

Let iter (k : nat) : NewtonState := newton_iterate b k flexure trial_stress old.
Let nonconvergence : exception :=
  MooseException "LayeredBeam: Plasticity model did not converge".

Lemma iteration_newton_iterate (k : nat) : iteration (iter k) = k.
Proof.
  induction k as [| k IH]; simpl; [reflexivity |].
  unfold iter in IH. rewrite IH. reflexivity.
Qed.

(** The loop, entered at iterate [k] with enough fuel to reach the cap,
    either returns the first later iterate at which the condition fails or
    throws when no iterate up to the cap makes it fail. *)
Lemma newton_loop_outcome (fuel k : nat) :
  (k <= max_its b)%nat -> (k + fuel = S (max_its b))%nat ->
  (exists j, (k <= j <= max_its b)%nat /\
             newton_loop b fuel flexure trial_stress old (iter k) = Done (iter j) /\
             loop_condition b (iter j) = false /\
             forall i, (k <= i < j)%nat -> loop_condition b (iter i) = true) \/
  (newton_loop b fuel flexure trial_stress old (iter k) = Throw nonconvergence /\
   forall i, (k <= i <= max_its b)%nat -> loop_condition b (iter i) = true).
Proof.
  revert k. induction fuel as [| fuel IH]; intros k Hk Hfuel; [lia |].
  simpl newton_loop.
  destruct (loop_condition b (iter k)) eqn:Hc.
  - change (newton_body b flexure trial_stress old (iter k)) with (iter (S k)).
    rewrite iteration_newton_iterate.
    destruct (Nat.ltb_spec (max_its b) (S k)) as [Hcap | Hcap].
    + right. split; [reflexivity |]. intros i Hi.
      assert (i = k) by lia. subst i. exact Hc.
    + destruct (IH (S k)) as [[j [Hj [Hrun [Hstop Hbefore]]]] | [Hrun Hall]];
        try lia.
      * left. exists j. repeat split; try lia; try assumption.
        intros i Hi. destruct (Nat.eq_dec i k) as [-> | Hne];
          [exact Hc | apply Hbefore; lia].
      * right. split; [exact Hrun |]. intros i Hi.
        destruct (Nat.eq_dec i k) as [-> | Hne]; [exact Hc | apply Hall; lia].
  - left. exists k. split; [lia |]. split; [reflexivity |].
    split; [exact Hc |]. intros i Hi. lia.
Qed.

Lemma newton_solve_outcome :
  (exists j, (j <= max_its b)%nat /\
             newton_solve b flexure trial_stress old = Done (iter j) /\
             loop_condition b (iter j) = false /\
             forall i, (i < j)%nat -> loop_condition b (iter i) = true) \/
  (newton_solve b flexure trial_stress old = Throw nonconvergence /\
   forall i, (i <= max_its b)%nat -> loop_condition b (iter i) = true).
Proof.
  destruct (newton_loop_outcome (S (max_its b)) 0) as [[j [Hj H]] | [Hrun Hall]];
    try lia.
  - left. exists j. split; [lia |]. destruct H as [Hrun [Hstop Hbefore]].
    repeat split; try assumption. intros i Hi. apply Hbefore. lia.
  - right. split; [exact Hrun |]. intros i Hi. apply Hall. lia.
Qed.

(** The solve returns the first iterate, within the cap, at which the loop
    condition fails. *)
Lemma newton_solve_first (k : nat) :
  (k <= max_its b)%nat ->
  loop_condition b (iter k) = false ->
  (forall i, (i < k)%nat -> loop_condition b (iter i) = true) ->
  newton_solve b flexure trial_stress old = Done (iter k).
Proof.
  intros Hk Hstop Hbefore.
  destruct newton_solve_outcome as [[j [Hj [Hrun [Hstopj Hbeforej]]]] | [_ Hall]].
  - destruct (Nat.lt_trichotomy j k) as [Hlt | [-> | Hgt]].
    + rewrite (Hbefore j Hlt) in Hstopj. discriminate.
    + exact Hrun.
    + rewrite (Hbeforej k Hgt) in Hstop. discriminate.
  - rewrite (Hall k Hk) in Hstop. discriminate.
Qed.

End NewtonFacts.

Lemma Rabs_le_iff (x y : R) : Rabs x <= y <-> - y <= x <= y.
Proof. unfold Rabs. destruct (Rcase_abs x); lra. Qed.

Lemma Rabs_gt_iff (x y : R) : Rabs x > y <-> x < - y \/ y < x.
Proof. unfold Rabs. destruct (Rcase_abs x); lra. Qed.

(** Reduce the field projections of a configuration or state that has been
    unfolded to its record, leaving the real arithmetic as written. *)
Ltac beam_fields :=
  cbn [members virgin
       has_Ix nrot ndisp nlayers area width depth Ay Az Iy Iz Ix large_strain
       prefactor_function yield_stress hardening_constant hardening_function
       absolute_tolerance relative_tolerance max_its
       p_rotations p_displacements p_num_layers p_area p_width p_depth p_Ay
       p_Az p_Ix p_Iy p_Iz p_large_strain p_elasticity_prefactor
       p_yield_stress p_hardening_constant p_hardening_function
       p_absolute_tolerance p_relative_tolerance
       direct_stress plastic_strain hardening_variable
       plastic_strain_increment hardening residual reference_residual
       iteration] in *.

(** The same for the example configuration [c]. *)
Ltac fields_of c :=
  unfold c, section_parameters, constant in *; beam_fields.

Lemma newton_solve_done (b : LayeredBeam) (flexure trial_stress : R)
    (old : LayerState) (st : NewtonState) :
  newton_solve b flexure trial_stress old = Done st ->
  loop_condition b st = false /\ (iteration st <= max_its b)%nat /\
  exists k, st = newton_iterate b k flexure trial_stress old /\
            forall i, (i < k)%nat ->
              loop_condition b (newton_iterate b i flexure trial_stress old) = true.
Proof.
  intros Hrun.
  destruct (newton_solve_outcome b flexure trial_stress old)
    as [[j [Hj [Hdone [Hstop Hbefore]]]] | [Hthrow _]].
  - rewrite Hrun in Hdone. injection Hdone as ->.
    rewrite iteration_newton_iterate. repeat split; try assumption.
    exists j. split; [reflexivity | assumption].
  - rewrite Hrun in Hthrow. discriminate.
Qed.

Section LinearHardening.

Variable b : LayeredBeam.
Variables flexure trial_stress : R.
Variable old : LayerState.
Hypothesis linear : hardening_function b = None.
Hypothesis denominator : flexure + hardening_constant b <> 0.

Let iter (k : nat) : NewtonState := newton_iterate b k flexure trial_stress old.
Let closed : R := closed_form_increment b flexure trial_stress old.

(** After one pass the increment is the closed form; the residual still
    carries the hardening value computed before the update. *)
Lemma linear_iterate_1 :
  plastic_strain_increment (iter 1) = closed /\
  hardening (iter 1) = hardening_variable old /\
  residual (iter 1) =
    Rabs trial_stress - hardening_variable old - yield_stress b - flexure * closed /\
  reference_residual (iter 1) = Rabs trial_stress - flexure * closed.
Proof.
  unfold iter, closed, closed_form_increment. simpl newton_iterate.
  unfold newton_body, computeHardeningValue, computeHardeningDerivative,
    newton_init.
  rewrite linear.
  cbn [plastic_strain_increment hardening residual reference_residual].
  repeat split; try ring; field; assumption.
Qed.

(** The second pass leaves the increment where it is and zeroes the
    residual. *)
Lemma linear_iterate_2 :
  plastic_strain_increment (iter 2) = closed /\
  hardening (iter 2) = hardening_variable old + hardening_constant b * closed /\
  residual (iter 2) = 0 /\
  reference_residual (iter 2) = Rabs trial_stress - flexure * closed.
Proof.
  unfold iter, closed, closed_form_increment. simpl newton_iterate.
  unfold newton_body, computeHardeningValue, computeHardeningDerivative,
    newton_init.
  rewrite linear.
  cbn [plastic_strain_increment hardening residual reference_residual].
  repeat split; try ring; field; assumption.
Qed.

Lemma linear_iterate_2_stops :
  0 <= absolute_tolerance b -> 0 <= relative_tolerance b ->
  loop_condition b (iter 2) = false.
Proof.
  intros Habs Hrel. apply loop_condition_false_iff.
  destruct linear_iterate_2 as [_ [_ [Hres _]]].
  unfold both_tolerances_met. rewrite Hres. split.
  - rewrite Rabs_R0. exact Habs.
  - destruct (Req_dec_T (reference_residual (iter 2)) 0) as [Hz | Hnz].
    + right. split; [exact Hz | reflexivity].
    + left. split; [exact Hnz |].
      unfold Rdiv. rewrite Rmult_0_l, Rabs_R0. exact Hrel.
Qed.

(** A pass made at the closed-form increment leaves the increment where it
    is, whatever the tests of the loop made of the state before. *)
Lemma linear_pass_at_closed_form (st : NewtonState) :
  plastic_strain_increment st = closed ->
  plastic_strain_increment (newton_body b flexure trial_stress old st) = closed /\
  hardening (newton_body b flexure trial_stress old st) =
    hardening_variable old + hardening_constant b * closed /\
  residual (newton_body b flexure trial_stress old st) = 0 /\
  reference_residual (newton_body b flexure trial_stress old st) =
    Rabs trial_stress - flexure * closed.
Proof.
  intros Hdp.
  unfold newton_body, computeHardeningValue, computeHardeningDerivative.
  rewrite linear, Hdp.
  cbn [plastic_strain_increment hardening residual reference_residual].
  unfold closed, closed_form_increment.
  repeat split; try ring; field; assumption.
Qed.

(** Every iterate from the first on carries the closed-form increment, and
    every iterate from the second on the hardening value that belongs to
    it. *)
Lemma linear_iterate_later (k : nat) :
  (1 <= k)%nat ->
  plastic_strain_increment (iter k) = closed /\
  reference_residual (iter k) = Rabs trial_stress - flexure * closed /\
  ((2 <= k)%nat ->
   hardening (iter k) = hardening_variable old + hardening_constant b * closed /\
   residual (iter k) = 0).
Proof.
  induction k as [| k IH]; intros Hk; [lia |].
  destruct k as [| k].
  - destruct linear_iterate_1 as [Hdp [_ [_ Href]]].
    split; [exact Hdp |]. split; [exact Href |]. intros H2. lia.
  - destruct IH as [Hdp _]; [lia |].
    destruct (linear_pass_at_closed_form (iter (S k)) Hdp)
      as [Hdp' [Hh [Hres Href]]].
    change (iter (S (S k)))
      with (newton_body b flexure trial_stress old (iter (S k))).
    split; [exact Hdp' |]. split; [exact Href |]. intros _.
    split; [exact Hh | exact Hres].
Qed.

(** The state a returning linear solve returns: the initial state when it
    meets both tolerances, and otherwise a state with the closed-form
    increment whose hardening value is the old one after one pass and the
    updated one after more. *)
Lemma linear_returned_state (st : NewtonState) :
  newton_solve b flexure trial_stress old = Done st ->
  both_tolerances_met b st /\
  ((both_tolerances_met b (newton_init b flexure trial_stress old) /\
    st = newton_init b flexure trial_stress old) \/
   (~ both_tolerances_met b (newton_init b flexure trial_stress old) /\
    (1 <= iteration st)%nat /\
    plastic_strain_increment st = closed /\
    reference_residual st = Rabs trial_stress - flexure * closed /\
    ((iteration st = 1%nat /\ hardening st = hardening_variable old /\
      residual st =
        Rabs trial_stress - hardening_variable old - yield_stress b -
        flexure * closed) \/
     ((2 <= iteration st)%nat /\
      hardening st = hardening_variable old + hardening_constant b * closed /\
      residual st = 0)))).
Proof.
  intros Hrun.
  destruct (newton_solve_done b flexure trial_stress old st Hrun)
    as [Hstop [_ [k [-> Hbefore]]]].
  apply loop_condition_false_iff in Hstop. split; [exact Hstop |].
  destruct k as [| k].
  - left. split; [exact Hstop | reflexivity].
  - right. split.
    + apply loop_condition_true_iff. apply (Hbefore 0%nat). lia.
    + rewrite iteration_newton_iterate. split; [lia |].
      destruct (linear_iterate_later (S k)) as [Hdp [Href Hlater]]; [lia |].
      split; [exact Hdp |]. split; [exact Href |].
      destruct k as [| k].
      * left. destruct linear_iterate_1 as [_ [Hh [Hres _]]].
        split; [reflexivity |]. split; [exact Hh | exact Hres].
      * right. split; [lia |]. apply Hlater. lia.
Qed.

End LinearHardening.

(** A solve returns or throws the non-convergence exception; it returns as
    soon as an iterate within the cap meets both tolerances, and throws when
    none does. *)
Lemma newton_solve_returns_or_throws (b : LayeredBeam) (flexure trial_stress : R)
    (old : LayerState) :
  ((exists k, (k <= max_its b)%nat /\
      both_tolerances_met b (newton_iterate b k flexure trial_stress old)) ->
   exists st, newton_solve b flexure trial_stress old = Done st) /\
  ((forall k, (k <= max_its b)%nat ->
      ~ both_tolerances_met b (newton_iterate b k flexure trial_stress old)) ->
   newton_solve b flexure trial_stress old =
     Throw (MooseException "LayeredBeam: Plasticity model did not converge")).
Proof.
  destruct (newton_solve_outcome b flexure trial_stress old)
    as [[j [Hj [Hrun [Hstop _]]]] | [Hrun Hall]].
  - split.
    + intros _. eexists. exact Hrun.
    + intros Hnone. exfalso. apply (Hnone j Hj).
      apply loop_condition_false_iff. exact Hstop.
  - split.
    + intros [k [Hk Hmet]]. exfalso.
      apply loop_condition_false_iff in Hmet. rewrite (Hall k Hk) in Hmet.
      discriminate.
    + intros _. exact Hrun.
Qed.

(** ** C1: when the Newton loop stops *)

(** At the scenario's parameters with a trial stress of [200 + 1e-6] the
    initial residual meets the relative tolerance but not the absolute one. *)
Lemma scenario_first_check :
  let b := members scenario in
  let st := newton_init b 2e5 (200 + 1e-6) virgin in
  Rabs (residual st / reference_residual st) <= relative_tolerance b /\
  loop_condition b st = true.
Proof.
  intros b st. unfold st, b, newton_init, loop_condition. fields_of scenario.
  rewrite (Rabs_pos_eq (200 + 1e-6)) by lra. split.
  - rewrite Rabs_le_iff. lra.
  - apply orb_true_iff. left. apply Rgtb_true_iff. rewrite Rabs_gt_iff. lra.
Qed.

(** C1, counterexample: the relative tolerance alone is met on entry
    (trial stress [200 + 1e-6], yield stress 200, default tolerances), yet
    the loop condition holds and the solve does not return the entry state. *)
Lemma C1_relative_tolerance_alone_does_not_stop :
  let b := members scenario in
  let st := newton_init b 2e5 (200 + 1e-6) virgin in
  Rabs (200 + 1e-6) - hardening_variable virgin - yield_stress b > 0 /\
  Rabs (residual st / reference_residual st) <= relative_tolerance b /\
  loop_condition b st = true /\
  newton_solve b 2e5 (200 + 1e-6) virgin <> Done st.
Proof.
  intros b st. destruct scenario_first_check as [Hrel Hcond].
  split; [| split; [exact Hrel | split; [exact Hcond |]]].
  - unfold b. fields_of scenario. rewrite (Rabs_pos_eq (200 + 1e-6)) by lra. lra.
  - intros Hrun. apply newton_solve_done in Hrun. destruct Hrun as [Hstop _].
    fold b st in Hcond. rewrite Hcond in Hstop. discriminate.
Qed.

(** C1, as amended: the Newton iteration stops at the first iterate at which
    the absolute and the relative tolerance are both met; while either is
    exceeded it goes on. *)
Theorem C1_newton_stops_when_both_tolerances_met
    (b : LayeredBeam) (flexure trial_stress : R) (old : LayerState) (k : nat) :
  (k <= max_its b)%nat ->
  both_tolerances_met b (newton_iterate b k flexure trial_stress old) ->
  (forall i, (i < k)%nat ->
     ~ both_tolerances_met b (newton_iterate b i flexure trial_stress old)) ->
  newton_solve b flexure trial_stress old =
    Done (newton_iterate b k flexure trial_stress old).
Proof.
  intros Hk Hmet Hbefore. apply newton_solve_first.
  - exact Hk.
  - apply loop_condition_false_iff. exact Hmet.
  - intros i Hi. apply loop_condition_true_iff. apply Hbefore. exact Hi.
Qed.

Lemma scenario_second_check :
  let b := members scenario in
  ~ both_tolerances_met b (newton_iterate b 1 2e5 (200 + 1e-6) virgin).
Proof.
  intros b [Habs _].
  assert (Hlin : hardening_function b = None) by reflexivity.
  assert (Hden : 2e5 + hardening_constant b <> 0) by (unfold b; fields_of scenario; lra).
  destruct (linear_iterate_1 b 2e5 (200 + 1e-6) virgin Hlin Hden)
    as [_ [_ [Hres _]]].
  rewrite Hres in Habs. unfold closed_form_increment, b in Habs. fields_of scenario.
  rewrite (Rabs_pos_eq (200 + 1e-6)) in Habs by lra.
  rewrite Rabs_le_iff in Habs. lra.
Qed.

Lemma scenario_third_check :
  let b := members scenario in
  both_tolerances_met b (newton_iterate b 2 2e5 (200 + 1e-6) virgin).
Proof.
  intros b. apply loop_condition_false_iff.
  apply linear_iterate_2_stops.
  - reflexivity.
  - unfold b; fields_of scenario; lra.
  - unfold b; fields_of scenario; lra.
  - unfold b; fields_of scenario; lra.
Qed.

(** C1, instance: at the scenario's parameters with trial stress
    [200 + 1e-6] the first two states miss the absolute tolerance and the
    solve returns the third. *)
Lemma C1_witness :
  let b := members scenario in
  newton_solve b 2e5 (200 + 1e-6) virgin =
    Done (newton_iterate b 2 2e5 (200 + 1e-6) virgin).
Proof.
  intros b. apply C1_newton_stops_when_both_tolerances_met.
  - unfold b. fields_of scenario. lia.
  - exact scenario_third_check.
  - intros i Hi. destruct i as [| [| i]].
    + apply loop_condition_true_iff. apply scenario_first_check.
    + exact scenario_second_check.
    + lia.
Defined.

(** ** C3: the closed-form increment under linear hardening *)

(** C3, counterexample: with the scenario's linear hardening and a trial
    stress of [200 + 1e-11] the yield condition is exceeded, but both
    tolerances are met on entry, no pass is made and the increment is [0]
    instead of the closed form. *)
Lemma C3_yield_within_tolerance_gives_zero_increment :
  let b := members scenario in
  hardening_function b = None /\
  Rabs (200 + 1e-11) - hardening_variable virgin - yield_stress b > 0 /\
  exists st, newton_solve b 2e5 (200 + 1e-11) virgin = Done st /\
             plastic_strain_increment st = 0 /\
             plastic_strain_increment st <>
               closed_form_increment b 2e5 (200 + 1e-11) virgin.
Proof.
  intros b. split; [reflexivity | split].
  - unfold b. fields_of scenario. rewrite (Rabs_pos_eq (200 + 1e-11)) by lra. lra.
  - exists (newton_iterate b 0 2e5 (200 + 1e-11) virgin). split; [| split].
    + apply newton_solve_first; [unfold b; fields_of scenario; lia | | intros i Hi; lia].
      apply loop_condition_false_iff. unfold both_tolerances_met, b.
      simpl newton_iterate. unfold newton_init. fields_of scenario.
      rewrite (Rabs_pos_eq (200 + 1e-11)) by lra. split.
      * rewrite Rabs_le_iff. lra.
      * left. split; [lra |]. rewrite Rabs_le_iff. lra.
    + reflexivity.
    + simpl newton_iterate. unfold newton_init, closed_form_increment, b.
      fields_of scenario. rewrite (Rabs_pos_eq (200 + 1e-11)) by lra. lra.
Qed.

(** C3, as amended: under linear hardening with [modulus + slope <> 0], for
    a layer whose trial stress exceeds the yield condition, every pass of
    the Newton loop leaves the closed-form increment
    [(|trial| - yield_stress - hardening_old) / (modulus + slope)].  A solve
    that returns has met both tolerances; it returns the increment [0],
    without a pass, when the initial residual already meets them, and the
    closed-form increment otherwise.  The solve returns when an iterate
    within the cap meets both tolerances and throws the non-convergence
    exception when none does. *)
Theorem C3_linear_hardening_closed_form
    (b : LayeredBeam) (flexure trial_stress : R) (old : LayerState) :
  hardening_function b = None ->
  flexure + hardening_constant b <> 0 ->
  Rabs trial_stress - hardening_variable old - yield_stress b > 0 ->
  (forall k, (1 <= k)%nat ->
     plastic_strain_increment (newton_iterate b k flexure trial_stress old) =
       closed_form_increment b flexure trial_stress old) /\
  (forall st, newton_solve b flexure trial_stress old = Done st ->
     both_tolerances_met b st /\
     (both_tolerances_met b (newton_init b flexure trial_stress old) ->
      iteration st = 0%nat /\ plastic_strain_increment st = 0) /\
     (~ both_tolerances_met b (newton_init b flexure trial_stress old) ->
      (1 <= iteration st)%nat /\
      plastic_strain_increment st =
        closed_form_increment b flexure trial_stress old)) /\
  ((exists k, (k <= max_its b)%nat /\
      both_tolerances_met b (newton_iterate b k flexure trial_stress old)) ->
   exists st, newton_solve b flexure trial_stress old = Done st) /\
  ((forall k, (k <= max_its b)%nat ->
      ~ both_tolerances_met b (newton_iterate b k flexure trial_stress old)) ->
   newton_solve b flexure trial_stress old =
     Throw (MooseException "LayeredBeam: Plasticity model did not converge")).
Proof.
  intros Hlin Hden Hyield. split; [| split].
  - intros k Hk.
    apply (linear_iterate_later b flexure trial_stress old Hlin Hden k Hk).
  - intros st Hrun.
    destruct (linear_returned_state b flexure trial_stress old Hlin Hden st Hrun)
      as [Hmet [[Hentry ->] | [Hentry [Hit [Hdp _]]]]].
    + split; [exact Hmet |]. split; [| intros Hnot; contradiction].
      intros _. split; reflexivity.
    + split; [exact Hmet |]. split; [intros Hin; contradiction |].
      intros _. split; [exact Hit | exact Hdp].
  - apply newton_solve_returns_or_throws.
Qed.

(** C3, instance: the scenario's parameters with trial stress
    [200 + 1e-6]: the initial residual exceeds the absolute tolerance, the
    second iterate meets both, and the solve returns the closed form. *)
Lemma C3_witness :
  let b := members scenario in
  exists st, newton_solve b 2e5 (200 + 1e-6) virgin = Done st /\
             both_tolerances_met b st /\
             plastic_strain_increment st =
               closed_form_increment b 2e5 (200 + 1e-6) virgin.
Proof.
  intros b.
  assert (Hlin : hardening_function b = None) by reflexivity.
  assert (Hden : 2e5 + hardening_constant b <> 0)
    by (unfold b; fields_of scenario; lra).
  assert (Hyield : Rabs (200 + 1e-6) - hardening_variable virgin -
                   yield_stress b > 0).
  { unfold b. fields_of scenario. rewrite (Rabs_pos_eq (200 + 1e-6)) by lra.
    lra. }
  destruct (C3_linear_hardening_closed_form b 2e5 (200 + 1e-6) virgin
              Hlin Hden Hyield) as [_ [Hret [Hruns _]]].
  destruct Hruns as [st Hrun].
  { exists 2%nat. split; [unfold b; fields_of scenario; lia |].
    apply loop_condition_false_iff.
    apply (linear_iterate_2_stops b 2e5 (200 + 1e-6) virgin Hlin Hden);
      unfold b; fields_of scenario; lra. }
  destruct (Hret st Hrun) as [Hmet [_ Hclosed]].
  exists st. split; [exact Hrun |]. split; [exact Hmet |].
  apply Hclosed. apply loop_condition_true_iff.
  exact (proj2 scenario_first_check).
Defined.

(** ** C9: the unguarded quotient of the relative test *)

(** Under linear hardening with a positive modulus, a non-negative
    hardening constant and a positive current yield strength, the reference
    residual of a yielding layer is positive at every state the loop can
    test. *)
Lemma linear_reference_positive
    (b : LayeredBeam) (flexure trial_stress : R) (old : LayerState) (k : nat) :
  hardening_function b = None ->
  0 < flexure -> 0 <= hardening_constant b ->
  0 < hardening_variable old + yield_stress b ->
  Rabs trial_stress - hardening_variable old - yield_stress b > 0 ->
  (k <= 2)%nat ->
  0 < reference_residual (newton_iterate b k flexure trial_stress old).
Proof.
  intros Hlin HE Hs Hy Hyield Hk.
  assert (Hden : flexure + hardening_constant b <> 0) by lra.
  set (c := closed_form_increment b flexure trial_stress old).
  assert (Hc : c * (flexure + hardening_constant b) =
               Rabs trial_stress - yield_stress b - hardening_variable old).
  { unfold c, closed_form_increment. field. exact Hden. }
  assert (Href : 0 < Rabs trial_stress - flexure * c).
  { apply Rmult_lt_reg_r with (flexure + hardening_constant b); [lra |].
    pose proof (Rabs_pos trial_stress). nra. }
  destruct k as [| [| [| k]]]; [| | | lia].
  - cbn [newton_iterate newton_init reference_residual]. lra.
  - destruct (linear_iterate_1 b flexure trial_stress old Hlin Hden)
      as [_ [_ [_ Hrr]]]. rewrite Hrr. exact Href.
  - destruct (linear_iterate_2 b flexure trial_stress old Hlin Hden)
      as [_ [_ [_ Hrr]]]. rewrite Hrr. exact Href.
Qed.



(** ** The layer loop *)

Lemma newton_solve_not_fuel (b : LayeredBeam) (flexure trial_stress : R)
    (old : LayerState) :
  newton_solve b flexure trial_stress old <> Fuel.
Proof.
  destruct (newton_solve_outcome b flexure trial_stress old)
    as [[j [_ [Hrun _]]] | [Hrun _]]; rewrite Hrun; discriminate.
Qed.

Lemma layer_update_not_fuel (b : LayeredBeam) (flexure strain_increment z : R)
    (old : LayerState) :
  layer_update b flexure strain_increment z old <> Fuel.
Proof.
  unfold layer_update.
  destruct (Rgtb _ 0); [| discriminate].
  pose proof (newton_solve_not_fuel b flexure
                (direct_stress old + flexure * strain_increment * z) old) as Hnf.
  destruct (newton_solve b flexure _ old); simpl; congruence.
Qed.

Lemma update_layers_not_fuel (b : LayeredBeam) (flexure strain_increment : R)
    (old : LayersOld) (n i : nat) :
  update_layers b flexure strain_increment old n i <> Fuel.
Proof.
  revert i. induction n as [| n IH]; intros i; simpl; [discriminate |].
  pose proof (layer_update_not_fuel b flexure strain_increment
                (layer_offset b i) (old i)) as Hl.
  destruct (layer_update b flexure strain_increment (layer_offset b i) (old i));
    simpl; try congruence.
  specialize (IH (S i)).
  destruct (update_layers b flexure strain_increment old n (S i));
    simpl; congruence.
Qed.

Lemma update_layers_done (b : LayeredBeam) (flexure strain_increment : R)
    (old : LayersOld) (n i : nat) (ls : list LayerState) :
  update_layers b flexure strain_increment old n i = Done ls ->
  List.length ls = n /\
  forall j, (j < n)%nat ->
    layer_update b flexure strain_increment (layer_offset b (i + j)) (old (i + j)%nat)
    = Done (nth j ls virgin).
Proof.
  revert i ls. induction n as [| n IH]; intros i ls; simpl.
  - intros H. injection H as <-. split; [reflexivity | intros j Hj; lia].
  - destruct (layer_update b flexure strain_increment (layer_offset b i) (old i))
      as [l | e |] eqn:Hl; simpl; try discriminate.
    destruct (update_layers b flexure strain_increment old n (S i))
      as [ls' | e |] eqn:Hls; simpl; try discriminate.
    intros H. injection H as <-.
    destruct (IH (S i) ls' Hls) as [Hlen Hnth]. split.
    + simpl. rewrite Hlen. reflexivity.
    + intros j Hj. destruct j as [| j].
      * rewrite Nat.add_0_r. exact Hl.
      * replace (i + S j)%nat with (S i + j)%nat by lia.
        simpl nth. apply Hnth. lia.
Qed.

Lemma update_layers_throw (b : LayeredBeam) (flexure strain_increment : R)
    (old : LayersOld) (n i : nat) (e : exception) :
  update_layers b flexure strain_increment old n i = Throw e <->
  exists j, (j < n)%nat /\
    layer_update b flexure strain_increment (layer_offset b (i + j)) (old (i + j)%nat)
    = Throw e /\
    forall j', (j' < j)%nat -> exists l,
      layer_update b flexure strain_increment (layer_offset b (i + j'))
                   (old (i + j')%nat) = Done l.
Proof.
  revert i. induction n as [| n IH]; intros i; simpl.
  - split; [discriminate | intros [j [Hj _]]; lia].
  - destruct (layer_update b flexure strain_increment (layer_offset b i) (old i))
      as [l | e' |] eqn:Hl; simpl.
    + specialize (IH (S i)).
      destruct (update_layers b flexure strain_increment old n (S i))
        as [ls' | e' |] eqn:Hls; simpl.
      * split; [discriminate |]. intros [j [Hj [Hthrow Hbefore]]].
        destruct j as [| j].
        -- rewrite Nat.add_0_r in Hthrow. congruence.
        -- assert (Hex : exists j0, (j0 < n)%nat /\
               layer_update b flexure strain_increment
                 (layer_offset b (S i + j0)) (old (S i + j0)%nat) = Throw e /\
               forall j', (j' < j0)%nat -> exists l0,
                 layer_update b flexure strain_increment
                   (layer_offset b (S i + j')) (old (S i + j')%nat) = Done l0).
           { exists j. split; [lia | split].
             - replace (S i + j)%nat with (i + S j)%nat by lia. exact Hthrow.
             - intros j' Hj'.
               replace (S i + j')%nat with (i + S j')%nat by lia.
               apply Hbefore. lia. }
           apply IH in Hex. discriminate.
      * split.
        -- intros H. injection H as ->.
           destruct (proj1 IH eq_refl) as [j [Hj [Hthrow Hbefore]]].
           exists (S j). split; [lia | split].
           ++ replace (i + S j)%nat with (S i + j)%nat by lia. exact Hthrow.
           ++ intros j' Hj'. destruct j' as [| j'].
              ** rewrite Nat.add_0_r. exists l. exact Hl.
              ** replace (i + S j')%nat with (S i + j')%nat by lia.
                 apply Hbefore. lia.
        -- intros [j [Hj [Hthrow Hbefore]]]. destruct j as [| j].
           ++ rewrite Nat.add_0_r in Hthrow. congruence.
           ++ f_equal. 
              assert (Hex : exists j0, (j0 < n)%nat /\
                layer_update b flexure strain_increment
                  (layer_offset b (S i + j0)) (old (S i + j0)%nat) = Throw e /\
                forall j', (j' < j0)%nat -> exists l0,
                  layer_update b flexure strain_increment
                    (layer_offset b (S i + j')) (old (S i + j')%nat) = Done l0).
              { exists j. split; [lia | split].
                - replace (S i + j)%nat with (i + S j)%nat by lia. exact Hthrow.
                - intros j' Hj'.
                  replace (S i + j')%nat with (i + S j')%nat by lia.
                  apply Hbefore. lia. }
              apply IH in Hex. congruence.
      * exfalso. eapply update_layers_not_fuel. exact Hls.
    + split.
      * intros H. injection H as ->. exists 0%nat. split; [lia | split].
        -- rewrite Nat.add_0_r. exact Hl.
        -- intros j' Hj'. lia.
      * intros [j [Hj [Hthrow Hbefore]]]. destruct j as [| j].
        -- rewrite Nat.add_0_r in Hthrow. congruence.
        -- destruct (Hbefore 0%nat) as [l0 Hl0]; [lia |].
           rewrite Nat.add_0_r in Hl0. congruence.
    + exfalso. eapply layer_update_not_fuel. exact Hl.
Qed.

(** The accumulating loop of the source computes what [update_layers]
    describes layer by layer: on entry to pass [i] the running offset is the
    lower edge of layer [i]. *)
Lemma layer_loop_refines (b : LayeredBeam) (flexure strain_increment : R)
    (old : LayersOld) (n i : nat) (acc : LayerLoop) :
  zmidl acc = -0.5 * depth b + INR i * layer_thickness b ->
  match update_layers b flexure strain_increment old n i with
  | Done ls =>
      exists acc',
        layer_loop b n flexure strain_increment (layer_thickness b) old i acc
        = Done acc' /\
        layers acc' = layers acc ++ ls /\
        moment acc' = moment acc + midpoint_moment b i ls /\
        stres acc' = match n with O => stres acc | S _ => moment acc' end
  | Throw e =>
      layer_loop b n flexure strain_increment (layer_thickness b) old i acc
      = Throw e
  | Fuel =>
      layer_loop b n flexure strain_increment (layer_thickness b) old i acc
      = Fuel
  end.
Proof.
  revert i acc. induction n as [| n IH]; intros i acc Hz.
  - cbn [update_layers layer_loop]. exists acc.
    rewrite app_nil_r. cbn [midpoint_moment].
    repeat split; try reflexivity. lra.
  - cbn [update_layers layer_loop]. unfold layer_step.
    assert (Hmid : zmidl acc + layer_thickness b / 2 = layer_offset b i)
      by (unfold layer_offset; lra).
    rewrite Hmid.
    destruct (layer_update b flexure strain_increment (layer_offset b i) (old i))
      as [l | e |]; cbn [bind]; try reflexivity.
    set (acc1 := {| zmidl := layer_offset b i + layer_thickness b / 2;
                    moment := moment acc + direct_stress l * width b *
                                layer_offset b i * layer_thickness b;
                    stres := moment acc + direct_stress l * width b *
                                layer_offset b i * layer_thickness b;
                    layers := layers acc ++ [l] |}).
    assert (Hz1 : zmidl acc1 = -0.5 * depth b + INR (S i) * layer_thickness b).
    { unfold acc1. cbn [zmidl]. unfold layer_offset. rewrite S_INR. lra. }
    specialize (IH (S i) acc1 Hz1).
    destruct (update_layers b flexure strain_increment old n (S i))
      as [ls | e |]; cbn [bind]; try exact IH.
    destruct IH as [acc' [Hrun [Hlayers [Hmoment Hstres]]]].
    exists acc'. split; [exact Hrun | split; [| split]].
    + rewrite Hlayers. unfold acc1. cbn [layers].
      rewrite <- app_assoc. reflexivity.
    + rewrite Hmoment. unfold acc1. cbn [moment midpoint_moment]. lra.
    + destruct n as [| n]; [| exact Hstres].
      rewrite Hstres. unfold acc1. cbn [stres].
      cbn [update_layers] in Hrun. cbn [layer_loop] in Hrun.
      injection Hrun as <-. reflexivity.
Qed.

Lemma computeQpStress_refines (b : LayeredBeam)
    (flexure total_stretch stres0 : R) (old : LayersOld) :
  match update_layers b flexure total_stretch old (nlayers b) 0 with
  | Done ls =>
      exists out,
        computeQpStress b flexure total_stretch stres0 old = Done out /\
        layers out = ls /\
        moment out = midpoint_moment b 0 ls /\
        stres out = match nlayers b with O => stres0 | S _ => moment out end
  | Throw e => computeQpStress b flexure total_stretch stres0 old = Throw e
  | Fuel => computeQpStress b flexure total_stretch stres0 old = Fuel
  end.
Proof.
  unfold computeQpStress. fold (layer_thickness b).
  pose proof (layer_loop_refines b flexure total_stretch old (nlayers b) 0
                {| zmidl := -0.5 * depth b; moment := 0; stres := stres0;
                   layers := [] |}) as H.
  cbn [zmidl moment stres layers] in H.
  assert (Hz : -0.5 * depth b = -0.5 * depth b + INR 0 * layer_thickness b)
    by (simpl INR; lra).
  specialize (H Hz).
  destruct (update_layers b flexure total_stretch old (nlayers b) 0)
    as [ls | e |]; try exact H.
  destruct H as [out [Hrun [Hlayers [Hmoment Hstres]]]].
  exists out. repeat split; try assumption.
  rewrite Hmoment. lra.
Qed.

(** ** C6: the stress integrator *)

Lemma layer_thickness_tiles (b : LayeredBeam) :
  (1 <= nlayers b)%nat -> layer_thickness b * INR (nlayers b) = depth b.
Proof.
  intros HN. unfold layer_thickness. field.
  apply not_0_INR. lia.
Qed.

Lemma layer_offset_increasing (b : LayeredBeam) (i j : nat) :
  (1 <= nlayers b)%nat -> 0 < depth b -> (i < j)%nat ->
  layer_offset b i < layer_offset b j.
Proof.
  intros HN Hd Hij.
  assert (Ht : 0 < layer_thickness b).
  { unfold layer_thickness. apply Rdiv_lt_0_compat; [exact Hd |].
    apply lt_0_INR. lia. }
  apply lt_INR in Hij. unfold layer_offset. nra.
Qed.

(** The ten layers of the scenario are centred at -0.09, -0.07, ..., 0.09. *)
Lemma scenario_offsets :
  layer_thickness (members scenario) = 0.02 /\
  layer_offset (members scenario) 0 = -0.09 /\
  layer_offset (members scenario) 1 = -0.07 /\
  layer_offset (members scenario) 9 = 0.09.
Proof.
  unfold layer_offset, layer_thickness. fields_of scenario.
  simpl INR. repeat split; lra.
Qed.

(** What a returning call leaves: N layers and their midpoint moment. *)
Lemma returned_layers_and_moment
    (b : LayeredBeam) (flexure total_stretch stres0 : R) (old : LayersOld)
    (out : LayerLoop) :
  (1 <= nlayers b)%nat ->
  computeQpStress b flexure total_stretch stres0 old = Done out ->
  List.length (layers out) = nlayers b /\
  stres out = midpoint_moment b 0 (layers out).
Proof.
  intros HN Hrun.
  pose proof (computeQpStress_refines b flexure total_stretch stres0 old) as Href.
  destruct (update_layers b flexure total_stretch old (nlayers b) 0)
    as [ls | e' |] eqn:Hls; try congruence.
  destruct Href as [out' [Hrun' [Hlayers [Hmoment Hstres]]]].
  assert (out' = out) by congruence. subst out'.
  apply update_layers_done in Hls. destruct Hls as [Hlen _].
  rewrite Hlayers. split; [exact Hlen |].
  rewrite Hstres. destruct (nlayers b); [lia | exact Hmoment].
Qed.

(** C6: with N >= 1 layers of thickness depth/N the layers tile the depth
    from -depth/2 to +depth/2, layer [i] is evaluated at its centroid offset
    (offsets step by one thickness and increase with [i] for a positive
    depth), and a call that returns yields the N updated layers and the
    resultant  sum_i direct_stress_i * width * z_offset_i * thickness.  A
    call that does not return normally throws the exception of one of its
    layers. *)
Theorem C6_midpoint_integration
    (b : LayeredBeam) (flexure total_stretch stres0 : R) (old : LayersOld) :
  (1 <= nlayers b)%nat ->
  layer_thickness b * INR (nlayers b) = depth b /\
  layer_offset b 0 - layer_thickness b / 2 = - depth b / 2 /\
  layer_offset b (nlayers b - 1) + layer_thickness b / 2 = depth b / 2 /\
  (forall i, layer_offset b (S i) = layer_offset b i + layer_thickness b) /\
  (0 < depth b ->
   forall i j, (i < j)%nat -> layer_offset b i < layer_offset b j) /\
  computeQpStress b flexure total_stretch stres0 old <> Fuel /\
  (forall e, computeQpStress b flexure total_stretch stres0 old = Throw e ->
     exists i, (i < nlayers b)%nat /\
       layer_update b flexure total_stretch (layer_offset b i) (old i) = Throw e) /\
  (forall out, computeQpStress b flexure total_stretch stres0 old = Done out ->
     List.length (layers out) = nlayers b /\
     (forall i, (i < nlayers b)%nat ->
        layer_update b flexure total_stretch (layer_offset b i) (old i)
        = Done (nth i (layers out) virgin)) /\
     stres out = midpoint_moment b 0 (layers out)).
Proof.
  intros HN.
  pose proof (layer_thickness_tiles b HN) as Htile.
  pose proof (computeQpStress_refines b flexure total_stretch stres0 old) as Href.
  split; [exact Htile | split; [| split; [| split; [| split; [| split; [| split]]]]]].
  - unfold layer_offset. simpl INR. lra.
  - unfold layer_offset. rewrite minus_INR by exact HN. simpl INR. lra.
  - intros i. unfold layer_offset. rewrite S_INR. lra.
  - intros Hd i j Hij. apply layer_offset_increasing; assumption.
  - destruct (update_layers b flexure total_stretch old (nlayers b) 0)
      as [ls | e |] eqn:Hls.
    + destruct Href as [out [Hrun _]]. rewrite Hrun. discriminate.
    + rewrite Href. discriminate.
    + exfalso. eapply update_layers_not_fuel. exact Hls.
  - intros e Hrun.
    destruct (update_layers b flexure total_stretch old (nlayers b) 0)
      as [ls | e' |] eqn:Hls.
    + destruct Href as [out [Hrun' _]]. congruence.
    + assert (e' = e) by congruence. subst e'.
      apply update_layers_throw in Hls.
      destruct Hls as [j [Hj [Hthrow _]]]. exists j. split; [exact Hj |].
      exact Hthrow.
    + exfalso. eapply update_layers_not_fuel. exact Hls.
  - intros out Hrun.
    destruct (update_layers b flexure total_stretch old (nlayers b) 0)
      as [ls | e' |] eqn:Hls; try congruence.
    destruct Href as [out' [Hrun' [Hlayers [Hmoment Hstres]]]].
    assert (out' = out) by congruence. subst out'.
    apply update_layers_done in Hls. destruct Hls as [Hlen Hnth].
    rewrite Hlayers. split; [exact Hlen | split].
    + intros i Hi. apply (Hnth i Hi).
    + rewrite Hstres. destruct (nlayers b); [lia | exact Hmoment].
Qed.

(** C6, instance: the ten layers of the scenario under curvature 0.01. *)
Lemma C6_witness :
  let b := members scenario in
  let old := fun _ : nat => virgin in
  layer_thickness b * INR (nlayers b) = depth b /\
  layer_offset b 0 - layer_thickness b / 2 = - depth b / 2 /\
  layer_offset b (nlayers b - 1) + layer_thickness b / 2 = depth b / 2 /\
  (forall i, layer_offset b (S i) = layer_offset b i + layer_thickness b) /\
  (0 < depth b ->
   forall i j, (i < j)%nat -> layer_offset b i < layer_offset b j) /\
  computeQpStress b 2e5 0.01 0 old <> Fuel /\
  (forall e, computeQpStress b 2e5 0.01 0 old = Throw e ->
     exists i, (i < nlayers b)%nat /\
       layer_update b 2e5 0.01 (layer_offset b i) (old i) = Throw e) /\
  (forall out, computeQpStress b 2e5 0.01 0 old = Done out ->
     List.length (layers out) = nlayers b /\
     (forall i, (i < nlayers b)%nat ->
        layer_update b 2e5 0.01 (layer_offset b i) (old i)
        = Done (nth i (layers out) virgin)) /\
     stres out = midpoint_moment b 0 (layers out)).
Proof.
  intros b old. apply C6_midpoint_integration.
  unfold b. fields_of scenario. lia.
Defined.

(** ** C4: the iteration cap *)

Lemma construct_members (p : InputParameters) (b : LayeredBeam) :
  construct p = Constructed b -> b = members p.
Proof.
  unfold construct.
  destruct (negb _); [discriminate |].
  destruct (_ && _); [discriminate |].
  intros H. injection H as <-. reflexivity.
Qed.

Lemma layer_update_throws (b : LayeredBeam) (flexure strain_increment z : R)
    (old : LayerState) (e : exception) :
  layer_update b flexure strain_increment z old = Throw e <->
  Rabs (direct_stress old + flexure * strain_increment * z) -
    hardening_variable old - yield_stress b > 0 /\
  newton_solve b flexure (direct_stress old + flexure * strain_increment * z) old
  = Throw e.
Proof.
  unfold layer_update.
  destruct (Rgtb _ 0) eqn:Hy.
  - apply Rgtb_true_iff in Hy.
    destruct (newton_solve b flexure _ old) as [st | e' |]; simpl.
    + split; [discriminate | intros [_ H]; discriminate].
    + split; [intros H; split; [exact Hy | congruence] | intros [_ H]; congruence].
    + split; [discriminate | intros [_ H]; discriminate].
  - apply Rgtb_false_iff in Hy. split; [discriminate |].
    intros [Hgt _]. lra.
Qed.

(** C4: the constructor fixes the cap at 1000.  The solve throws the
    non-convergence [MooseException] exactly when none of the iterates
    0, ..., 1000 meets the tolerances; a solve that returns has made at most
    1000 passes and meets both tolerances; nothing else can happen.  The
    exception of a layer leaves [computeQpStress] as it is: the layer loop
    neither catches it nor runs the solve again. *)
Theorem C4_iteration_cap
    (p : InputParameters) (b : LayeredBeam) (flexure trial_stress : R)
    (old : LayerState) :
  construct p = Constructed b ->
  max_its b = 1000%nat /\
  (newton_solve b flexure trial_stress old =
     Throw (MooseException "LayeredBeam: Plasticity model did not converge") <->
   forall k, (k <= 1000)%nat ->
     ~ both_tolerances_met b (newton_iterate b k flexure trial_stress old)) /\
  (forall st, newton_solve b flexure trial_stress old = Done st ->
     (iteration st <= 1000)%nat /\ both_tolerances_met b st) /\
  (forall e, newton_solve b flexure trial_stress old = Throw e ->
     e = MooseException "LayeredBeam: Plasticity model did not converge") /\
  newton_solve b flexure trial_stress old <> Fuel /\
  (forall total_stretch stres0 (olds : LayersOld) (i : nat) (e : exception),
     (i < nlayers b)%nat ->
     (forall j, (j < i)%nat -> exists l,
        layer_update b flexure total_stretch (layer_offset b j) (olds j) = Done l) ->
     Rabs (direct_stress (olds i) +
           flexure * total_stretch * layer_offset b i) -
       hardening_variable (olds i) - yield_stress b > 0 ->
     newton_solve b flexure
       (direct_stress (olds i) + flexure * total_stretch * layer_offset b i)
       (olds i) = Throw e ->
     computeQpStress b flexure total_stretch stres0 olds = Throw e).
Proof.
  intros Hb. apply construct_members in Hb.
  assert (Hcap : max_its b = 1000%nat) by (subst b; reflexivity).
  pose proof (newton_solve_outcome b flexure trial_stress old) as Hout.
  rewrite Hcap in Hout.
  split; [exact Hcap | split; [| split; [| split; [| split]]]].
  - split.
    + intros Hthrow k Hk. apply loop_condition_true_iff.
      destruct Hout as [[j [_ [Hrun _]]] | [_ Hall]]; [congruence |].
      apply Hall. exact Hk.
    + intros Hnone.
      destruct Hout as [[j [Hj [_ [Hstop _]]]] | [Hrun _]]; [| exact Hrun].
      apply loop_condition_false_iff in Hstop.
      exfalso. exact (Hnone j Hj Hstop).
  - intros st Hrun. apply newton_solve_done in Hrun.
    destruct Hrun as [Hstop [Hit _]]. rewrite Hcap in Hit.
    split; [exact Hit |]. apply loop_condition_false_iff. exact Hstop.
  - intros e Hrun.
    destruct Hout as [[j [_ [Hdone _]]] | [Hthrow _]]; congruence.
  - apply newton_solve_not_fuel.
  - intros total_stretch stres0 olds i e Hi Hbefore Hyield Hthrow.
    pose proof (computeQpStress_refines b flexure total_stretch stres0 olds)
      as Href.
    assert (Hls : update_layers b flexure total_stretch olds (nlayers b) 0
                  = Throw e).
    { apply update_layers_throw. exists i. split; [exact Hi | split].
      - apply layer_update_throws. split; assumption.
      - exact Hbefore. }
    rewrite Hls in Href. exact Href.
Qed.

(** A solve that does not converge: with the kinked curve, modulus 1 and
    trial stress 204 the slope stays frozen at the previous plastic strain
    and the iterates alternate between the increments 2 and -1. *)
Lemma kinked_body (st : NewtonState) :
  let b := members kinked in
  (plastic_strain_increment st = 0 \/ plastic_strain_increment st = 2 \/
   plastic_strain_increment st = -1) ->
  let st' := newton_body b 1 204 virgin st in
  (plastic_strain_increment st' = 2 \/ plastic_strain_increment st' = -1) /\
  (residual st' <= -2 \/ 2 <= residual st').
Proof.
  intros b Hdp st'. unfold st', newton_body, computeHardeningValue,
    computeHardeningDerivative, b.
  fields_of kinked. cbn [value timeDerivative kinked_curve].
  rewrite Rabs_R0. rewrite (Rabs_pos_eq 204) by lra.
  destruct (Rle_dec 0 1) as [_ | Hn]; [| lra].
  destruct Hdp as [-> | [-> | ->]].
  - destruct (Rle_dec (0 + 0) 1); [| lra]. split; [left | right]; lra.
  - destruct (Rle_dec (0 + 2) 1); [lra |]. split; [right | left]; lra.
  - destruct (Rle_dec (0 + -1) 1); [| lra]. split; [left | right]; lra.
Qed.

Lemma kinked_iterates (k : nat) :
  let st := newton_iterate (members kinked) k 1 204 virgin in
  (plastic_strain_increment st = 0 \/ plastic_strain_increment st = 2 \/
   plastic_strain_increment st = -1) /\
  (residual st <= -2 \/ 2 <= residual st).
Proof.
  induction k as [| k [IHdp _]].
  - cbn [newton_iterate]. unfold newton_init. fields_of kinked.
    rewrite (Rabs_pos_eq 204) by lra. split; [left; reflexivity | right; lra].
  - cbn [newton_iterate].
    destruct (kinked_body _ IHdp) as [Hdp Hres]. split; [tauto | exact Hres].
Qed.

Lemma kinked_never_converges (k : nat) :
  ~ both_tolerances_met (members kinked)
      (newton_iterate (members kinked) k 1 204 virgin).
Proof.
  intros [Habs _]. destruct (kinked_iterates k) as [_ Hres].
  rewrite Rabs_le_iff in Habs. fields_of kinked. lra.
Qed.

(** C4, instance: the kinked curve is constructed with the cap of 1000 and
    its solve throws. *)
Lemma C4_witness :
  let b := members kinked in
  construct kinked = Constructed b /\
  max_its b = 1000%nat /\
  newton_solve b 1 204 virgin =
    Throw (MooseException "LayeredBeam: Plasticity model did not converge").
Proof.
  intros b.
  assert (Hb : construct kinked = Constructed b) by reflexivity.
  destruct (C4_iteration_cap kinked b 1 204 virgin Hb) as [Hcap [Hthrow _]].
  split; [exact Hb | split; [exact Hcap |]].
  apply Hthrow. intros k _. apply kinked_never_converges.
Defined.

(** ** C7: no load *)

(** With a zero strain increment a layer at rest is returned as it was. *)
Lemma layer_update_at_rest (b : LayeredBeam) (flexure z : R) (l : LayerState) :
  at_rest b flexure l -> layer_update b flexure 0 z l = Done l.
Proof.
  intros Hrest. unfold layer_update.
  replace (direct_stress l + flexure * 0 * z) with (direct_stress l) by ring.
  destruct (Rgtb _ 0) eqn:Hy.
  - apply Rgtb_true_iff in Hy.
    destruct Hrest as [Hin | Hmet]; [lra |].
    assert (Hrun : newton_solve b flexure (direct_stress l) l =
                   Done (newton_iterate b 0 flexure (direct_stress l) l)).
    { apply newton_solve_first; [lia | | intros i Hi; lia].
      apply loop_condition_false_iff. exact Hmet. }
    rewrite Hrun. cbn [bind newton_iterate newton_init plastic_strain_increment
                       hardening].
    destruct l as [s ps h]. cbn [direct_stress plastic_strain hardening_variable].
    f_equal. f_equal; ring.
  - destruct l as [s ps h]. cbn [direct_stress plastic_strain hardening_variable].
    f_equal. f_equal; ring.
Qed.

Lemma update_layers_at_rest (b : LayeredBeam) (flexure : R) (old : LayersOld)
    (n i : nat) :
  (forall j, (j < n)%nat -> at_rest b flexure (old (i + j)%nat)) ->
  update_layers b flexure 0 old n i = Done (map old (seq i n)).
Proof.
  revert i. induction n as [| n IH]; intros i Hrest; [reflexivity |].
  cbn [update_layers seq map].
  rewrite layer_update_at_rest.
  - cbn [bind]. rewrite IH; [reflexivity |].
    intros j Hj. replace (S i + j)%nat with (i + S j)%nat by lia.
    apply Hrest. lia.
  - specialize (Hrest 0%nat). rewrite Nat.add_0_r in Hrest. apply Hrest. lia.
Qed.

(** Without a rotation increment the curvature is zero. *)
Lemma zero_rotation_no_stretch (q : QpInput) :
  rot0 q = zero_vector -> rot1 q = zero_vector -> c2 (local_grad_rot q) = 0.
Proof.
  intros H0 H1. unfold local_grad_rot, grad_rot_0, tapply, vscale, vsub.
  rewrite H0, H1. cbn [c0 c1 c2 zero_vector]. ring.
Qed.

Lemma map_nth_seq (ls : list LayerState) :
  map (fun i => nth i ls virgin) (seq 0 (List.length ls)) = ls.
Proof.
  induction ls as [| l ls IH]; [reflexivity |].
  cbn [List.length seq map nth]. f_equal.
  rewrite <- seq_shift, map_map. exact IH.
Qed.

(** A call without increments on layers at rest returns what the previous
    call left. *)
Lemma no_load_returns_previous
    (b : LayeredBeam) (flexure' stretch' stres' : R) (old' : LayersOld)
    (prev : LayerLoop) (q : QpInput) :
  computeQpStress b flexure' stretch' stres' old' = Done prev ->
  (forall i, layers_old q i = nth i (layers prev) virgin) ->
  disp0 q = zero_vector -> disp1 q = zero_vector ->
  rot0 q = zero_vector -> rot1 q = zero_vector ->
  (forall l, In l (layers prev) -> at_rest b (c2 (material_flexure q)) l) ->
  (1 <= nlayers b)%nat ->
  exists out,
    computeQpStrain b q = Done out /\
    layers (stress out) = layers prev /\
    stres (stress out) = stres prev.
Proof.
  intros Hprev Hold Hd0 Hd1 Hr0 Hr1 Hrest HN.
  destruct (returned_layers_and_moment b flexure' stretch' stres' old' prev HN Hprev)
    as [Hlen Hres].
  unfold computeQpStrain. rewrite (zero_rotation_no_stretch q Hr0 Hr1).
  pose proof (computeQpStress_refines b (c2 (material_flexure q)) 0
                (stres_entry q) (layers_old q)) as Href.
  rewrite update_layers_at_rest in Href.
  - destruct Href as [out [Hrun [Hlayers [Hmoment Hstres]]]].
    rewrite Hrun. cbn [bind]. eexists. split; [reflexivity |].
    cbn [stress].
    assert (Hsame : layers out = layers prev).
    { rewrite Hlayers. rewrite <- Hlen.
      rewrite (map_ext _ (fun i => nth i (layers prev) virgin) Hold).
      apply map_nth_seq. }
    split; [exact Hsame |].
    rewrite Hstres. destruct (nlayers b); [lia |].
    rewrite Hmoment, Hres, <- Hsame, Hlayers. reflexivity.
  - intros j Hj. rewrite Hold. apply Hrest. apply nth_In. lia.
Qed.

Lemma sign_nonneg (x : R) : 0 <= x -> sign x = 1.
Proof.
  intros H. unfold sign, Rgeb. destruct (Rge_dec x 0); [reflexivity | lra].
Qed.

Lemma sign_neg (x : R) : x < 0 -> sign x = -1.
Proof.
  intros H. unfold sign, Rgeb. destruct (Rge_dec x 0); [lra | reflexivity].
Qed.

(** A linear-hardening layer beyond yield whose residual exceeds the
    absolute tolerance on entry and after the first pass: two passes are
    made and the new state is the return-mapped one. *)
Lemma layer_update_linear_two_passes (b : LayeredBeam) (flexure se z : R)
    (old : LayerState) (s' ps' h' : R) :
  let T := direct_stress old + flexure * se * z in
  let closed := closed_form_increment b flexure T old in
  hardening_function b = None ->
  flexure + hardening_constant b <> 0 ->
  0 <= absolute_tolerance b -> 0 <= relative_tolerance b ->
  (2 <= max_its b)%nat ->
  Rabs T - hardening_variable old - yield_stress b > 0 ->
  Rabs T - hardening_variable old - yield_stress b > absolute_tolerance b ->
  Rabs (Rabs T - hardening_variable old - yield_stress b - flexure * closed)
    > absolute_tolerance b ->
  s' = direct_stress old + (se * z - closed * sign T) * flexure ->
  ps' = plastic_strain old + closed * sign T ->
  h' = hardening_variable old + hardening_constant b * closed ->
  layer_update b flexure se z old = Done (Layer s' ps' h').
Proof.
  intros T closed Hlin Hden Habs Hrel Hcap Hyield H0 H1 Hs Hps Hh.
  assert (Hrun : newton_solve b flexure T old =
                 Done (newton_iterate b 2 flexure T old)).
  { apply newton_solve_first; [lia | now apply linear_iterate_2_stops |].
    intros i Hi. apply loop_condition_true_iff. intros [Hmet _].
    destruct i as [| [| i]]; [| | lia].
    - cbn [newton_iterate newton_init residual] in Hmet.
      rewrite Rabs_le_iff in Hmet. lra.
    - destruct (linear_iterate_1 b flexure T old Hlin Hden) as [_ [_ [Hres _]]].
      rewrite Hres in Hmet. fold closed in Hmet. lra. }
  unfold layer_update. fold T.
  destruct (Rgtb _ 0) eqn:Hy; [| apply Rgtb_false_iff in Hy; lra].
  rewrite Hrun. cbn [bind].
  destruct (linear_iterate_2 b flexure T old Hlin Hden) as [Hdp [Hhard _]].
  rewrite Hdp, Hhard. fold closed. subst s' ps' h'. reflexivity.
Qed.

(** The layers and the resultant of a call, from the per-layer updates. *)
Lemma computeQpStrain_layers (b : LayeredBeam) (q : QpInput)
    (ls : list LayerState) :
  update_layers b (c2 (material_flexure q)) (c2 (local_grad_rot q))
                (layers_old q) (nlayers b) 0 = Done ls ->
  exists out, computeQpStrain b q = Done out /\
              layers (stress out) = ls /\
              stres (stress out) =
                match nlayers b with
                | O => stres_entry q
                | S _ => midpoint_moment b 0 ls
                end.
Proof.
  intros Hls.
  pose proof (computeQpStress_refines b (c2 (material_flexure q))
                (c2 (local_grad_rot q)) (stres_entry q) (layers_old q)) as Href.
  rewrite Hls in Href. destruct Href as [s [Hrun [Hlayers [Hmoment Hstres]]]].
  unfold computeQpStrain. rewrite Hrun. cbn [bind].
  eexists. split; [reflexivity |]. cbn [stress].
  split; [exact Hlayers |]. rewrite Hstres.
  destruct (nlayers b); [reflexivity | exact Hmoment].
Qed.

Lemma unit_beam_stretch (k : R) (old : LayersOld) (s0 : R) :
  c2 (local_grad_rot (unit_beam_input (Vec 0 0 k) old s0)) = k.
Proof.
  unfold local_grad_rot, grad_rot_0, tapply, vscale, vsub, unit_beam_input,
    identity, zero_vector.
  cbn [c0 c1 c2 t20 t21 t22 total_rotation original_length rot0 rot1]. field.
Qed.

Lemma softening_offsets :
  layer_offset softening 0 = -0.05 /\ layer_offset softening 1 = 0.05.
Proof.
  unfold layer_offset, layer_thickness, softening. fields_of softening. simpl INR. lra.
Qed.

(** One layer of [softening] beyond yield, with the closed-form increment
    [closed] given by [closed * 1e5 = |T| - 200 - h]. *)
Lemma softening_layer (se z s ps h T closed s' ps' h' : R) :
  T = s + 2e5 * se * z ->
  0 <= closed ->
  closed * 1e5 = Rabs T - 200 - h ->
  Rabs T - h - 200 > 1e-10 ->
  Rabs T - h - 200 - 2e5 * closed < - 1e-10 ->
  s' = s + (se * z - closed * sign T) * 2e5 ->
  ps' = ps + closed * sign T ->
  h' = h + -1e5 * closed ->
  layer_update softening 2e5 se z (Layer s ps h) = Done (Layer s' ps' h').
Proof.
  intros HT Hpos Hclosed H0 H1 Hs Hps Hh.
  assert (Hc : closed_form_increment softening 2e5 T (Layer s ps h) = closed).
  { unfold closed_form_increment, softening. fields_of softening.
    apply Rmult_eq_reg_r with 1e5; [| lra]. rewrite Hclosed. field. }
  rewrite HT in Hc.
  apply layer_update_linear_two_passes; unfold softening; fields_of softening;
    fold softening; rewrite ?Hc; rewrite <- ?HT;
    try lra; try lia; try reflexivity; try assumption.
  rewrite Rabs_gt_iff. lra.
Qed.

Lemma softening_first_call :
  exists out,
    computeQpStrain softening
      (unit_beam_input (Vec 0 0 0.08) (fun _ => virgin) 0) = Done out /\
    layers (stress out) = after_first /\
    stres (stress out) = -0.4.
Proof.
  destruct (computeQpStrain_layers softening
              (unit_beam_input (Vec 0 0 0.08) (fun _ => virgin) 0) after_first)
    as [out [Hrun [Hl Hs]]].
  - rewrite unit_beam_stretch.
    cbn [material_flexure unit_beam_input c2 layers_old].
    change (nlayers softening) with 2%nat. cbn [update_layers].
    destruct softening_offsets as [-> ->]. cbv beta. unfold virgin.
    rewrite (softening_layer 0.08 (-0.05) 0 0 0 (-800) 0.006 400 (-0.006) (-600));
      rewrite ?(Rabs_left (-800)) by lra; rewrite ?(sign_neg (-800)) by lra;
      try lra.
    rewrite (softening_layer 0.08 0.05 0 0 0 800 0.006 (-400) 0.006 (-600));
      rewrite ?(Rabs_pos_eq 800) by lra; rewrite ?(sign_nonneg 800) by lra;
      try lra.
    reflexivity.
  - exists out. split; [exact Hrun | split; [exact Hl |]].
    rewrite Hs. change (nlayers softening) with 2%nat.
    unfold after_first. cbn [midpoint_moment direct_stress].
    destruct softening_offsets as [-> ->].
    unfold layer_thickness, softening. fields_of softening. simpl INR. lra.
Qed.

Lemma softening_second_call (s0 : R) :
  exists out,
    computeQpStrain softening
      (unit_beam_input zero_vector (as_old after_first) s0) = Done out /\
    layers (stress out) = after_second /\
    stres (stress out) = 1.2.
Proof.
  change zero_vector with (Vec 0 0 0).
  destruct (computeQpStrain_layers softening
              (unit_beam_input (Vec 0 0 0) (as_old after_first) s0) after_second)
    as [out [Hrun [Hl Hs]]].
  - rewrite unit_beam_stretch.
    cbn [material_flexure unit_beam_input c2 layers_old].
    change (nlayers softening) with 2%nat. cbn [update_layers].
    destruct softening_offsets as [-> ->].
    unfold as_old, after_first. cbn [nth].
    rewrite (softening_layer 0 (-0.05) 400 (-0.006) (-600) 400 0.008
               (-1200) 0.002 (-1400));
      rewrite ?(Rabs_pos_eq 400) by lra; rewrite ?(sign_nonneg 400) by lra;
      try lra.
    rewrite (softening_layer 0 0.05 (-400) 0.006 (-600) (-400) 0.008
               1200 (-0.002) (-1400));
      rewrite ?(Rabs_left (-400)) by lra; rewrite ?(sign_neg (-400)) by lra;
      try lra.
    reflexivity.
  - exists out. split; [exact Hrun | split; [exact Hl |]].
    rewrite Hs. change (nlayers softening) with 2%nat.
    unfold after_second. cbn [midpoint_moment direct_stress].
    destruct softening_offsets as [-> ->].
    unfold layer_thickness, softening. fields_of softening. simpl INR. lra.
Qed.

(** C7, counterexample: a softening section (hardening constant -1e5,
    yield stress 200, two layers, modulus 2e5) is taken from its initial
    state by a first call with curvature 0.08; a second call with all
    increments zero then changes the direct stress of layer 0 from 400 to
    -1200, its plastic strain from -0.006 to 0.002 and the resultant from
    -0.4 to 1.2. *)
Lemma C7_no_load_changes_state_beyond_yield :
  exists prev out,
    computeQpStrain softening
      (unit_beam_input (Vec 0 0 0.08) (fun _ => virgin) 0) = Done prev /\
    computeQpStrain softening
      (unit_beam_input zero_vector (as_old (layers (stress prev)))
                       (stres (stress prev))) = Done out /\
    direct_stress (nth 0 (layers (stress prev)) virgin) = 400 /\
    direct_stress (nth 0 (layers (stress out)) virgin) = -1200 /\
    plastic_strain (nth 0 (layers (stress prev)) virgin) = -0.006 /\
    plastic_strain (nth 0 (layers (stress out)) virgin) = 0.002 /\
    stres (stress prev) = -0.4 /\
    stres (stress out) = 1.2.
Proof.
  destruct softening_first_call as [prev [Hprev [Hl1 Hs1]]].
  destruct (softening_second_call (stres (stress prev))) as [out [Hout [Hl2 Hs2]]].
  exists prev, out. rewrite Hl1, Hl2.
  repeat split; try assumption; reflexivity.
Qed.

(** *** States reached under linear hardening are at rest *)

Lemma both_tolerances_met_ext (b : LayeredBeam) (st st' : NewtonState) :
  residual st' = residual st ->
  reference_residual st' = reference_residual st ->
  both_tolerances_met b st -> both_tolerances_met b st'.
Proof.
  unfold both_tolerances_met. intros -> ->. tauto.
Qed.

Section LinearStates.

Variable b : LayeredBeam.
Variable flexure : R.
Hypothesis linear : hardening_function b = None.
Hypothesis stiff : 0 < flexure.
Hypothesis hardens : 0 <= hardening_constant b.
Hypothesis abs_tol : 0 <= absolute_tolerance b.
Hypothesis rel_tol : 0 <= relative_tolerance b.
Hypothesis cap : (2 <= max_its b)%nat.

(** Over the reals the linear solve returns, after at most two passes. *)
Lemma linear_solve_cases (T : R) (old : LayerState) :
  exists k, (k <= 2)%nat /\
    newton_solve b flexure T old = Done (newton_iterate b k flexure T old) /\
    both_tolerances_met b (newton_iterate b k flexure T old).
Proof.
  assert (Hden : flexure + hardening_constant b <> 0) by lra.
  destruct (loop_condition b (newton_iterate b 0 flexure T old)) eqn:H0.
  - destruct (loop_condition b (newton_iterate b 1 flexure T old)) eqn:H1.
    + exists 2%nat. split; [lia |].
      assert (H2 : loop_condition b (newton_iterate b 2 flexure T old) = false)
        by (apply linear_iterate_2_stops; assumption).
      split; [| apply loop_condition_false_iff; exact H2].
      apply newton_solve_first; [lia | exact H2 |].
      intros i Hi. destruct i as [| [| i]]; [exact H0 | exact H1 | lia].
    + exists 1%nat. split; [lia |].
      split; [| apply loop_condition_false_iff; exact H1].
      apply newton_solve_first; [lia | exact H1 |].
      intros i Hi. destruct i as [| i]; [exact H0 | lia].
  - exists 0%nat. split; [lia |].
    split; [| apply loop_condition_false_iff; exact H0].
    apply newton_solve_first; [lia | exact H0 | intros i Hi; lia].
Qed.

(** The magnitude of the return-mapped stress is the reference residual,
    as long as the correction does not carry the stress through zero. *)
Lemma return_mapped_stress (T c : R) :
  0 <= Rabs T - flexure * c ->
  Rabs (T - c * sign T * flexure) = Rabs T - flexure * c.
Proof.
  intros Href. unfold sign, Rgeb.
  destruct (Rge_dec T 0) as [Hpos | Hneg].
  - rewrite (Rabs_pos_eq T) in * by lra. rewrite Rabs_pos_eq; lra.
  - rewrite (Rabs_left T) in * by lra. rewrite Rabs_left1; lra.
Qed.

Lemma layer_update_linear_at_rest (flexure' se z : R) (old : LayerState) :
  admissible b old ->
  exists l, layer_update b flexure se z old = Done l /\
            at_rest b flexure' l /\ admissible b l.
Proof.
  intros Hadm. unfold admissible in Hadm.
  assert (Hden : flexure + hardening_constant b <> 0) by lra.
  unfold layer_update.
  set (T := direct_stress old + flexure * se * z).
  destruct (Rgtb _ 0) eqn:Hy.
  - apply Rgtb_true_iff in Hy.
    destruct (linear_solve_cases T old) as [k [Hk [Hrun Hmet]]].
    rewrite Hrun. cbn [bind]. eexists. split; [reflexivity |].
    set (c := closed_form_increment b flexure T old).
    assert (Hc : c * (flexure + hardening_constant b) =
                 Rabs T - yield_stress b - hardening_variable old).
    { unfold c, closed_form_increment. field. exact Hden. }
    assert (Hcpos : 0 < c).
    { apply Rmult_lt_reg_r with (flexure + hardening_constant b); [lra |].
      rewrite Hc. lra. }
    assert (Href : 0 <= Rabs T - flexure * c).
    { apply Rmult_le_reg_r with (flexure + hardening_constant b); [lra |].
      pose proof (Rabs_pos T). nra. }
    destruct k as [| [| [| k]]]; [| | | lia].
    + cbn [newton_iterate newton_init plastic_strain_increment hardening] in *.
      split.
      * right. eapply both_tolerances_met_ext; [| | exact Hmet];
          cbn [newton_init residual reference_residual direct_stress
               hardening_variable];
          replace (direct_stress old + (se * z - 0 * sign T) * flexure) with T
            by (unfold T; ring); ring.
      * unfold admissible. cbn [hardening_variable]. exact Hadm.
    + destruct (linear_iterate_1 b flexure T old linear Hden)
        as [Hdp [Hh [Hres Hrr]]].
      fold c in Hdp, Hres, Hrr. rewrite Hdp, Hh. split.
      * right. eapply both_tolerances_met_ext; [| | exact Hmet];
          cbn [newton_init residual reference_residual direct_stress
               hardening_variable];
          replace (direct_stress old + (se * z - c * sign T) * flexure)
            with (T - c * sign T * flexure) by (unfold T; ring);
          rewrite (return_mapped_stress T c Href); rewrite ?Hres, ?Hrr; ring.
      * unfold admissible. cbn [hardening_variable]. exact Hadm.
    + destruct (linear_iterate_2 b flexure T old linear Hden)
        as [Hdp [Hh [Hres Hrr]]].
      fold c in Hdp, Hh, Hrr. rewrite Hdp, Hh. split.
      * right. eapply both_tolerances_met_ext; [| | exact Hmet];
          cbn [newton_init residual reference_residual direct_stress
               hardening_variable];
          replace (direct_stress old + (se * z - c * sign T) * flexure)
            with (T - c * sign T * flexure) by (unfold T; ring);
          rewrite (return_mapped_stress T c Href); rewrite ?Hres, ?Hrr; nra.
      * unfold admissible. cbn [hardening_variable]. nra.
  - apply Rgtb_false_iff in Hy. eexists. split; [reflexivity |]. split.
    + left. cbn [direct_stress hardening_variable].
      replace (direct_stress old + se * z * flexure) with T by (unfold T; ring).
      lra.
    + unfold admissible. cbn [hardening_variable]. exact Hadm.
Qed.

Lemma update_layers_linear_at_rest (flexure' se : R) (old : LayersOld)
    (n i : nat) :
  (forall j, admissible b (old j)) ->
  exists ls, update_layers b flexure se old n i = Done ls /\
             forall l, In l ls -> at_rest b flexure' l /\ admissible b l.
Proof.
  intros Hadm. revert i. induction n as [| n IH]; intros i.
  - exists []. split; [reflexivity | intros l []].
  - cbn [update_layers].
    destruct (layer_update_linear_at_rest flexure' se (layer_offset b i) (old i)
                (Hadm i)) as [l [Hl [Hrest Hal]]].
    destruct (IH (S i)) as [ls [Hls Hall]].
    rewrite Hl. cbn [bind]. rewrite Hls. cbn [bind].
    exists (l :: ls). split; [reflexivity |].
    intros l' [<- | Hin]; [split; assumption | apply Hall; exact Hin].
Qed.

(** Over the reals every call returns, and leaves all layers at rest and
    admissible. *)
Lemma computeQpStress_linear_at_rest (flexure' stretch stres0 : R)
    (old : LayersOld) :
  (forall j, admissible b (old j)) ->
  exists out, computeQpStress b flexure stretch stres0 old = Done out /\
              forall l, In l (layers out) ->
                at_rest b flexure' l /\ admissible b l.
Proof.
  intros Hadm.
  destruct (update_layers_linear_at_rest flexure' stretch old (nlayers b) 0 Hadm)
    as [ls [Hls Hall]].
  pose proof (computeQpStress_refines b flexure stretch stres0 old) as Href.
  rewrite Hls in Href. destruct Href as [out [Hrun [Hlayers _]]].
  exists out. split; [exact Hrun |]. rewrite Hlayers. exact Hall.
Qed.

End LinearStates.

(** C7, as amended: when the displacement and rotation increments of both
    nodes are zero and every layer left by the previous step is at rest
    (within the yield condition, or beyond it only by a residual that meets
    both tolerances), the call returns every layer as the previous step left
    it (direct stress, plastic strain and hardening variable) and, for
    N >= 1, the stress resultant the previous step integrated. *)
Theorem C7_no_load_keeps_state
    (b : LayeredBeam) (flexure' stretch' stres' : R) (old' : LayersOld)
    (prev : LayerLoop) (q : QpInput) :
  computeQpStress b flexure' stretch' stres' old' = Done prev ->
  (forall i, layers_old q i = nth i (layers prev) virgin) ->
  disp0 q = zero_vector -> disp1 q = zero_vector ->
  rot0 q = zero_vector -> rot1 q = zero_vector ->
  (forall l, In l (layers prev) -> at_rest b (c2 (material_flexure q)) l) ->
  (1 <= nlayers b)%nat ->
  exists out,
    computeQpStrain b q = Done out /\
    layers (stress out) = layers prev /\
    stres (stress out) = stres prev.
Proof.
  exact (no_load_returns_previous b flexure' stretch' stres' old' prev q).
Qed.

(** C7, instance: the concrete scenario loaded from its initial state with
    curvature 0.02 and then called again without increments. *)
Lemma C7_witness :
  let b := members scenario in
  exists prev out,
    computeQpStress b 2e5 0.02 0 (fun _ => virgin) = Done prev /\
    computeQpStrain b (unit_beam_input zero_vector (as_old (layers prev)) 0)
    = Done out /\
    layers (stress out) = layers prev /\
    stres (stress out) = stres prev.
Proof.
  intros b.
  assert (Hsane : exists prev,
             computeQpStress b 2e5 0.02 0 (fun _ => virgin) = Done prev /\
             forall l, In l (layers prev) ->
               at_rest b 2e5 l /\ admissible b l).
  { apply computeQpStress_linear_at_rest;
      try (unfold b; fields_of scenario; try reflexivity; try lra; lia).
    intros j. unfold admissible, b. fields_of scenario. lra. }
  destruct Hsane as [prev [Hprev Hrest]].
  destruct (C7_no_load_keeps_state b 2e5 0.02 0 (fun _ => virgin) prev
              (unit_beam_input zero_vector (as_old (layers prev)) 0))
    as [out Hout].
  - exact Hprev.
  - intros i. reflexivity.
  - reflexivity.
  - reflexivity.
  - reflexivity.
  - reflexivity.
  - intros l Hl. apply (Hrest l Hl).
  - unfold b. fields_of scenario. lia.
  - exists prev, out. split; [exact Hprev | exact Hout].
Defined.

(** ** What a returning call of [computeQpStrain] writes *)

Lemma computeQpStrain_done (b : LayeredBeam) (q : QpInput) (out : QpOutput) :
  computeQpStrain b q = Done out ->
  total_disp_strain out =
    vadd (tapply (transpose (total_rotation q)) (disp_strain_increment b q))
         (total_disp_strain_old q) /\
  total_rot_strain out =
    vadd (tapply (transpose (total_rotation q)) (rot_strain_increment b q))
         (total_disp_strain_old q) /\
  effective_stiffness out = effective_stiffness_value b q /\
  total_stretch out = c2 (local_grad_rot q).
Proof.
  unfold computeQpStrain.
  destruct (computeQpStress b _ _ _ _) as [s | e |]; cbn [bind];
    try discriminate.
  intros H. injection H as <-. cbn. repeat split; reflexivity.
Qed.

(** A call without rotation increments on a beam of non-negative yield
    stress returns from the initial layer state. *)
Lemma virgin_call_returns (b : LayeredBeam) (q : QpInput) :
  0 <= yield_stress b ->
  rot0 q = zero_vector -> rot1 q = zero_vector ->
  (forall i, layers_old q i = virgin) ->
  exists out, computeQpStrain b q = Done out.
Proof.
  intros Hy H0 H1 Hold.
  destruct (computeQpStrain_layers b q
              (map (layers_old q) (seq 0 (nlayers b)))) as [out [Hrun _]].
  - rewrite (zero_rotation_no_stretch q H0 H1).
    apply update_layers_at_rest. intros j Hj. rewrite Hold. left.
    cbn [virgin direct_stress hardening_variable]. rewrite Rabs_R0. lra.
  - exists out. exact Hrun.
Qed.

(** ** C2: the total strain accumulators *)

(** Without nodal increments the local kinematic vectors vanish, and with
    them both strain increments. *)
Lemma local_vectors_at_rest (q : QpInput) :
  disp0 q = zero_vector -> disp1 q = zero_vector ->
  rot0 q = zero_vector -> rot1 q = zero_vector ->
  local_grad_disp q = zero_vector /\
  local_grad_rot q = zero_vector /\
  local_avg_rot q = zero_vector.
Proof.
  intros Hd0 Hd1 Hr0 Hr1.
  unfold local_grad_disp, local_grad_rot, local_avg_rot, grad_disp_0,
    grad_rot_0, avg_rot.
  rewrite Hd0, Hd1, Hr0, Hr1.
  unfold tapply, vscale, vsub, zero_vector. cbn [c0 c1 c2].
  repeat split; f_equal; ring.
Qed.

Lemma no_increment_no_strain (b : LayeredBeam) (q : QpInput) :
  disp0 q = zero_vector -> disp1 q = zero_vector ->
  rot0 q = zero_vector -> rot1 q = zero_vector ->
  disp_strain_increment b q = zero_vector /\
  rot_strain_increment b q = zero_vector.
Proof.
  intros Hd0 Hd1 Hr0 Hr1.
  destruct (local_vectors_at_rest q Hd0 Hd1 Hr0 Hr1) as [Hg [Hgr Ha]].
  unfold disp_strain_increment, rot_strain_increment, small_disp_strain,
    small_rot_strain, large_disp_strain_terms, large_rot_strain_terms.
  rewrite Hg, Hgr, Ha. unfold zero_vector, vadd. cbn [c0 c1 c2].
  destruct (large_strain b); split; f_equal; ring.
Qed.

Lemma transpose_identity_apply (v : RealVectorValue) :
  tapply (transpose identity) v = v.
Proof.
  destruct v as [x y z]. unfold tapply, transpose, identity.
  cbn [c0 c1 c2 t00 t01 t02 t10 t11 t12 t20 t21 t22]. f_equal; ring.
Qed.

(** A returning call adds the rotated rotation-strain increment to the
    previous total DISPLACEMENT strain. *)
Lemma total_rot_strain_written (b : LayeredBeam) (q : QpInput) (out : QpOutput) :
  computeQpStrain b q = Done out ->
  total_rot_strain out =
    vadd (tapply (transpose (total_rotation q)) (rot_strain_increment b q))
         (total_disp_strain_old q).
Proof.
  intros Hout. apply (computeQpStrain_done b q out Hout).
Qed.

(** C2, the code at a failing input: a beam at rest (no increments, so both
    rotated strain increments vanish) whose previous total displacement
    strain is (1,0,0) and previous total rotation strain is (0,2,0).  The
    new total displacement strain is its previous value plus the rotated
    increment, but the new total rotation strain is (1,0,0), the previous
    DISPLACEMENT total plus the rotated rotation increment, where the claim
    gives (0,2,0). *)
Theorem C2_total_rotation_strain_adds_displacement_total :
  let b := members scenario in
  let q := resting_input (Vec 1 0 0) (Vec 0 2 0) in
  exists out,
    computeQpStrain b q = Done out /\
    total_disp_strain out =
      vadd (tapply (transpose (total_rotation q)) (disp_strain_increment b q))
           (total_disp_strain_old q) /\
    total_rot_strain out = Vec 1 0 0 /\
    vadd (tapply (transpose (total_rotation q)) (rot_strain_increment b q))
         (total_rot_strain_old q) = Vec 0 2 0.
Proof.
  intros b q.
  destruct (virgin_call_returns b q) as [out Hout];
    try reflexivity; [unfold b; fields_of scenario; lra |].
  exists out. destruct (computeQpStrain_done b q out Hout) as [Hd [Hr _]].
  destruct (no_increment_no_strain b q) as [_ Hzero]; try reflexivity.
  split; [exact Hout | split; [exact Hd | split]].
  - rewrite Hr, Hzero. unfold q. cbn [resting_input total_rotation
      total_disp_strain_old]. rewrite transpose_identity_apply.
    unfold vadd, zero_vector. cbn [c0 c1 c2]. f_equal; ring.
  - rewrite Hzero. unfold q. cbn [resting_input total_rotation
      total_rot_strain_old]. rewrite transpose_identity_apply.
    unfold vadd, zero_vector. cbn [c0 c1 c2]. f_equal; ring.
Qed.

(** ** C5: large strain and first moments of area *)

Lemma construct_rejects_positive_first_moment (p : InputParameters) :
  p_displacements p = p_rotations p ->
  p_large_strain p = true ->
  p_Ay p 0%nat > 0 \/ p_Ay p 1%nat > 0 \/ p_Az p 0%nat > 0 \/ p_Az p 1%nat > 0 ->
  exists msg, construct p = mooseError msg.
Proof.
  intros Hn Hl Hpos. unfold construct. cbn [members ndisp nrot large_strain Ay Az].
  rewrite Hn, Nat.eqb_refl, Hl. cbn [negb andb].
  assert (Hor : (Rgtb (p_Ay p 0%nat) 0 || Rgtb (p_Ay p 1%nat) 0 ||
                 Rgtb (p_Az p 0%nat) 0 || Rgtb (p_Az p 1%nat) 0) = true).
  { rewrite !orb_true_iff, !Rgtb_true_iff. tauto. }
  rewrite Hor. eexists. reflexivity.
Qed.

(** C5, the code at a failing input: large strain with a first moment of
    area [Ay] of -1e-3 at both nodes.  The check of the constructor tests
    [> 0.0] only, so the non-zero negative moment passes and the object is
    constructed, where the claim (and the text of the error message) asks
    for a configuration error. *)
Theorem C5_negative_first_moment_is_accepted :
  large_strain (members negative_first_moment) = true /\
  Ay (members negative_first_moment) 0%nat <> 0 /\
  Ay (members negative_first_moment) 1%nat <> 0 /\
  construct negative_first_moment = Constructed (members negative_first_moment).
Proof.
  split; [reflexivity | split; [| split]].
  - fields_of negative_first_moment. intros H. lra.
  - fields_of negative_first_moment. intros H. lra.
  - unfold construct. fields_of negative_first_moment. cbn [Nat.eqb negb andb].
    assert (Hneg : Rgtb (-1e-3) 0 = false) by (apply Rgtb_false_iff; lra).
    assert (Hzero : Rgtb 0 0 = false) by (apply Rgtb_false_iff; lra).
    rewrite Hneg, Hzero. reflexivity.
Qed.

(** ** C8: the effective stiffness *)

Lemma effective_stiffness_base_contract (b : LayeredBeam) (q : QpInput) :
  effective_stiffness_base b q = contract_stiffness b q.
Proof. reflexivity. Qed.

(** C8, counterexample: with a prefactor function of constant value 4 the
    effective stiffness is the contract's value times 2 (the square root of
    the function's value), not times 4. *)
Lemma C8_prefactor_enters_by_its_square_root :
  let b := members with_prefactor in
  let q := resting_input zero_vector zero_vector in
  exists out,
    computeQpStrain b q = Done out /\
    value fourfold (time q) (q_point q) = 4 /\
    effective_stiffness out = contract_stiffness b q * 2 /\
    effective_stiffness out <>
      contract_stiffness b q * value fourfold (time q) (q_point q).
Proof.
  intros b q.
  destruct (virgin_call_returns b q) as [out Hout];
    try reflexivity; [unfold b; fields_of with_prefactor; lra |].
  exists out. destruct (computeQpStrain_done b q out Hout) as [_ [_ [He _]]].
  assert (Hsqrt : sqrt 4 = 2).
  { replace 4 with (2 * 2) by lra. apply sqrt_square. lra. }
  assert (Hpos : 0 < contract_stiffness b q).
  { unfold contract_stiffness.
    apply Rlt_le_trans with (sqrt (c0 (material_stiffness q))).
    - apply sqrt_lt_R0. unfold q. cbn. lra.
    - eapply Rle_trans; [apply Rmax_l | apply Rmax_l]. }
  assert (Hval : effective_stiffness out = contract_stiffness b q * 2).
  { rewrite He. unfold effective_stiffness_value. unfold b at 1. fields_of with_prefactor.
    cbn [value fourfold]. rewrite Hsqrt.
    rewrite effective_stiffness_base_contract. reflexivity. }
  split; [exact Hout | split; [reflexivity | split; [exact Hval |]]].
  rewrite Hval. cbn [value fourfold]. lra.
Qed.

(** C8, as amended: the effective stiffness is
    max(max(c1, c2), original_length / (2 / (c2 * sqrt(A_avg / Iz_avg))))
    with c1 = sqrt(axial modulus) and c2 = sqrt(shear modulus), and when a
    prefactor function is supplied it is multiplied by the square root of
    that function's value at the current time and the quadrature point. *)
Theorem C8_effective_stiffness
    (b : LayeredBeam) (q : QpInput) (out : QpOutput) :
  computeQpStrain b q = Done out ->
  effective_stiffness out =
    match prefactor_function b with
    | Some f => contract_stiffness b q * sqrt (value f (time q) (q_point q))
    | None => contract_stiffness b q
    end.
Proof.
  intros Hout. destruct (computeQpStrain_done b q out Hout) as [_ [_ [He _]]].
  rewrite He. unfold effective_stiffness_value.
  rewrite effective_stiffness_base_contract. reflexivity.
Qed.

(** C8, instance: the scenario with the prefactor of constant value 4. *)
Lemma C8_witness :
  let b := members with_prefactor in
  let q := resting_input zero_vector zero_vector in
  exists out,
    computeQpStrain b q = Done out /\
    effective_stiffness out =
      contract_stiffness b q * sqrt (value fourfold (time q) (q_point q)).
Proof.
  intros b q.
  destruct (virgin_call_returns b q) as [out Hout];
    try reflexivity; [unfold b; fields_of with_prefactor; lra |].
  exists out. split; [exact Hout |].
  exact (C8_effective_stiffness b q out Hout).
Defined.

(** ** C10: the large-strain stiffness terms *)

Lemma symmetric_iff (K : RankTwoTensor) :
  symmetric K <-> t01 K = t10 K /\ t02 K = t20 K /\ t12 K = t21 K.
Proof.
  unfold symmetric, transpose. destruct K. cbn. split.
  - intros H. injection H. intros. repeat split; congruence.
  - intros [H1 [H2 H3]]. f_equal; congruence.
Qed.



Lemma symmetric_tscale (k : R) (A : RankTwoTensor) :
  symmetric A -> symmetric (tscale k A).
Proof.
  rewrite !symmetric_iff. unfold tscale. destruct A. cbn.
  intros [H1 [H2 H3]]. subst. repeat split; reflexivity.
Qed.



(** A scaled tensor whose mirrored entries are written as copies. *)
Ltac symmetric_entries :=
  apply symmetric_tscale; rewrite symmetric_iff;
  cbn [t01 t10 t02 t20 t12 t21]; repeat split; reflexivity.


Lemma symmetric_k1_large_21 b L g gr : symmetric (k1_large_21 b L g gr).
Proof. unfold k1_large_21. symmetric_entries. Qed.









(** The [k1] terms are homogeneous of degree two in the gradients. *)
Lemma k1_large_11_quadratic b L g gr (k : R) :
  k1_large_11 b L (vscale k g) (vscale k gr) =
  tscale (k * k) (k1_large_11 b L g gr).
Proof.
  unfold k1_large_11, tscale, vscale.
  cbn [c0 c1 c2 t00 t01 t02 t10 t11 t12 t20 t21 t22].
  unfold Q2R. cbn [QArith_base.Qnum QArith_base.Qden]. f_equal; ring.
Qed.






(** The term added to [K11] does not depend on the cross-section area,
    while the axial large-strain term is proportional to it: doubling the
    area doubles the strain term, and with it any derivative of it, and
    leaves the stiffness term as it was. *)
Lemma K11_large_ignores_area (x : VariableValue) (b : LayeredBeam) (L : R)
    (g gr a : RealVectorValue) :
  K11_large (with_area x b) L g gr a = K11_large b L g gr a.
Proof. reflexivity. Qed.

Lemma axial_strain_term_doubles_with_area (u : R) :
  let b := members large_strain_section in
  c0 (large_disp_strain_terms (with_area (constant 0.04) b) (axial_pull u)) =
  2 * c0 (large_disp_strain_terms b (axial_pull u)).
Proof.
  intros b.
  unfold large_disp_strain_terms, local_grad_disp, local_grad_rot,
    local_avg_rot, grad_disp_0, grad_rot_0, avg_rot, Ix_qp, tapply, vscale,
    vsub, axial_pull, identity, zero_vector.
  cbn. unfold constant, Q2R. cbn [QArith_base.Qnum QArith_base.Qden]. field.
Qed.

(** The term added to [K21] is not symmetric: for a unit axial gradient and
    a unit average rotation about the second axis its (1,0) entry is 1/32
    and its (0,1) entry -1/48. *)
Lemma K21_large_not_symmetric :
  let b := members large_strain_section in
  let K := K21_large b 1 (Vec 1 0 0) zero_vector (Vec 0 1 0) in
  t10 K = 1 / 32 /\ t01 K = - 1 / 48 /\ ~ symmetric K.
Proof.
  intros b K.
  assert (H10 : t10 K = 1 / 32).
  { unfold K, K21_large. cbn [tadd t10].
    unfold k1_large_21, k3_large_21. cbn [tscale t10].
    unfold zero_vector. cbn [c0 c1 c2].
    unfold Q2R. cbn [QArith_base.Qnum QArith_base.Qden]. field. }
  assert (H01 : t01 K = - 1 / 48).
  { unfold K, K21_large. cbn [tadd t01].
    unfold k1_large_21, k3_large_21. cbn [tscale t01].
    unfold zero_vector. cbn [c0 c1 c2].
    unfold Q2R. cbn [QArith_base.Qnum QArith_base.Qden]. field. }
  split; [exact H10 | split; [exact H01 |]].
  rewrite symmetric_iff. intros [H _]. rewrite H10, H01 in H. lra.
Qed.

(** * Further properties of the code *)

(** ** The return mapping of one layer *)

Lemma sign_times (x : R) : sign x * x = Rabs x.
Proof.
  destruct (Rle_lt_dec 0 x) as [H | H].
  - rewrite sign_nonneg by exact H. rewrite Rabs_pos_eq by exact H. ring.
  - rewrite sign_neg by exact H. rewrite Rabs_left by exact H. ring.
Qed.

Section ReturnMappingShape.

Variable flexure : R.
Hypothesis stiff : 0 < flexure.

(** The state a layer is left in, for an increment [c] of the plastic
    multiplier that is zero or the closed form. *)
Lemma mapped_layer_shape (T c h' : R) (old : LayerState) (se z : R) :
  T = direct_stress old + flexure * se * z ->
  0 <= c -> 0 <= Rabs T - flexure * c -> hardening_variable old <= h' ->
  let l := {| direct_stress :=
                direct_stress old + (se * z - c * sign T) * flexure;
              plastic_strain := plastic_strain old + c * sign T;
              hardening_variable := h' |} in
  Rabs (direct_stress l) <= Rabs T /\
  0 <= direct_stress l * T /\
  0 <= (plastic_strain l - plastic_strain old) * T /\
  hardening_variable old <= hardening_variable l /\
  direct_stress l = T - flexure * (plastic_strain l - plastic_strain old).
Proof.
  intros HT Hc Href Hh l. unfold l.
  cbn [direct_stress plastic_strain hardening_variable].
  replace (direct_stress old + (se * z - c * sign T) * flexure)
    with (T - c * sign T * flexure) by (rewrite HT; ring).
  pose proof (sign_times T) as Hs. pose proof (Rabs_pos T) as Hp.
  split; [| split; [| split; [| split]]].
  - rewrite (return_mapped_stress flexure T c Href). nra.
  - replace ((T - c * sign T * flexure) * T)
      with (T * T - c * flexure * (sign T * T)) by ring.
    rewrite Hs. replace (T * T) with (Rabs T * Rabs T).
    + nra.
    + unfold Rabs. destruct (Rcase_abs T); ring.
  - replace ((plastic_strain old + c * sign T - plastic_strain old) * T)
      with (c * (sign T * T)) by ring.
    rewrite Hs. nra.
  - exact Hh.
  - ring.
Qed.

End ReturnMappingShape.

Section ReturnedLayer.

Variable b : LayeredBeam.
Variable flexure : R.
Hypothesis linear : hardening_function b = None.
Hypothesis stiff : 0 < flexure.
Hypothesis hardens : 0 <= hardening_constant b.

(** What a returning update leaves, whichever iterate the solve returned. *)
Lemma layer_update_linear_returned (se z : R) (old l : LayerState) :
  admissible b old ->
  layer_update b flexure se z old = Done l ->
  (Rabs (direct_stress l) <= Rabs (direct_stress old + flexure * se * z) /\
   0 <= direct_stress l * (direct_stress old + flexure * se * z) /\
   0 <= (plastic_strain l - plastic_strain old) *
        (direct_stress old + flexure * se * z) /\
   hardening_variable old <= hardening_variable l /\
   direct_stress l =
     direct_stress old + flexure * se * z -
     flexure * (plastic_strain l - plastic_strain old)) /\
  (0 <= absolute_tolerance b ->
   Rabs (direct_stress l) - hardening_variable l - yield_stress b <=
     absolute_tolerance b).
Proof.
  intros Hadm Hrun. unfold admissible in Hadm.
  assert (Hden : flexure + hardening_constant b <> 0) by lra.
  unfold layer_update in Hrun.
  set (T := direct_stress old + flexure * se * z) in *.
  pose proof (Rabs_pos T) as Hp.
  destruct (Rgtb _ 0) eqn:Hy.
  - apply Rgtb_true_iff in Hy.
    destruct (newton_solve b flexure T old) as [st | e |] eqn:Hsolve;
      cbn [bind] in Hrun; try discriminate.
    injection Hrun as <-.
    set (c := closed_form_increment b flexure T old).
    assert (Hc : c * (flexure + hardening_constant b) =
                 Rabs T - yield_stress b - hardening_variable old).
    { unfold c, closed_form_increment. field. exact Hden. }
    assert (Hcpos : 0 < c).
    { apply Rmult_lt_reg_r with (flexure + hardening_constant b); [lra |].
      rewrite Hc. lra. }
    assert (Href : 0 <= Rabs T - flexure * c).
    { apply Rmult_le_reg_r with (flexure + hardening_constant b); [lra |]. nra. }
    destruct (linear_returned_state b flexure T old linear Hden st Hsolve)
      as [Hmet [[Hentry ->] |
                [_ [_ [Hdp [_ [[_ [Hh Hres]] | [_ [Hh Hres]]]]]]]]];
      try fold c in Hdp; try fold c in Hh; try fold c in Hres.
    + cbn [newton_init plastic_strain_increment hardening]. split.
      * apply (mapped_layer_shape flexure stiff T 0 (hardening_variable old) old
                 se z); [reflexivity | lra | lra | lra].
      * intros _. cbn [direct_stress hardening_variable].
        destruct Hentry as [Habs _].
        cbn [newton_init residual] in Habs. rewrite Rabs_le_iff in Habs.
        replace (direct_stress old + (se * z - 0 * sign T) * flexure) with T
          by (unfold T; ring).
        lra.
    + rewrite Hdp, Hh. split.
      * apply (mapped_layer_shape flexure stiff T c (hardening_variable old) old
                 se z); [reflexivity | lra | exact Href | lra].
      * intros _. cbn [direct_stress hardening_variable].
        destruct Hmet as [Habs _]. rewrite Hres, Rabs_le_iff in Habs.
        replace (direct_stress old + (se * z - c * sign T) * flexure)
          with (T - c * sign T * flexure) by (unfold T; ring).
        rewrite (return_mapped_stress flexure T c Href). lra.
    + rewrite Hdp, Hh. split.
      * apply (mapped_layer_shape flexure stiff T c
                 (hardening_variable old + hardening_constant b * c) old se z);
          [reflexivity | lra | exact Href | nra].
      * intros Habs. cbn [direct_stress hardening_variable].
        replace (direct_stress old + (se * z - c * sign T) * flexure)
          with (T - c * sign T * flexure) by (unfold T; ring).
        rewrite (return_mapped_stress flexure T c Href). nra.
  - apply Rgtb_false_iff in Hy. injection Hrun as <-.
    cbn [direct_stress plastic_strain hardening_variable].
    replace (direct_stress old + se * z * flexure) with T by (unfold T; ring).
    split; [| intros Habs; lra].
    repeat split; try lra; try nra.
Qed.

End ReturnedLayer.

(** The update of a layer returns or throws the non-convergence
    exception. *)
Lemma layer_update_returns_or_throws (b : LayeredBeam) (flexure se z : R)
    (old : LayerState) :
  (exists l, layer_update b flexure se z old = Done l) \/
  layer_update b flexure se z old =
    Throw (MooseException "LayeredBeam: Plasticity model did not converge").
Proof.
  unfold layer_update. destruct (Rgtb _ 0); [| left; eexists; reflexivity].
  destruct (newton_solve_outcome b flexure
              (direct_stress old + flexure * se * z) old)
    as [[j [_ [Hrun _]]] | [Hrun _]]; rewrite Hrun; cbn [bind].
  - left. eexists. reflexivity.
  - right. reflexivity.
Qed.

(** X1: with linear hardening, a positive modulus, a non-negative hardening
    constant, a non-negative absolute tolerance and a layer whose current
    yield strength is not negative, the update of a layer returns or throws
    the non-convergence exception, and a state [l] it returns has these
    properties, [T] being the trial stress: the new stress is not larger in
    magnitude than [T] and has not changed sign against it; the plastic
    strain moved in the direction of [T]; the hardening variable did not
    decrease; the new stress is [T] minus the modulus times the plastic
    strain increment; and the new state exceeds the yield condition by no
    more than the absolute tolerance. *)
Theorem return_mapping_relaxes_towards_yield
    (b : LayeredBeam) (flexure se z : R) (old : LayerState) :
  hardening_function b = None ->
  0 < flexure -> 0 <= hardening_constant b ->
  0 <= absolute_tolerance b ->
  admissible b old ->
  ((exists l, layer_update b flexure se z old = Done l) \/
   layer_update b flexure se z old =
     Throw (MooseException "LayeredBeam: Plasticity model did not converge")) /\
  forall l, layer_update b flexure se z old = Done l ->
    let T := direct_stress old + flexure * se * z in
    Rabs (direct_stress l) <= Rabs T /\
    0 <= direct_stress l * T /\
    0 <= (plastic_strain l - plastic_strain old) * T /\
    hardening_variable old <= hardening_variable l /\
    direct_stress l = T - flexure * (plastic_strain l - plastic_strain old) /\
    Rabs (direct_stress l) - hardening_variable l - yield_stress b <=
      absolute_tolerance b.
Proof.
  intros Hlin HE Hs Habs Hadm. split; [apply layer_update_returns_or_throws |].
  intros l Hrun T.
  destruct (layer_update_linear_returned b flexure Hlin HE Hs se z old l Hadm
              Hrun) as [[H1 [H2 [H3 [H4 H5]]]] H6].
  fold T in H1, H2, H3, H5.
  split; [exact H1 |]. split; [exact H2 |]. split; [exact H3 |].
  split; [exact H4 |]. split; [exact H5 | exact (H6 Habs)].
Qed.

(** X1, instance: the outermost layer of the scenario, from the initial state,
    under a curvature of 0.02 (trial stress -360, beyond the yield stress
    of 200): the update returns, and what it returns has the properties. *)
Lemma return_mapping_relaxes_towards_yield_witness :
  exists l, layer_update (members scenario) 2e5 0.02 (-0.09) virgin = Done l /\
    Rabs (direct_stress l) <= Rabs (0 + 2e5 * 0.02 * -0.09) /\
    hardening_variable virgin <= hardening_variable l /\
    Rabs (direct_stress l) - hardening_variable l - 200 <= 1e-10.
Proof.
  assert (Hadm : admissible (members scenario) virgin)
    by (unfold admissible; fields_of scenario; lra).
  destruct (layer_update_linear_at_rest (members scenario) 2e5) with
    (flexure' := 2e5) (se := 0.02) (z := -0.09) (old := virgin)
    as [l [Hrun _]];
    try (fields_of scenario; lra); try (fields_of scenario; lia);
    try reflexivity; try exact Hadm.
  destruct (return_mapping_relaxes_towards_yield (members scenario) 2e5 0.02
              (-0.09) virgin) as [_ Hprop].
  - reflexivity.
  - lra.
  - fields_of scenario. lra.
  - fields_of scenario. lra.
  - exact Hadm.
  - destruct (Hprop l Hrun) as [Hle [_ [_ [Hh [_ Hy]]]]].
    exists l. split; [exact Hrun |]. split; [exact Hle |].
    split; [exact Hh | exact Hy].
Defined.

(** ** The residual the loop tests *)

(** The residual left by a pass of the loop body is the residual before the
    pass, taken with the hardening value the pass computed, scaled by
    [slope / (flexure + slope)]: the hardening value is not recomputed for
    the new increment before the test. *)
Lemma residual_after_pass (b : LayeredBeam) (flexure T : R) (old : LayerState)
    (st : NewtonState) :
  let dp := plastic_strain_increment st in
  let slope := computeHardeningDerivative b old dp in
  flexure + slope <> 0 ->
  residual (newton_body b flexure T old st) =
    (Rabs T - computeHardeningValue b old dp - yield_stress b - flexure * dp) *
    (slope / (flexure + slope)).
Proof.
  intros dp slope Hden. unfold newton_body. cbn [residual].
  fold dp. fold slope. field. exact Hden.
Qed.

Lemma zero_residual_stops (b : LayeredBeam) (st : NewtonState) :
  0 <= absolute_tolerance b -> 0 <= relative_tolerance b ->
  residual st = 0 -> loop_condition b st = false.
Proof.
  intros Habs Hrel Hres. apply loop_condition_false_iff.
  unfold both_tolerances_met. rewrite Hres. split.
  - rewrite Rabs_R0. exact Habs.
  - destruct (Req_dec_T (reference_residual st) 0) as [Hz | Hnz].
    + right. split; [exact Hz | reflexivity].
    + left. split; [exact Hnz |].
      unfold Rdiv. rewrite Rmult_0_l, Rabs_R0. exact Hrel.
Qed.

(** The state after the first pass: the increment is the first Newton step,
    the hardening value is the one computed for a zero increment, and the
    residual is the one before the pass scaled by
    [slope / (flexure + slope)]. *)
Lemma first_pass_state (b : LayeredBeam) (flexure T : R) (old : LayerState) :
  flexure + computeHardeningDerivative b old 0 <> 0 ->
  plastic_strain_increment (newton_iterate b 1 flexure T old) =
    (Rabs T - computeHardeningValue b old 0 - yield_stress b) /
    (flexure + computeHardeningDerivative b old 0) /\
  hardening (newton_iterate b 1 flexure T old) = computeHardeningValue b old 0 /\
  residual (newton_iterate b 1 flexure T old) =
    (Rabs T - computeHardeningValue b old 0 - yield_stress b) *
    (computeHardeningDerivative b old 0 /
     (flexure + computeHardeningDerivative b old 0)).
Proof.
  intros Hden. split; [| split].
  - cbn [newton_iterate newton_init newton_body plastic_strain_increment].
    field. exact Hden.
  - reflexivity.
  - cbn [newton_iterate]. rewrite residual_after_pass.
    + cbn [newton_init plastic_strain_increment]. field. exact Hden.
    + cbn [newton_init plastic_strain_increment]. exact Hden.
Qed.

Lemma returned_after_one_pass (b : LayeredBeam) (flexure T : R)
    (old : LayerState) (st : NewtonState) :
  newton_solve b flexure T old = Done st -> iteration st = 1%nat ->
  st = newton_iterate b 1 flexure T old /\ both_tolerances_met b st.
Proof.
  intros Hrun Hone.
  destruct (newton_solve_done b flexure T old st Hrun)
    as [Hstop [_ [k [-> _]]]].
  rewrite iteration_newton_iterate in Hone. subst k.
  split; [reflexivity |]. apply loop_condition_false_iff. exact Hstop.
Qed.

(** X2: the hardening value a solve returns lags one pass behind its
    increment.  With [modulus + slope <> 0], [slope] being the hardening
    derivative at a zero increment and [r0] the residual
    [|T| - H - yield_stress] taken with the hardening value [H] at a zero
    increment: a solve that returns after exactly one pass returns the
    increment [r0 / (modulus + slope)], which is the first Newton step,
    together with the hardening value [H], which is the one for a zero
    increment (under the linear law the previous hardening variable,
    unchanged); the residual that met the tolerances is
    [r0 * slope / (modulus + slope)], the residual at the new increment
    taken with the hardening value [H]. *)
Theorem hardening_value_lags_one_pass
    (b : LayeredBeam) (flexure T : R) (old : LayerState) (st : NewtonState) :
  flexure + computeHardeningDerivative b old 0 <> 0 ->
  newton_solve b flexure T old = Done st ->
  iteration st = 1%nat ->
  let H := computeHardeningValue b old 0 in
  let slope := computeHardeningDerivative b old 0 in
  let r0 := Rabs T - H - yield_stress b in
  plastic_strain_increment st = r0 / (flexure + slope) /\
  hardening st = H /\
  (hardening_function b = None -> hardening st = hardening_variable old) /\
  residual st = r0 * (slope / (flexure + slope)) /\
  residual st = Rabs T - H - yield_stress b -
                flexure * plastic_strain_increment st /\
  Rabs (residual st) <= absolute_tolerance b.
Proof.
  intros Hden Hrun Hone H slope r0.
  destruct (returned_after_one_pass b flexure T old st Hrun Hone)
    as [-> [Hmet _]].
  destruct (first_pass_state b flexure T old Hden) as [Hdp [Hh Hres]].
  split; [exact Hdp |]. split; [exact Hh |].
  split; [| split; [exact Hres | split; [reflexivity | exact Hmet]]].
  intros Hlin. rewrite Hh. unfold computeHardeningValue. rewrite Hlin. ring.
Qed.

(** X2, instance: the scenario's layer with trial stress [200 + 1e-8].  The
    first pass leaves the residual [1e-8 * 1e3 / 201e3], within the
    absolute tolerance [1e-10]; the solve returns with a plastic strain
    increment and the hardening value [0] of the initial state. *)
Lemma hardening_value_lags_one_pass_witness :
  exists st, newton_solve (members scenario) 2e5 (200 + 1e-8) virgin = Done st /\
             iteration st = 1%nat /\
             plastic_strain_increment st = (Rabs (200 + 1e-8) - 0 - 200) / (2e5 + 1e3) /\
             hardening st = 0.
Proof.
  assert (Hden : 2e5 + computeHardeningDerivative (members scenario) virgin 0 <> 0).
  { unfold computeHardeningDerivative. fields_of scenario. lra. }
  assert (Hlin : hardening_function (members scenario) = None) by reflexivity.
  assert (Hden' : 2e5 + hardening_constant (members scenario) <> 0)
    by (fields_of scenario; lra).
  assert (Hrun : newton_solve (members scenario) 2e5 (200 + 1e-8) virgin =
                 Done (newton_iterate (members scenario) 1 2e5 (200 + 1e-8) virgin)).
  { apply newton_solve_first.
    - fields_of scenario. lia.
    - apply loop_condition_false_iff.
      destruct (linear_iterate_1 (members scenario) 2e5 (200 + 1e-8) virgin
                  Hlin Hden') as [_ [_ [Hres Href]]].
      unfold both_tolerances_met. rewrite Hres, Href.
      unfold closed_form_increment. fields_of scenario.
      rewrite (Rabs_pos_eq (200 + 1e-8)) by lra. split.
      + rewrite Rabs_le_iff. lra.
      + set (q := (200 + 1e-8 - 200 - 0) / (2e5 + 1e3)).
        assert (Hq : q * (2e5 + 1e3) = 1e-8).
        { unfold q, Rdiv. rewrite Rmult_assoc, Rinv_l by lra. lra. }
        left. split; [lra |]. rewrite Rabs_le_iff.
        set (r := 200 + 1e-8 - 0 - 200 - 2e5 * q).
        set (d := 200 + 1e-8 - 2e5 * q).
        assert (Hr : 0 <= r <= 1e-10) by (unfold r; lra).
        assert (Hd : 1 <= d) by (unfold d; lra).
        assert (Hinv : 0 < / d) by (apply Rinv_0_lt_compat; lra).
        assert (Hinv1 : / d <= 1).
        { rewrite <- Rinv_1. apply Rinv_le_contravar; lra. }
        unfold Rdiv. nra.
    - intros i Hi. assert (i = 0%nat) by lia. subst i.
      cbn [newton_iterate]. unfold loop_condition, newton_init.
      fields_of scenario. apply orb_true_iff. left. apply Rgtb_true_iff.
      rewrite (Rabs_pos_eq (200 + 1e-8)) by lra. rewrite Rabs_pos_eq; lra. }
  destruct (hardening_value_lags_one_pass (members scenario) 2e5 (200 + 1e-8)
              virgin _ Hden Hrun) as [Hdp [_ [Hh _]]].
  - apply iteration_newton_iterate.
  - eexists. split; [exact Hrun |]. split; [apply iteration_newton_iterate |].
    split.
    + rewrite Hdp. unfold computeHardeningValue, computeHardeningDerivative.
      fields_of scenario. f_equal. lra.
    + rewrite (Hh Hlin). reflexivity.
Defined.

(** ** A negative absolute tolerance *)

Lemma negative_tolerance_never_stops (b : LayeredBeam) (st : NewtonState) :
  absolute_tolerance b < 0 -> loop_condition b st = true.
Proof.
  intros Hneg. unfold loop_condition. apply orb_true_iff. left.
  apply Rgtb_true_iff. pose proof (Rabs_pos (residual st)). lra.
Qed.

Lemma layer_update_negative_tolerance (b : LayeredBeam) (flexure se z : R)
    (old : LayerState) :
  absolute_tolerance b < 0 ->
  (Rabs (direct_stress old + flexure * se * z) - hardening_variable old -
     yield_stress b > 0 /\
   layer_update b flexure se z old =
     Throw (MooseException "LayeredBeam: Plasticity model did not converge")) \/
  (Rabs (direct_stress old + flexure * se * z) - hardening_variable old -
     yield_stress b <= 0 /\
   exists l, layer_update b flexure se z old = Done l).
Proof.
  intros Hneg. unfold layer_update.
  destruct (Rgtb _ 0) eqn:Hy.
  - apply Rgtb_true_iff in Hy. left. split; [exact Hy |].
    destruct (newton_solve_outcome b flexure
                (direct_stress old + flexure * se * z) old)
      as [[j [_ [_ [Hstop _]]]] | [Hrun _]].
    + rewrite negative_tolerance_never_stops in Hstop by exact Hneg.
      discriminate.
    + rewrite Hrun. reflexivity.
  - apply Rgtb_false_iff in Hy. right. split; [exact Hy |].
    eexists. reflexivity.
Qed.

Lemma update_layers_negative_tolerance (b : LayeredBeam) (flexure se : R)
    (old : LayersOld) (n i j : nat) :
  absolute_tolerance b < 0 -> (j < n)%nat ->
  Rabs (direct_stress (old (i + j)%nat) +
        flexure * se * layer_offset b (i + j)) -
    hardening_variable (old (i + j)%nat) - yield_stress b > 0 ->
  update_layers b flexure se old n i =
    Throw (MooseException "LayeredBeam: Plasticity model did not converge").
Proof.
  intros Hneg. revert i j. induction n as [| n IH]; intros i j Hj Hy; [lia |].
  cbn [update_layers].
  destruct (layer_update_negative_tolerance b flexure se (layer_offset b i)
              (old i) Hneg) as [[_ Hrun] | [Hin [l Hrun]]];
    rewrite Hrun; cbn [bind]; [reflexivity |].
  destruct j as [| j].
  - rewrite Nat.add_0_r in Hy. lra.
  - rewrite (IH (S i) j); [reflexivity | lia |].
    replace (S i + j)%nat with (i + S j)%nat by lia. exact Hy.
Qed.

(** X3: with a negative absolute tolerance no Newton solve can stop: as soon as
    one layer exceeds its yield condition at the trial stress,
    [computeQpStress] throws the non-convergence exception. *)
Theorem negative_absolute_tolerance_throws
    (b : LayeredBeam) (flexure stretch stres0 : R) (old : LayersOld) (i : nat) :
  absolute_tolerance b < 0 ->
  (i < nlayers b)%nat ->
  Rabs (direct_stress (old i) + flexure * stretch * layer_offset b i) -
    hardening_variable (old i) - yield_stress b > 0 ->
  computeQpStress b flexure stretch stres0 old =
    Throw (MooseException "LayeredBeam: Plasticity model did not converge").
Proof.
  intros Hneg Hi Hy.
  pose proof (computeQpStress_refines b flexure stretch stres0 old) as Href.
  rewrite (update_layers_negative_tolerance b flexure stretch old (nlayers b)
             0 i Hneg Hi Hy) in Href.
  exact Href.
Qed.

(** X3, instance: the scenario with an absolute tolerance of -1e-10, under a
    curvature of 0.02 from the initial state; the outermost layer yields. *)
Lemma negative_absolute_tolerance_throws_witness :
  computeQpStress (with_absolute_tolerance (-1e-10) (members scenario))
    2e5 0.02 0 (fun _ => virgin) =
  Throw (MooseException "LayeredBeam: Plasticity model did not converge").
Proof.
  apply (negative_absolute_tolerance_throws
           (with_absolute_tolerance (-1e-10) (members scenario))
           2e5 0.02 0 (fun _ => virgin) 0).
  - unfold with_absolute_tolerance. cbn [absolute_tolerance]. lra.
  - unfold with_absolute_tolerance. fields_of scenario. lia.
  - unfold layer_offset, layer_thickness, with_absolute_tolerance.
    fields_of scenario. simpl INR.
    rewrite Rabs_left by lra. lra.
Defined.

(** ** A straight hardening function *)

Section AffineHardening.

Variable b : LayeredBeam.
Variables flexure T : R.
Variable old : LayerState.
Variable f : Function.
Variables f0 k : R.
Hypothesis curve : hardening_function b = Some f.
Hypothesis straight : forall x p, value f x p = f0 + k * x.
Hypothesis slope : forall x p, timeDerivative f x p = k.
Hypothesis denominator : flexure + k <> 0.

Let iter (j : nat) : NewtonState := newton_iterate b j flexure T old.
Let closed : R := (Rabs T - f0 - k * Rabs (plastic_strain old)) / (flexure + k).

Lemma affine_iterate_1 :
  plastic_strain_increment (iter 1) = closed /\
  hardening (iter 1) = f0 + k * Rabs (plastic_strain old) - yield_stress b.
Proof.
  unfold iter, closed. cbn [newton_iterate].
  unfold newton_body, computeHardeningValue, computeHardeningDerivative,
    newton_init.
  rewrite curve.
  cbn [plastic_strain_increment hardening residual reference_residual].
  rewrite straight, slope. split; [field; assumption | ring].
Qed.

Lemma affine_iterate_2 :
  plastic_strain_increment (iter 2) = closed /\
  hardening (iter 2) =
    f0 + k * (Rabs (plastic_strain old) + closed) - yield_stress b /\
  residual (iter 2) = 0.
Proof.
  unfold iter, closed. cbn [newton_iterate].
  unfold newton_body, computeHardeningValue, computeHardeningDerivative,
    newton_init.
  rewrite curve.
  cbn [plastic_strain_increment hardening residual reference_residual].
  rewrite !straight, !slope. repeat split; try ring; field; assumption.
Qed.

Lemma affine_newton_solve :
  0 <= absolute_tolerance b -> 0 <= relative_tolerance b ->
  (2 <= max_its b)%nat ->
  loop_condition b (iter 0) = true ->
  exists st, newton_solve b flexure T old = Done st /\
             (1 <= iteration st <= 2)%nat /\
             plastic_strain_increment st = closed /\
             (iteration st = 2%nat ->
              hardening st =
                value f (Rabs (plastic_strain old) + closed) zero_vector -
                yield_stress b).
Proof.
  intros Habs Hrel Hcap Henter.
  destruct (loop_condition b (iter 1)) eqn:Hone.
  - exists (iter 2). split; [| split; [| split]].
    + apply newton_solve_first; [lia | |].
      * apply zero_residual_stops; try assumption. apply affine_iterate_2.
      * intros i Hi. destruct i as [| [| i]]; [exact Henter | exact Hone | lia].
    + unfold iter. rewrite iteration_newton_iterate. lia.
    + apply affine_iterate_2.
    + intros _. rewrite straight. apply affine_iterate_2.
  - exists (iter 1). split; [| split; [| split]].
    + apply newton_solve_first; [lia | exact Hone |].
      intros i Hi. destruct i as [| i]; [exact Henter | lia].
    + unfold iter. rewrite iteration_newton_iterate. lia.
    + apply affine_iterate_1.
    + unfold iter. rewrite iteration_newton_iterate. discriminate.
Qed.

(** A pass made at the closed-form increment leaves the increment where it
    is and takes the hardening value from the line at the new accumulated
    plastic strain. *)
Lemma affine_pass_at_closed_form (st : NewtonState) :
  plastic_strain_increment st = closed ->
  plastic_strain_increment (newton_body b flexure T old st) = closed /\
  hardening (newton_body b flexure T old st) =
    f0 + k * (Rabs (plastic_strain old) + closed) - yield_stress b /\
  residual (newton_body b flexure T old st) = 0.
Proof.
  intros Hdp.
  unfold newton_body, computeHardeningValue, computeHardeningDerivative.
  rewrite curve, Hdp.
  cbn [plastic_strain_increment hardening residual reference_residual].
  rewrite !straight, !slope. unfold closed.
  repeat split; try ring; field; assumption.
Qed.

Lemma affine_iterate_later (j : nat) :
  (1 <= j)%nat ->
  plastic_strain_increment (iter j) = closed /\
  ((2 <= j)%nat ->
   hardening (iter j) =
     f0 + k * (Rabs (plastic_strain old) + closed) - yield_stress b /\
   residual (iter j) = 0).
Proof.
  induction j as [| j IH]; intros Hj; [lia |].
  destruct j as [| j].
  - split; [apply affine_iterate_1 | intros H2; lia].
  - destruct IH as [Hdp _]; [lia |].
    destruct (affine_pass_at_closed_form (iter (S j)) Hdp) as [Hdp' [Hh Hres]].
    change (iter (S (S j))) with (newton_body b flexure T old (iter (S j))).
    split; [exact Hdp' |]. intros _. split; [exact Hh | exact Hres].
Qed.

Lemma affine_returned_state (st : NewtonState) :
  newton_solve b flexure T old = Done st -> (1 <= iteration st)%nat ->
  plastic_strain_increment st = closed /\
  (iteration st = 1%nat ->
   hardening st =
     value f (Rabs (plastic_strain old)) zero_vector - yield_stress b) /\
  ((2 <= iteration st)%nat ->
   hardening st =
     value f (Rabs (plastic_strain old) + closed) zero_vector - yield_stress b).
Proof.
  intros Hrun Hit.
  destruct (newton_solve_done b flexure T old st Hrun) as [_ [_ [j [-> _]]]].
  rewrite iteration_newton_iterate in Hit |- *.
  destruct (affine_iterate_later j Hit) as [Hdp Hlater].
  split; [exact Hdp |]. split.
  - intros ->. rewrite straight. destruct affine_iterate_1 as [_ Hh]. exact Hh.
  - intros H2. rewrite straight. apply Hlater. exact H2.
Qed.

End AffineHardening.

(** A solve returns or throws the non-convergence exception. *)
Lemma newton_solve_total (b : LayeredBeam) (flexure T : R) (old : LayerState) :
  (exists st, newton_solve b flexure T old = Done st) \/
  newton_solve b flexure T old =
    Throw (MooseException "LayeredBeam: Plasticity model did not converge").
Proof.
  destruct (newton_solve_outcome b flexure T old)
    as [[j [_ [Hrun _]]] | [Hrun _]].
  - left. eexists. exact Hrun.
  - right. exact Hrun.
Qed.

(** X4: with a hardening function that is a straight line [f0 + k * x] and
    reports [k] as its derivative, and with [flexure + k <> 0], every pass
    of the loop leaves the increment
    [(|T| - f0 - k * |plastic strain|) / (flexure + k)]: the function is
    evaluated at the magnitude of the previous plastic strain, and the
    stored hardening variable of the previous step does not enter the
    increment.  The solve returns or throws the non-convergence exception;
    a solve that returns after at least one pass returns this increment,
    with the hardening value of the function at the previous plastic
    strain after one pass and at the new accumulated plastic strain after
    more, each minus the yield stress. *)
Theorem straight_hardening_function_closed_form
    (b : LayeredBeam) (flexure T : R) (old : LayerState) (f : Function)
    (f0 k : R) :
  hardening_function b = Some f ->
  (forall x p, value f x p = f0 + k * x) ->
  (forall x p, timeDerivative f x p = k) ->
  flexure + k <> 0 ->
  let closed := (Rabs T - f0 - k * Rabs (plastic_strain old)) / (flexure + k) in
  (forall j, (1 <= j)%nat ->
     plastic_strain_increment (newton_iterate b j flexure T old) = closed) /\
  ((exists st, newton_solve b flexure T old = Done st) \/
   newton_solve b flexure T old =
     Throw (MooseException "LayeredBeam: Plasticity model did not converge")) /\
  (forall st, newton_solve b flexure T old = Done st ->
     (1 <= iteration st)%nat ->
     plastic_strain_increment st = closed /\
     (iteration st = 1%nat ->
      hardening st =
        value f (Rabs (plastic_strain old)) zero_vector - yield_stress b) /\
     ((2 <= iteration st)%nat ->
      hardening st =
        value f (Rabs (plastic_strain old) + closed) zero_vector -
        yield_stress b)).
Proof.
  intros Hcurve Hline Hslope Hden closed. split; [| split].
  - intros j Hj.
    apply (affine_iterate_later b flexure T old f f0 k Hcurve Hline Hslope Hden
             j Hj).
  - apply newton_solve_total.
  - intros st Hrun Hit.
    apply (affine_returned_state b flexure T old f f0 k); assumption.
Qed.

(** X4, instance: the curve [200 + 1e3 * x], trial stress -360 on a layer in
    its initial state: the solve returns, with the increment of the
    line. *)
Lemma straight_hardening_function_closed_form_witness :
  exists st, newton_solve (members with_affine_curve) 2e5 (-360) virgin = Done st /\
             plastic_strain_increment st =
               (Rabs (-360) - 200 - 1e3 * Rabs 0) / (2e5 + 1e3).
Proof.
  destruct (affine_newton_solve (members with_affine_curve) 2e5 (-360) virgin
              (affine_curve 200 1e3) 200 1e3) as [st [Hrun [Hit _]]].
  - reflexivity.
  - intros x p. reflexivity.
  - intros x p. reflexivity.
  - lra.
  - fields_of with_affine_curve. lra.
  - fields_of with_affine_curve. lra.
  - fields_of with_affine_curve. lia.
  - unfold loop_condition, newton_init. cbn [newton_iterate].
    unfold newton_init. fields_of with_affine_curve.
    apply orb_true_iff. left. apply Rgtb_true_iff.
    rewrite (Rabs_left (-360)) by lra. rewrite Rabs_pos_eq; lra.
  - destruct (straight_hardening_function_closed_form (members with_affine_curve)
                2e5 (-360) virgin (affine_curve 200 1e3) 200 1e3)
      as [_ [_ Hret]].
    + reflexivity.
    + intros x p. reflexivity.
    + intros x p. reflexivity.
    + lra.
    + destruct (Hret st Hrun) as [Hdp _]; [lia |].
      exists st. split; [exact Hrun | exact Hdp].
Defined.

(** ** The elastic response of the layered section *)

(** A layer within its yield condition at the trial stress is updated
    elastically. *)
Lemma layer_update_elastic (b : LayeredBeam) (flexure se z : R)
    (old : LayerState) :
  Rabs (direct_stress old + flexure * se * z) - hardening_variable old -
    yield_stress b <= 0 ->
  layer_update b flexure se z old =
    Done (Layer (direct_stress old + se * z * flexure) (plastic_strain old)
                (hardening_variable old)).
Proof.
  intros Hin. unfold layer_update.
  destruct (Rgtb _ 0) eqn:Hy; [apply Rgtb_true_iff in Hy; lra | reflexivity].
Qed.

Lemma layer_offset_S (b : LayeredBeam) (i : nat) :
  layer_offset b (S i) = layer_offset b i + layer_thickness b.
Proof. unfold layer_offset. rewrite S_INR. ring. Qed.

(** Sum of the squared centroid offsets of layers [i], ..., [i + n - 1]. *)
Lemma offset_squares (b : LayeredBeam) (n i : nat) :
  6 * fold_right Rplus 0 (map (fun j => layer_offset b j ^ 2) (seq i n)) =
  6 * INR n * layer_offset b i ^ 2 +
  6 * layer_offset b i * layer_thickness b * INR n * (INR n - 1) +
  layer_thickness b ^ 2 * (INR n - 1) * INR n * (2 * INR n - 1).
Proof.
  revert i. induction n as [| n IH]; intros i.
  - cbn [seq map fold_right]. simpl INR. ring.
  - cbn [seq map fold_right].
    rewrite Rmult_plus_distr_l, IH, layer_offset_S, S_INR. ring.
Qed.

(** The midpoint rule applied to [z^2] over the depth: the second moment of
    the layered section falls short of [width * depth^3 / 12] by the factor
    [1 - 1 / N^2]. *)
Lemma layered_second_moment (b : LayeredBeam) :
  (1 <= nlayers b)%nat ->
  width b * layer_thickness b *
    fold_right Rplus 0 (map (fun j => layer_offset b j ^ 2) (seq 0 (nlayers b))) =
  width b * depth b ^ 3 / 12 * (1 - 1 / INR (nlayers b) ^ 2).
Proof.
  intros HN.
  assert (Hx : INR (nlayers b) <> 0) by (apply not_0_INR; lia).
  pose proof (offset_squares b (nlayers b) 0) as H.
  apply Rmult_eq_reg_l with 6; [| lra].
  rewrite <- Rmult_assoc, (Rmult_comm 6), Rmult_assoc, H.
  unfold layer_offset, layer_thickness. simpl (INR 0).
  unfold Q2R; cbn [QArith_base.Qnum QArith_base.Qden].
  field. exact Hx.
Qed.

Lemma update_layers_elastic (b : LayeredBeam) (flexure se : R)
    (old : LayersOld) (n i : nat) :
  (forall j, (j < n)%nat ->
     Rabs (direct_stress (old (i + j)%nat) +
           flexure * se * layer_offset b (i + j)) -
       hardening_variable (old (i + j)%nat) - yield_stress b <= 0) ->
  update_layers b flexure se old n i =
    Done (map (fun j => Layer (direct_stress (old j) +
                               se * layer_offset b j * flexure)
                              (plastic_strain (old j))
                              (hardening_variable (old j)))
              (seq i n)).
Proof.
  revert i. induction n as [| n IH]; intros i Hel; [reflexivity |].
  cbn [update_layers seq map].
  rewrite layer_update_elastic.
  - cbn [bind]. rewrite IH; [reflexivity |].
    intros j Hj. replace (S i + j)%nat with (i + S j)%nat by lia.
    apply Hel. lia.
  - specialize (Hel 0%nat). rewrite Nat.add_0_r in Hel. apply Hel. lia.
Qed.

Lemma midpoint_moment_elastic (b : LayeredBeam) (flexure se : R)
    (old : LayersOld) (n i : nat) :
  midpoint_moment b i
    (map (fun j => Layer (direct_stress (old j) + se * layer_offset b j * flexure)
                         (plastic_strain (old j)) (hardening_variable (old j)))
         (seq i n)) =
  midpoint_moment b i (map old (seq i n)) +
  flexure * se *
    (width b * layer_thickness b *
     fold_right Rplus 0 (map (fun j => layer_offset b j ^ 2) (seq i n))).
Proof.
  revert i. induction n as [| n IH]; intros i.
  - cbn [seq map midpoint_moment fold_right]. ring.
  - cbn [seq map midpoint_moment fold_right direct_stress].
    rewrite IH. ring.
Qed.

(** X5: while no layer exceeds its yield condition at the trial stress, the
    call returns, every layer takes the stress increment
    [flexure * curvature * offset] and keeps its plastic strain and
    hardening variable, and the resultant grows by
    [flexure * curvature * (width * depth^3 / 12) * (1 - 1 / N^2)] over the
    midpoint moment of the previous stresses: the elastic bending
    stiffness of the layered section is that of the solid rectangle reduced
    by the factor [1 - 1 / N^2]. *)
Theorem elastic_moment_of_layered_section
    (b : LayeredBeam) (flexure stretch stres0 : R) (old : LayersOld) :
  (1 <= nlayers b)%nat ->
  (forall i, (i < nlayers b)%nat ->
     Rabs (direct_stress (old i) + flexure * stretch * layer_offset b i) -
       hardening_variable (old i) - yield_stress b <= 0) ->
  exists out,
    computeQpStress b flexure stretch stres0 old = Done out /\
    layers out =
      map (fun i => Layer (direct_stress (old i) +
                           stretch * layer_offset b i * flexure)
                          (plastic_strain (old i)) (hardening_variable (old i)))
          (seq 0 (nlayers b)) /\
    stres out =
      midpoint_moment b 0 (map old (seq 0 (nlayers b))) +
      flexure * stretch * (width b * depth b ^ 3 / 12 *
                           (1 - 1 / INR (nlayers b) ^ 2)).
Proof.
  intros HN Hel.
  pose proof (computeQpStress_refines b flexure stretch stres0 old) as Href.
  rewrite (update_layers_elastic b flexure stretch old (nlayers b) 0) in Href
    by (intros j Hj; apply Hel; exact Hj).
  destruct Href as [out [Hrun [Hlayers [Hmoment Hstres]]]].
  exists out. split; [exact Hrun |]. split; [exact Hlayers |].
  rewrite Hstres. destruct (nlayers b) as [| n] eqn:HNb; [lia |].
  rewrite Hmoment, midpoint_moment_elastic, <- HNb.
  rewrite layered_second_moment by lia. reflexivity.
Qed.

(** X5, instance: the scenario from the initial state under a curvature of
    0.01; the outermost layers reach a stress of 180, below the yield
    stress of 200. *)
Lemma elastic_moment_of_layered_section_witness :
  exists out,
    computeQpStress (members scenario) 2e5 0.01 0 (fun _ => virgin) = Done out /\
    stres out =
      midpoint_moment (members scenario) 0
        (map (fun _ => virgin) (seq 0 (nlayers (members scenario)))) +
      2e5 * 0.01 * (width (members scenario) * depth (members scenario) ^ 3 / 12 *
                    (1 - 1 / INR (nlayers (members scenario)) ^ 2)).
Proof.
  destruct (elastic_moment_of_layered_section (members scenario) 2e5 0.01 0
              (fun _ => virgin)) as [out [Hrun [_ Hres]]].
  - fields_of scenario. lia.
  - intros i Hi.
    assert (Hlo : 0 <= INR i) by apply pos_INR.
    assert (Hhi : INR i <= 9).
    { replace 9 with (INR 9) by (simpl; lra). apply le_INR.
      change (nlayers (members scenario)) with 10%nat in Hi. lia. }
    unfold layer_offset, layer_thickness. fields_of scenario.
    replace (INR 10) with 10 by (simpl; lra).
    assert (Hb : Rabs (0 + 2e5 * 0.01 * (-0.5 * 0.2 + 0.2 / 10 / 2 +
                                         INR i * (0.2 / 10))) <= 180).
    { rewrite Rabs_le_iff. lra. }
    lra.
  - exists out. split; [exact Hrun | exact Hres].
Defined.

(** ** One layer, and none *)

Lemma layer_update_on_axis (b : LayeredBeam) (flexure se : R) (old : LayerState) :
  layer_update b flexure se 0 old = layer_update b flexure 0 0 old.
Proof.
  unfold layer_update. rewrite !Rmult_0_r. reflexivity.
Qed.

Lemma single_layer_offset (b : LayeredBeam) :
  nlayers b = 1%nat -> layer_offset b 0 = 0.
Proof.
  intros HN. unfold layer_offset, layer_thickness. rewrite HN. simpl INR.
  unfold Q2R; cbn [QArith_base.Qnum QArith_base.Qden]. field.
Qed.

(** X6: with a single layer the only integration point lies on the neutral
    axis: the layer is updated as if the curvature were zero, whatever the
    curvature is, and the resultant written is zero. *)
Theorem single_layer_carries_no_moment
    (b : LayeredBeam) (flexure stretch stres0 : R) (old : LayersOld) :
  nlayers b = 1%nat ->
  match layer_update b flexure 0 0 (old 0%nat) with
  | Done l =>
      exists out, computeQpStress b flexure stretch stres0 old = Done out /\
                  layers out = [l] /\ stres out = 0
  | Throw e => computeQpStress b flexure stretch stres0 old = Throw e
  | Fuel => False
  end.
Proof.
  intros HN.
  pose proof (computeQpStress_refines b flexure stretch stres0 old) as Href.
  rewrite HN in Href. cbn [update_layers] in Href.
  rewrite (single_layer_offset b HN), layer_update_on_axis in Href.
  pose proof (layer_update_not_fuel b flexure 0 0 (old 0%nat)) as Hnf.
  destruct (layer_update b flexure 0 0 (old 0%nat)) as [l | e |];
    cbn [bind] in Href; [| exact Href | congruence].
  destruct Href as [out [Hrun [Hlayers [Hmoment Hstres]]]].
  exists out. split; [exact Hrun |]. split; [exact Hlayers |].
  rewrite Hstres, Hmoment. cbn [midpoint_moment].
  rewrite (single_layer_offset b HN). ring.
Qed.

(** X6, instance: the scenario's section as one layer, under a curvature of 1
    from the initial state: the layer stays as it is. *)
Lemma single_layer_carries_no_moment_witness :
  exists out, computeQpStress (members single_layer) 2e5 1 0 (fun _ => virgin)
              = Done out /\
              layers out = [Layer (0 + 0 * 0 * 2e5) 0 0] /\ stres out = 0.
Proof.
  pose proof (single_layer_carries_no_moment (members single_layer) 2e5 1 0
                (fun _ => virgin) eq_refl) as H.
  rewrite layer_update_elastic in H.
  - exact H.
  - fields_of single_layer. rewrite Rabs_pos_eq; lra.
Defined.

(** ** The layer offsets about the mid-depth *)

Lemma midpoint_moment_uniform (b : LayeredBeam) (s : R) (ls : list LayerState)
    (i : nat) :
  (forall l, In l ls -> direct_stress l = s) ->
  2 * midpoint_moment b i ls =
  s * width b * layer_thickness b *
    (2 * INR (List.length ls) * layer_offset b i +
     layer_thickness b * INR (List.length ls) * (INR (List.length ls) - 1)).
Proof.
  revert i. induction ls as [| l ls IH]; intros i Hall.
  - cbn [midpoint_moment List.length]. simpl INR. ring.
  - cbn [midpoint_moment]. change (List.length (l :: ls)) with (S (List.length ls)).
    rewrite Rmult_plus_distr_l, IH by (intros l' Hl'; apply Hall; now right).
    rewrite (Hall l) by now left.
    rewrite layer_offset_S, S_INR. ring.
Qed.

(** X7: for N >= 1 the centroid offsets mirror about the mid-depth (layer
    [N - 1 - i] sits opposite layer [i]), and a call that leaves the same
    direct stress in every layer writes a zero resultant: the integrator
    returns the moment about the mid-depth, to which a uniform stress does
    not contribute. *)
Theorem offsets_mirror_about_mid_depth (b : LayeredBeam) :
  (1 <= nlayers b)%nat ->
  (forall i, (i < nlayers b)%nat ->
     layer_offset b (nlayers b - 1 - i) = - layer_offset b i) /\
  (forall flexure stretch stres0 old out s,
     computeQpStress b flexure stretch stres0 old = Done out ->
     (forall l, In l (layers out) -> direct_stress l = s) ->
     stres out = 0).
Proof.
  intros HN. pose proof (layer_thickness_tiles b HN) as Htile. split.
  - intros i Hi. unfold layer_offset.
    rewrite !minus_INR by lia. simpl (INR 1). nra.
  - intros flexure stretch stres0 old out s Hrun Hall.
    destruct (returned_layers_and_moment b flexure stretch stres0 old out HN Hrun)
      as [Hlen Hres].
    pose proof (midpoint_moment_uniform b s (layers out) 0 Hall) as H.
    rewrite Hlen in H. rewrite Hres.
    unfold layer_offset in H. simpl (INR 0) in H. nra.
Qed.

(** X7, instance: the scenario; layers 0 and 9 sit opposite each other. *)
Lemma offsets_mirror_about_mid_depth_witness :
  layer_offset (members scenario) (nlayers (members scenario) - 1 - 0) =
  - layer_offset (members scenario) 0.
Proof.
  apply (offsets_mirror_about_mid_depth (members scenario));
    fields_of scenario; lia.
Defined.

(** X8: a section declared with zero layers passes the constructor;
    [computeQpStrain] then always returns, whatever the curvature, writes
    no layer, and leaves the stress resultant at the value it found. *)
Theorem no_layers_leave_resultant_untouched
    (p : InputParameters) (b : LayeredBeam) (q : QpInput) :
  construct p = Constructed b ->
  p_num_layers p = 0%nat ->
  exists out, computeQpStrain b q = Done out /\
              layers (stress out) = [] /\
              stres (stress out) = stres_entry q.
Proof.
  intros Hb HN. apply construct_members in Hb.
  assert (H0 : nlayers b = 0%nat) by (subst b; exact HN).
  unfold computeQpStrain, computeQpStress. rewrite H0.
  cbn [layer_loop bind]. eexists. split; [reflexivity |].
  cbn [stress layers stres]. split; reflexivity.
Qed.

(** X8, instance: the scenario's section declared without layers, bent by a
    unit curvature, with a resultant of 5 found on entry. *)
Lemma no_layers_leave_resultant_untouched_witness :
  exists out,
    computeQpStrain (members no_layer)
      (unit_beam_input (Vec 0 0 1) (fun _ => virgin) 5) = Done out /\
    layers (stress out) = [] /\
    stres (stress out) = 5.
Proof.
  apply (no_layers_leave_resultant_untouched no_layer (members no_layer)
           (unit_beam_input (Vec 0 0 1) (fun _ => virgin) 5));
    reflexivity.
Defined.

(** ** Rigid-body motion *)

Lemma vec_eq (u v : RealVectorValue) :
  c0 u = c0 v -> c1 u = c1 v -> c2 u = c2 v -> u = v.
Proof.
  destruct u, v. cbn [c0 c1 c2]. intros -> -> ->. reflexivity.
Qed.

(** X9: a rigid translation (both nodes displaced by the same increment, no
    rotation increment) produces no strain increment, in small-strain and
    in large-strain mode alike, and no curvature. *)
Theorem rigid_translation_gives_no_strain (b : LayeredBeam) (q : QpInput) :
  disp1 q = disp0 q ->
  rot0 q = zero_vector -> rot1 q = zero_vector ->
  disp_strain_increment b q = zero_vector /\
  rot_strain_increment b q = zero_vector /\
  c2 (local_grad_rot q) = 0.
Proof.
  intros Hd Hr0 Hr1.
  assert (Hg : local_grad_disp q = zero_vector).
  { unfold local_grad_disp, grad_disp_0. rewrite Hd.
    unfold tapply, vscale, vsub, zero_vector. cbn [c0 c1 c2].
    f_equal; ring. }
  assert (Hgr : local_grad_rot q = zero_vector).
  { unfold local_grad_rot, grad_rot_0. rewrite Hr0, Hr1.
    unfold tapply, vscale, vsub, zero_vector. cbn [c0 c1 c2].
    f_equal; ring. }
  assert (Ha : local_avg_rot q = zero_vector).
  { unfold local_avg_rot, avg_rot. rewrite Hr0, Hr1.
    unfold tapply, zero_vector. cbn [c0 c1 c2]. f_equal; ring. }
  split; [| split].
  - unfold disp_strain_increment, small_disp_strain, large_disp_strain_terms.
    rewrite Hg, Hgr, Ha. unfold zero_vector, vadd. cbn [c0 c1 c2].
    destruct (large_strain b); f_equal; ring.
  - unfold rot_strain_increment, small_rot_strain, large_rot_strain_terms.
    rewrite Hg, Hgr, Ha. unfold zero_vector, vadd. cbn [c0 c1 c2].
    destruct (large_strain b); f_equal; ring.
  - rewrite Hgr. reflexivity.
Qed.

(** X9, instance: the unit beam moved by (1, 2, 3) as a whole, in large-strain
    mode. *)
Lemma rigid_translation_gives_no_strain_witness :
  disp_strain_increment (members large_strain_section)
    (moved_beam (Vec 1 2 3) (Vec 1 2 3) zero_vector zero_vector) = zero_vector.
Proof.
  apply (rigid_translation_gives_no_strain (members large_strain_section)
           (moved_beam (Vec 1 2 3) (Vec 1 2 3) zero_vector zero_vector));
    reflexivity.
Defined.

(** X10: in small-strain mode an infinitesimal rigid rotation produces no strain
    increment either: both nodes rotate by [w] and node 1 moves against
    node 0 by [w x (L * axis)].  The frame is taken as
    [initQpStatefulProperties] builds it from a perpendicular [y]: a unit
    axis, [y] perpendicular to it, and their vector product as third
    row. *)
Theorem small_rigid_rotation_gives_no_strain
    (b : LayeredBeam) (q : QpInput) (w : RealVectorValue) :
  large_strain b = false ->
  original_length q <> 0 ->
  dot (axis_of (total_rotation q)) (axis_of (total_rotation q)) = 1 ->
  dot (axis_of (total_rotation q)) (y_of (total_rotation q)) = 0 ->
  z_of (total_rotation q) =
    cross (axis_of (total_rotation q)) (y_of (total_rotation q)) ->
  rot0 q = w -> rot1 q = w ->
  vsub (disp1 q) (disp0 q) =
    vscale (original_length q) (cross w (axis_of (total_rotation q))) ->
  disp_strain_increment b q = zero_vector /\
  rot_strain_increment b q = zero_vector /\
  c2 (local_grad_rot q) = 0.
Proof.
  intros Hsmall HL Hunit Hperp Hz Hr0 Hr1 Hd.
  destruct (total_rotation q) as [x0 x1 x2 y0 y1 y2 z0 z1 z2] eqn:HR.
  unfold axis_of, y_of, z_of, dot, cross in *.
  cbn [t00 t01 t02 t10 t11 t12 t20 t21 t22 c0 c1 c2] in *.
  injection Hz as -> -> ->.
  destruct w as [w0 w1 w2].
  assert (Hgr : local_grad_rot q = zero_vector).
  { unfold local_grad_rot, grad_rot_0. rewrite Hr0, Hr1.
    unfold tapply, vscale, vsub, zero_vector. cbn [c0 c1 c2].
    f_equal; ring. }
  assert (Ha : local_avg_rot q =
               tapply (total_rotation q) (Vec w0 w1 w2)).
  { unfold local_avg_rot, avg_rot. rewrite Hr0, Hr1. f_equal.
    cbn [c0 c1 c2]. f_equal; lra. }
  assert (Hg : local_grad_disp q =
               tapply (total_rotation q)
                 (cross (Vec w0 w1 w2) (Vec x0 x1 x2))).
  { unfold local_grad_disp, grad_disp_0. rewrite Hd. f_equal.
    unfold vscale, cross. cbn [c0 c1 c2]. f_equal; field; exact HL. }
  assert (Hx2 : x2 * x2 = 1 - x0 * x0 - x1 * x1) by lra.
  assert (Hxy : x2 * y2 = - x0 * y0 - x1 * y1) by lra.
  unfold disp_strain_increment, rot_strain_increment, small_disp_strain,
    small_rot_strain.
  rewrite Hsmall, Hg, Hgr, Ha, HR.
  unfold tapply, cross, zero_vector.
  cbn [t00 t01 t02 t10 t11 t12 t20 t21 t22 c0 c1 c2].
  assert (G0 : x0 * (w1 * x2 - w2 * x1) + x1 * (w2 * x0 - w0 * x2) +
               x2 * (w0 * x1 - w1 * x0) = 0) by ring.
  assert (G1 : y0 * (w1 * x2 - w2 * x1) + y1 * (w2 * x0 - w0 * x2) +
               y2 * (w0 * x1 - w1 * x0) =
               (x1 * y2 - x2 * y1) * w0 + (x2 * y0 - x0 * y2) * w1 +
               (x0 * y1 - x1 * y0) * w2) by ring.
  assert (G2 : (x1 * y2 - x2 * y1) * (w1 * x2 - w2 * x1) +
               (x2 * y0 - x0 * y2) * (w2 * x0 - w0 * x2) +
               (x0 * y1 - x1 * y0) * (w0 * x1 - w1 * x0) =
               - (y0 * w0 + y1 * w1 + y2 * w2)).
  { replace ((x1 * y2 - x2 * y1) * (w1 * x2 - w2 * x1) +
             (x2 * y0 - x0 * y2) * (w2 * x0 - w0 * x2) +
             (x0 * y1 - x1 * y0) * (w0 * x1 - w1 * x0))
      with ((x0 * w0 + x1 * w1 + x2 * w2) * (x0 * y0 + x1 * y1 + x2 * y2) -
            (x0 * x0 + x1 * x1 + x2 * x2) * (y0 * w0 + y1 * w1 + y2 * w2))
      by ring.
    rewrite Hunit, Hperp. ring. }
  rewrite G0, G1, G2.
  split; [| split]; [f_equal; ring | f_equal; ring | reflexivity].
Qed.

(** X10, instance: the unit beam along the global x axis turned by 1e-3 about
    the global z axis: node 1 moves by 1e-3 along y. *)
Lemma small_rigid_rotation_gives_no_strain_witness :
  disp_strain_increment (members scenario)
    (moved_beam zero_vector (Vec 0 1e-3 0) (Vec 0 0 1e-3) (Vec 0 0 1e-3))
  = zero_vector.
Proof.
  apply (small_rigid_rotation_gives_no_strain (members scenario)
           (moved_beam zero_vector (Vec 0 1e-3 0) (Vec 0 0 1e-3) (Vec 0 0 1e-3))
           (Vec 0 0 1e-3)).
  - reflexivity.
  - cbn [moved_beam original_length]. lra.
  - unfold dot, axis_of, moved_beam, identity.
    cbn [total_rotation t00 t01 t02 c0 c1 c2]. lra.
  - unfold dot, axis_of, y_of, moved_beam, identity.
    cbn [total_rotation t00 t01 t02 t10 t11 t12 c0 c1 c2]. lra.
  - unfold cross, axis_of, y_of, z_of, moved_beam, identity.
    cbn [total_rotation t00 t01 t02 t10 t11 t12 t20 t21 t22 c0 c1 c2].
    f_equal; lra.
  - reflexivity.
  - reflexivity.
  - unfold vsub, vscale, cross, axis_of, moved_beam, identity, zero_vector.
    cbn [total_rotation original_length disp0 disp1 t00 t01 t02 c0 c1 c2].
    f_equal; lra.
Defined.

(** ** Eigenstrains *)

Lemma remove_eigenstrains_sum (b : LayeredBeam) (q : QpInput)
    (es : list Eigenstrain) (d r : RealVectorValue) :
  remove_eigenstrains b (with_eigenstrains es q) (d, r) =
  (vsub d (vscale (area b (qp q))
             (tapply (total_rotation q) (fst (eigen_increment es)))),
   vsub r (tapply (total_rotation q) (snd (eigen_increment es)))).
Proof.
  unfold remove_eigenstrains.
  cbn [with_eigenstrains eigenstrains qp total_rotation].
  revert d r. induction es as [| e es IH]; intros d r.
  - cbn [fold_left eigen_increment fold_right fst snd].
    f_equal; apply vec_eq;
      unfold vsub, vscale, tapply, zero_vector; cbn [c0 c1 c2]; ring.
  - cbn [fold_left]. rewrite IH.
    cbn [eigen_increment fold_right fst snd].
    fold (eigen_increment es).
    f_equal; apply vec_eq;
      unfold vsub, vscale, tapply, vadd; cbn [c0 c1 c2]; ring.
Qed.

(** X11: the named eigenstrains enter the mechanical strain increments and
    nothing else: against the same call without eigenstrains, the layer
    stresses, the resultant, both total strains and the effective stiffness
    are unchanged, and the mechanical increments are lowered by the sum of
    the eigenstrain increments rotated to the local frame (the displacement
    part multiplied by the area). *)
Theorem eigenstrains_enter_mechanical_increments_only
    (b : LayeredBeam) (q : QpInput) (es : list Eigenstrain) (out : QpOutput) :
  computeQpStrain b (with_eigenstrains [] q) = Done out ->
  exists out',
    computeQpStrain b (with_eigenstrains es q) = Done out' /\
    stress out' = stress out /\
    total_disp_strain out' = total_disp_strain out /\
    total_rot_strain out' = total_rot_strain out /\
    effective_stiffness out' = effective_stiffness out /\
    mech_disp_strain_increment out' =
      vsub (mech_disp_strain_increment out)
           (vscale (area b (qp q))
              (tapply (total_rotation q) (fst (eigen_increment es)))) /\
    mech_rot_strain_increment out' =
      vsub (mech_rot_strain_increment out)
           (tapply (total_rotation q) (snd (eigen_increment es))).
Proof.
  unfold computeQpStrain.
  change (local_grad_rot (with_eigenstrains es q))
    with (local_grad_rot (with_eigenstrains [] q)).
  cbn [with_eigenstrains material_flexure stres_entry layers_old].
  destruct (computeQpStress b _ _ _ _) as [s | e |]; cbn [bind];
    try discriminate.
  intros H. injection H as <-. eexists. split; [reflexivity |].
  cbn [stress total_disp_strain total_rot_strain effective_stiffness
       mech_disp_strain_increment mech_rot_strain_increment].
  change (disp_strain_increment b (with_eigenstrains es q))
    with (disp_strain_increment b (with_eigenstrains [] q)).
  change (rot_strain_increment b (with_eigenstrains es q))
    with (rot_strain_increment b (with_eigenstrains [] q)).
  rewrite (remove_eigenstrains_sum b q es).
  cbn [remove_eigenstrains with_eigenstrains eigenstrains fold_left fst snd].
  repeat split; reflexivity.
Qed.

(** X11, instance: the resting unit beam with one eigenstrain that grew to
    (1e-3, 0, 0). *)
Lemma eigenstrains_enter_mechanical_increments_only_witness :
  exists out out',
    computeQpStrain (members scenario)
      (with_eigenstrains [] (resting_input zero_vector zero_vector)) = Done out /\
    computeQpStrain (members scenario)
      (with_eigenstrains [grown_eigenstrain (Vec 1e-3 0 0)]
         (resting_input zero_vector zero_vector)) = Done out' /\
    stress out' = stress out /\
    total_disp_strain out' = total_disp_strain out.
Proof.
  destruct (virgin_call_returns (members scenario)
              (with_eigenstrains [] (resting_input zero_vector zero_vector)))
    as [out Hout].
  - fields_of scenario. lra.
  - reflexivity.
  - reflexivity.
  - intros i. reflexivity.
  - destruct (eigenstrains_enter_mechanical_increments_only (members scenario)
                (resting_input zero_vector zero_vector)
                [grown_eigenstrain (Vec 1e-3 0 0)] out Hout)
      as [out' [Hrun [Hs [Hd _]]]].
    exists out, out'. repeat split; assumption.
Defined.

(** ** What the layer stresses depend on *)

Lemma layer_loop_ext (b : LayeredBeam) (flexure se thick : R)
    (old old' : LayersOld) (n i : nat) (acc : LayerLoop) :
  (forall j, (j < n)%nat -> old (i + j)%nat = old' (i + j)%nat) ->
  layer_loop b n flexure se thick old i acc =
  layer_loop b n flexure se thick old' i acc.
Proof.
  revert i acc. induction n as [| n IH]; intros i acc Hext; [reflexivity |].
  cbn [layer_loop]. unfold layer_step.
  assert (Hi : old i = old' i).
  { specialize (Hext 0%nat). rewrite Nat.add_0_r in Hext. apply Hext. lia. }
  rewrite <- Hi.
  destruct (layer_update b flexure se (zmidl acc + thick / 2) (old i));
    cbn [bind]; try reflexivity.
  apply IH. intros j Hj. replace (S i + j)%nat with (i + S j)%nat by lia.
  apply Hext. lia.
Qed.

(** X12: the layer stresses and the resultant depend on the nodal motion only
    through the rotation increments: two calls that agree in frame, length,
    rotation increments, flexural modulus, previous layer states and the
    resultant found on entry have the same outcome for the layers (the same
    layers and resultant, or the same exception), whatever the
    displacement increments, eigenstrains, previous total strains,
    stiffness property, time and position are.  In particular an axial
    stretch of the beam never changes a layer stress. *)
Theorem layer_stresses_ignore_displacements
    (b : LayeredBeam) (q q' : QpInput) :
  total_rotation q = total_rotation q' ->
  original_length q = original_length q' ->
  rot0 q = rot0 q' -> rot1 q = rot1 q' ->
  c2 (material_flexure q) = c2 (material_flexure q') ->
  (forall i, (i < nlayers b)%nat -> layers_old q i = layers_old q' i) ->
  stres_entry q = stres_entry q' ->
  (o <- computeQpStrain b q ;; Done (stress o)) =
  (o <- computeQpStrain b q' ;; Done (stress o)).
Proof.
  intros HR HL H0 H1 HE Hold Hs.
  assert (Hk : c2 (local_grad_rot q) = c2 (local_grad_rot q')).
  { unfold local_grad_rot, grad_rot_0. rewrite HR, HL, H0, H1. reflexivity. }
  unfold computeQpStrain, computeQpStress.
  rewrite Hk, HE, Hs.
  rewrite (layer_loop_ext b _ _ _ (layers_old q) (layers_old q') (nlayers b) 0)
    by (intros j Hj; apply Hold; exact Hj).
  destruct (layer_loop b (nlayers b) _ _ _ (layers_old q') 0 _);
    reflexivity.
Qed.

(** X12, instance: the unit beam bent by a curvature of 0.02, at rest otherwise
    and with its nodes displaced by (1, 2, 3) and (4, 5, 6). *)
Lemma layer_stresses_ignore_displacements_witness :
  (o <- computeQpStrain (members scenario)
          (moved_beam zero_vector zero_vector zero_vector (Vec 0 0 0.02)) ;;
   Done (stress o)) =
  (o <- computeQpStrain (members scenario)
          (moved_beam (Vec 1 2 3) (Vec 4 5 6) zero_vector (Vec 0 0 0.02)) ;;
   Done (stress o)).
Proof.
  apply (layer_stresses_ignore_displacements (members scenario)
           (moved_beam zero_vector zero_vector zero_vector (Vec 0 0 0.02))
           (moved_beam (Vec 1 2 3) (Vec 4 5 6) zero_vector (Vec 0 0 0.02)));
    reflexivity.
Defined.

(** ** The small-strain stiffness blocks *)

Lemma tensor_eq (A B : RankTwoTensor) :
  t00 A = t00 B -> t01 A = t01 B -> t02 A = t02 B ->
  t10 A = t10 B -> t11 A = t11 B -> t12 A = t12 B ->
  t20 A = t20 B -> t21 A = t21 B -> t22 A = t22 B -> A = B.
Proof.
  destruct A, B. cbn [t00 t01 t02 t10 t11 t12 t20 t21 t22].
  intros -> -> -> -> -> -> -> -> ->. reflexivity.
Qed.

Ltac tensor_entries :=
  apply tensor_eq;
  cbn [rotate tmul transpose tadd topp tscale
       t00 t01 t02 t10 t11 t12 t20 t21 t22]; ring.

Lemma rotate_tadd (R A B : RankTwoTensor) :
  rotate R (tadd A B) = tadd (rotate R A) (rotate R B).
Proof. destruct R, A, B. tensor_entries. Qed.

Lemma rotate_topp (R A : RankTwoTensor) :
  rotate R (topp A) = topp (rotate R A).
Proof. destruct R, A. tensor_entries. Qed.

Lemma transpose_rotate (R A : RankTwoTensor) :
  transpose (rotate R A) = rotate R (transpose A).
Proof. destruct R, A. tensor_entries. Qed.

Lemma rotate_zero (R : RankTwoTensor) : rotate R zero_tensor = zero_tensor.
Proof. destruct R. unfold zero_tensor. tensor_entries. Qed.

Lemma tadd_zero_r (A : RankTwoTensor) : tadd A zero_tensor = A.
Proof. destruct A. unfold zero_tensor. tensor_entries. Qed.

(** The quadratic form of a rotated block is that of the local block at the
    rotated vector. *)
Lemma rotate_quadratic_form (R K : RankTwoTensor) (v : RealVectorValue) :
  dot v (tapply (rotate R K) v) = dot (tapply R v) (tapply K (tapply R v)).
Proof.
  destruct R, K, v. unfold dot, tapply, rotate, tmul, transpose.
  cbn [t00 t01 t02 t10 t11 t12 t20 t21 t22 c0 c1 c2]. ring.
Qed.

(** X13: in small-strain mode the blocks do not depend on the nodal motion; the
    cross block [K21_cross] is the negative of [K21], which is
    antisymmetric; and [K22] and [K22_cross] add up to the rotated shear
    term [2 * G * A * L / 4] on the two bending entries of the diagonal,
    the bending and torsion stiffnesses cancelling. *)
Theorem small_strain_blocks_structure
    (b : LayeredBeam) (stiffness : RealVectorValue) (L : R)
    (Rot : RankTwoTensor) (g gr a : RealVectorValue) :
  large_strain b = false ->
  let Ks := computeStiffnessMatrix b stiffness L Rot g gr a in
  (forall g' gr' a', computeStiffnessMatrix b stiffness L Rot g' gr' a' = Ks) /\
  K21_cross Ks = topp (K21 Ks) /\
  transpose (K21 Ks) = topp (K21 Ks) /\
  tadd (K22 Ks) (K22_cross Ks) =
    rotate Rot (Tensor 0 0 0
                       0 (2 * shear_modulus stiffness * A_avg b * L / 4) 0
                       0 0 (2 * shear_modulus stiffness * A_avg b * L / 4)).
Proof.
  intros Hsmall Ks. unfold Ks, computeStiffnessMatrix. rewrite Hsmall.
  unfold small_blocks. cbn [K21_cross K21 K22 K22_cross].
  split; [reflexivity |]. split; [reflexivity |]. split.
  - rewrite transpose_rotate, <- rotate_topp. f_equal.
    unfold K21_local. apply tensor_eq;
      cbn [transpose topp t00 t01 t02 t10 t11 t12 t20 t21 t22]; ring.
  - rewrite <- rotate_tadd. f_equal.
    unfold K22_local_cross, K22_local. apply tensor_eq;
      cbn [tadd topp t00 t01 t02 t10 t11 t12 t20 t21 t22]; ring.
Qed.

(** X13, instance: the scenario's section, a unit beam along the global axes. *)
Lemma small_strain_blocks_structure_witness :
  let Ks := computeStiffnessMatrix (members scenario) (Vec 2e5 8e4 8e4) 1
              identity zero_vector zero_vector zero_vector in
  K21_cross Ks = topp (K21 Ks) /\ transpose (K21 Ks) = topp (K21 Ks).
Proof.
  intros Ks.
  destruct (small_strain_blocks_structure (members scenario) (Vec 2e5 8e4 8e4)
              1 identity zero_vector zero_vector zero_vector eq_refl)
    as [_ [Hc [Ht _]]].
  split; [exact Hc | exact Ht].
Defined.

(** X14: for non-negative moduli and section properties and a positive length,
    the two diagonal blocks [K11] and [K22] of the small-strain stiffness
    are positive semi-definite, in any frame. *)
Theorem small_strain_diagonal_blocks_positive
    (b : LayeredBeam) (stiffness : RealVectorValue) (L : R)
    (Rot : RankTwoTensor) (g gr a v : RealVectorValue) :
  large_strain b = false ->
  0 <= youngs_modulus stiffness -> 0 <= shear_modulus stiffness ->
  0 <= A_avg b -> 0 <= Iy_avg b -> 0 <= Iz_avg b -> 0 <= Ix_avg b ->
  0 < L ->
  let Ks := computeStiffnessMatrix b stiffness L Rot g gr a in
  0 <= dot v (tapply (K11 Ks) v) /\ 0 <= dot v (tapply (K22 Ks) v).
Proof.
  intros Hsmall HE HG HA HIy HIz HIx HL Ks.
  unfold Ks, computeStiffnessMatrix. rewrite Hsmall. unfold small_blocks.
  cbn [K11 K22]. rewrite !rotate_quadratic_form.
  set (u := tapply Rot v). destruct u as [u0 u1 u2].
  unfold dot, tapply, K11_local, K22_local.
  cbn [t00 t01 t02 t10 t11 t12 t20 t21 t22 c0 c1 c2].
  assert (HiL : 0 < / L) by (apply Rinv_0_lt_compat; exact HL).
  assert (HEA : 0 <= youngs_modulus stiffness * A_avg b / L).
  { unfold Rdiv. apply Rmult_le_pos; [apply Rmult_le_pos |]; lra. }
  assert (HGA : 0 <= shear_modulus stiffness * A_avg b / L).
  { unfold Rdiv. apply Rmult_le_pos; [apply Rmult_le_pos |]; lra. }
  assert (HGI : 0 <= shear_modulus stiffness * Ix_avg b / L).
  { unfold Rdiv. apply Rmult_le_pos; [apply Rmult_le_pos |]; lra. }
  assert (HEz : 0 <= youngs_modulus stiffness * Iz_avg b / L +
                     shear_modulus stiffness * A_avg b * L / 4).
  { unfold Rdiv. apply Rplus_le_le_0_compat;
      [apply Rmult_le_pos; [apply Rmult_le_pos |]
      | apply Rmult_le_pos; [apply Rmult_le_pos; [apply Rmult_le_pos |] |]];
      lra. }
  assert (HEy : 0 <= youngs_modulus stiffness * Iy_avg b / L +
                     shear_modulus stiffness * A_avg b * L / 4).
  { unfold Rdiv. apply Rplus_le_le_0_compat;
      [apply Rmult_le_pos; [apply Rmult_le_pos |]
      | apply Rmult_le_pos; [apply Rmult_le_pos; [apply Rmult_le_pos |] |]];
      lra. }
  pose proof (Rle_0_sqr u0) as S0. pose proof (Rle_0_sqr u1) as S1.
  pose proof (Rle_0_sqr u2) as S2. unfold Rsqr in S0, S1, S2.
  split.
  - replace (u0 * (youngs_modulus stiffness * A_avg b / L * u0 + 0 * u1 + 0 * u2) +
             u1 * (0 * u0 + shear_modulus stiffness * A_avg b / L * u1 + 0 * u2) +
             u2 * (0 * u0 + 0 * u1 + shear_modulus stiffness * A_avg b / L * u2))
      with (youngs_modulus stiffness * A_avg b / L * (u0 * u0) +
            shear_modulus stiffness * A_avg b / L * (u1 * u1) +
            shear_modulus stiffness * A_avg b / L * (u2 * u2)) by ring.
    repeat apply Rplus_le_le_0_compat; apply Rmult_le_pos; assumption.
  - replace (u0 * (shear_modulus stiffness * Ix_avg b / L * u0 + 0 * u1 + 0 * u2) +
             u1 * (0 * u0 +
                   (youngs_modulus stiffness * Iz_avg b / L +
                    shear_modulus stiffness * A_avg b * L / 4) * u1 + 0 * u2) +
             u2 * (0 * u0 + 0 * u1 +
                   (youngs_modulus stiffness * Iy_avg b / L +
                    shear_modulus stiffness * A_avg b * L / 4) * u2))
      with (shear_modulus stiffness * Ix_avg b / L * (u0 * u0) +
            (youngs_modulus stiffness * Iz_avg b / L +
             shear_modulus stiffness * A_avg b * L / 4) * (u1 * u1) +
            (youngs_modulus stiffness * Iy_avg b / L +
             shear_modulus stiffness * A_avg b * L / 4) * (u2 * u2)) by ring.
    repeat apply Rplus_le_le_0_compat; apply Rmult_le_pos; assumption.
Qed.

(** X14, instance: the scenario's section, a unit beam along the global axes,
    tested with the vector (1, 2, 3). *)
Lemma small_strain_diagonal_blocks_positive_witness :
  let Ks := computeStiffnessMatrix (members scenario) (Vec 2e5 8e4 8e4) 1
              identity zero_vector zero_vector zero_vector in
  0 <= dot (Vec 1 2 3) (tapply (K11 Ks) (Vec 1 2 3)) /\
  0 <= dot (Vec 1 2 3) (tapply (K22 Ks) (Vec 1 2 3)).
Proof.
  apply (small_strain_diagonal_blocks_positive (members scenario)
           (Vec 2e5 8e4 8e4) 1 identity zero_vector zero_vector zero_vector
           (Vec 1 2 3)).
  - reflexivity.
  - unfold youngs_modulus. cbn [c0]. lra.
  - unfold shear_modulus. cbn [c1]. lra.
  - unfold A_avg. fields_of scenario. lra.
  - unfold Iy_avg. fields_of scenario. lra.
  - unfold Iz_avg. fields_of scenario. lra.
  - unfold Ix_avg, Iy_avg, Iz_avg. fields_of scenario. cbn [negb]. lra.
  - lra.
Defined.

(** ** The large-strain stiffness without motion *)

Lemma large_terms_vanish (b : LayeredBeam) (L : R) :
  L <> 0 ->
  K11_large b L zero_vector zero_vector zero_vector = zero_tensor /\
  K22_large b L zero_vector zero_vector zero_vector = zero_tensor /\
  K21_large b L zero_vector zero_vector zero_vector = zero_tensor /\
  K21_cross_large b L zero_vector zero_vector zero_vector = zero_tensor /\
  K22_cross_large b L zero_vector zero_vector zero_vector = zero_tensor.
Proof.
  intros HL.
  assert (H1 : k1_large_11 b L zero_vector zero_vector = zero_tensor).
  { unfold k1_large_11, zero_vector, zero_tensor, tscale.
    cbn [c0 c1 c2 t00 t01 t02 t10 t11 t12 t20 t21 t22]. f_equal; ring. }
  assert (H2 : k2_large_11 L zero_vector = zero_tensor).
  { unfold k2_large_11, zero_vector, zero_tensor, tscale.
    cbn [c0 c1 c2 t00 t01 t02 t10 t11 t12 t20 t21 t22]. f_equal; ring. }
  assert (H3 : k1_large_21 b L zero_vector zero_vector = zero_tensor).
  { unfold k1_large_21, zero_vector, zero_tensor, tscale.
    cbn [c0 c1 c2 t00 t01 t02 t10 t11 t12 t20 t21 t22]. f_equal; ring. }
  assert (H4 : k1_large_22 b L zero_vector zero_vector = zero_tensor).
  { unfold k1_large_22, zero_vector, zero_tensor, tscale.
    cbn [c0 c1 c2 t00 t01 t02 t10 t11 t12 t20 t21 t22]. f_equal; ring. }
  assert (H5 : k2_large_22 b L zero_vector = zero_tensor).
  { unfold k2_large_22, zero_vector, zero_tensor, tscale.
    cbn [c0 c1 c2 t00 t01 t02 t10 t11 t12 t20 t21 t22]. f_equal; ring. }
  assert (H6 : k3_large_21 L zero_vector zero_vector = zero_tensor).
  { unfold k3_large_21, zero_vector, zero_tensor, tscale.
    cbn [c0 c1 c2 t00 t01 t02 t10 t11 t12 t20 t21 t22]. f_equal; ring. }
  assert (H7 : k3_large_22 b L zero_vector zero_vector zero_vector = zero_tensor).
  { unfold k3_large_22, k3_large_22_first, k4_large_22, zero_vector,
      zero_tensor, tscale, tadd, transpose.
    cbn [c0 c1 c2 t00 t01 t02 t10 t11 t12 t20 t21 t22]. f_equal; ring. }
  unfold K11_large, K22_large, K21_large, K21_cross_large, K22_cross_large.
  rewrite H1, H2, H3, H4, H5, H6, H7.
  unfold zero_tensor, tadd, topp.
  cbn [t00 t01 t02 t10 t11 t12 t20 t21 t22].
  repeat split; f_equal; ring.
Qed.

Lemma blocks_without_motion
    (b : LayeredBeam) (stiffness : RealVectorValue) (L : R)
    (Rot : RankTwoTensor) :
  L <> 0 ->
  computeStiffnessMatrix b stiffness L Rot zero_vector zero_vector zero_vector =
  small_blocks b stiffness L Rot.
Proof.
  intros HL. unfold computeStiffnessMatrix.
  destruct (large_strain b); [| reflexivity].
  destruct (large_terms_vanish b L HL) as [H11 [H22 [H21 [H21c H22c]]]].
  rewrite H11, H22, H21, H21c, H22c, rotate_zero, !tadd_zero_r.
  destruct (small_blocks b stiffness L Rot). reflexivity.
Qed.

(** X15: with all three local kinematic vectors zero (no nodal motion in the
    step) and a non-zero length, the large-strain terms vanish: the five
    blocks are the small-strain blocks, in large-strain mode as well. *)
Theorem stiffness_without_motion_is_small_strain
    (b : LayeredBeam) (stiffness : RealVectorValue) (L : R)
    (Rot : RankTwoTensor) :
  L <> 0 ->
  computeStiffnessMatrix b stiffness L Rot zero_vector zero_vector zero_vector =
  small_blocks b stiffness L Rot.
Proof.
  intros HL. apply blocks_without_motion. exact HL.
Qed.

(** X15, instance: the scenario's section in large-strain mode, unit length. *)
Lemma stiffness_without_motion_is_small_strain_witness :
  computeStiffnessMatrix (members large_strain_section) (Vec 2e5 8e4 8e4) 1
    identity zero_vector zero_vector zero_vector =
  small_blocks (members large_strain_section) (Vec 2e5 8e4 8e4) 1 identity.
Proof.
  apply (stiffness_without_motion_is_small_strain
           (members large_strain_section) (Vec 2e5 8e4 8e4) 1 identity).
  lra.
Defined.

(** ** The constructor *)

(** X16: the constructor accepts exactly the inputs with as many displacement as
    rotation variables that, in large-strain mode, have no positive first
    moment of area at the first two entries of [Ay] and [Az]; the object it
    builds is the one of the member initialisers.  A mismatch of the counts
    is reported first, whatever the moments are. *)
Theorem constructor_accepts_exactly (p : InputParameters) :
  (forall b, construct p = Constructed b <->
     b = members p /\
     p_displacements p = p_rotations p /\
     (p_large_strain p = true ->
      p_Ay p 0%nat <= 0 /\ p_Ay p 1%nat <= 0 /\
      p_Az p 0%nat <= 0 /\ p_Az p 1%nat <= 0)) /\
  (p_displacements p <> p_rotations p ->
   construct p =
     mooseError "LayeredBeam: The number of variables supplied in 'displacements' and 'rotations' must match.").
Proof.
  unfold construct. cbn [members ndisp nrot large_strain Ay Az].
  destruct (Nat.eqb_spec (p_displacements p) (p_rotations p)) as [Heq | Hne];
    cbn [negb].
  - split; [| intros H; contradiction].
    intros b. destruct (p_large_strain p); cbn [andb].
    + destruct (Rgtb (p_Ay p 0%nat) 0) eqn:H0; cbn [orb].
      { apply Rgtb_true_iff in H0. split; [discriminate |].
        intros [_ [_ H]]. specialize (H eq_refl). lra. }
      destruct (Rgtb (p_Ay p 1%nat) 0) eqn:H1; cbn [orb].
      { apply Rgtb_true_iff in H1. split; [discriminate |].
        intros [_ [_ H]]. specialize (H eq_refl). lra. }
      destruct (Rgtb (p_Az p 0%nat) 0) eqn:H2; cbn [orb].
      { apply Rgtb_true_iff in H2. split; [discriminate |].
        intros [_ [_ H]]. specialize (H eq_refl). lra. }
      destruct (Rgtb (p_Az p 1%nat) 0) eqn:H3.
      { apply Rgtb_true_iff in H3. split; [discriminate |].
        intros [_ [_ H]]. specialize (H eq_refl). lra. }
      apply Rgtb_false_iff in H0, H1, H2, H3. split.
      * intros H. injection H as <-. repeat split; try assumption.
      * intros [-> _]. reflexivity.
    + split.
      * intros H. injection H as <-.
        split; [reflexivity |]. split; [exact Heq | discriminate].
      * intros [-> _]. reflexivity.
  - split; [| reflexivity].
    intros b. split; [discriminate |]. intros [_ [H _]]. contradiction.
Qed.

(** ** The initial frame *)

Lemma norm_sqr (v : RealVectorValue) : norm v * norm v = dot v v.
Proof.
  unfold norm, dot. apply sqrt_sqrt.
  pose proof (Rle_0_sqr (c0 v)) as H0. pose proof (Rle_0_sqr (c1 v)) as H1.
  pose proof (Rle_0_sqr (c2 v)) as H2. unfold Rsqr in *. lra.
Qed.

Lemma norm_pos (v : RealVectorValue) : v <> zero_vector -> 0 < norm v.
Proof.
  intros Hv. unfold norm. apply sqrt_lt_R0.
  destruct v as [a b c]. cbn [c0 c1 c2].
  pose proof (Rle_0_sqr a) as Ha. pose proof (Rle_0_sqr b) as Hb.
  pose proof (Rle_0_sqr c) as Hc. unfold Rsqr in *.
  destruct (Rle_lt_dec (a * a + b * b + c * c) 0) as [Hle | Hlt];
    [| exact Hlt].
  exfalso. apply Hv.
  assert (a * a = 0) by lra. assert (b * b = 0) by lra.
  assert (c * c = 0) by lra.
  unfold zero_vector. f_equal; apply Rsqr_0_uniq; assumption.
Qed.

Lemma normalised_unit (v : RealVectorValue) :
  v <> zero_vector -> dot (vdiv v (norm v)) (vdiv v (norm v)) = 1.
Proof.
  intros Hv. pose proof (norm_pos v Hv) as Hn. pose proof (norm_sqr v) as Hs.
  unfold dot, vdiv in *. cbn [c0 c1 c2].
  replace (c0 v / norm v * (c0 v / norm v) + c1 v / norm v * (c1 v / norm v) +
           c2 v / norm v * (c2 v / norm v))
    with ((c0 v * c0 v + c1 v * c1 v + c2 v * c2 v) / (norm v * norm v))
    by (field; lra).
  rewrite <- Hs. field. lra.
Qed.

Lemma normalised_dot (u v : RealVectorValue) :
  u <> zero_vector -> v <> zero_vector ->
  dot (vdiv u (norm u)) (vdiv v (norm v)) = dot u v / (norm u * norm v).
Proof.
  intros Hu Hv. pose proof (norm_pos u Hu). pose proof (norm_pos v Hv).
  unfold dot, vdiv. cbn [c0 c1 c2]. field. lra.
Qed.

(** The frame with unit rows [x] and [y] and their vector product as third
    row: its Gram matrix, [s] being the scalar product of [x] and [y]. *)
Lemma frame_gram (x y : RealVectorValue) :
  dot x x = 1 -> dot y y = 1 ->
  let z := cross x y in
  let m := Tensor (c0 x) (c1 x) (c2 x) (c0 y) (c1 y) (c2 y)
                  (c0 z) (c1 z) (c2 z) in
  tmul m (transpose m) =
    Tensor 1 (dot x y) 0
           (dot x y) 1 0
           0 0 (1 - dot x y * dot x y).
Proof.
  destruct x as [x0 x1 x2], y as [y0 y1 y2]. unfold dot, cross.
  cbn [c0 c1 c2]. intros Hx Hy. unfold tmul, transpose.
  cbn [c0 c1 c2 t00 t01 t02 t10 t11 t12 t20 t21 t22].
  apply tensor_eq; cbn [t00 t01 t02 t10 t11 t12 t20 t21 t22];
    try ring; try lra.
  replace ((x1 * y2 - x2 * y1) * (x1 * y2 - x2 * y1) +
           (x2 * y0 - x0 * y2) * (x2 * y0 - x0 * y2) +
           (x0 * y1 - x1 * y0) * (x0 * y1 - x1 * y0))
    with ((x0 * x0 + x1 * x1 + x2 * x2) * (y0 * y0 + y1 * y1 + y2 * y2) -
          (x0 * y0 + x1 * y1 + x2 * y2) * (x0 * y0 + x1 * y1 + x2 * y2))
    by ring.
  rewrite Hx, Hy. ring.
Qed.

(** For perpendicular unit rows the frame is orthogonal from the other
    side as well. *)
Lemma frame_orthogonal (x y : RealVectorValue) :
  dot x x = 1 -> dot y y = 1 -> dot x y = 0 ->
  let z := cross x y in
  let m := Tensor (c0 x) (c1 x) (c2 x) (c0 y) (c1 y) (c2 y)
                  (c0 z) (c1 z) (c2 z) in
  tmul (transpose m) m = identity.
Proof.
  destruct x as [x0 x1 x2], y as [y0 y1 y2]. unfold dot, cross.
  cbn [c0 c1 c2]. intros Hx Hy Hxy. unfold tmul, transpose, identity.
  cbn [c0 c1 c2 t00 t01 t02 t10 t11 t12 t20 t21 t22].
  set (a := x0 * x0 + x1 * x1 + x2 * x2 - 1).
  set (d := y0 * y0 + y1 * y1 + y2 * y2 - 1).
  set (c := x0 * y0 + x1 * y1 + x2 * y2).
  assert (Ha : a = 0) by (unfold a; lra).
  assert (Hd : d = 0) by (unfold d; lra).
  assert (Hc : c = 0) by (unfold c; lra).
  apply tensor_eq; cbn [t00 t01 t02 t10 t11 t12 t20 t21 t22].
  - transitivity (1 + a * (d + 1 - y0 * y0) + (1 - x0 * x0) * d +
                  c * (2 * x0 * y0 - c)); [unfold a, d, c; ring |].
    rewrite Ha, Hd, Hc. ring.
  - transitivity (- (x0 * x1) * d - y0 * y1 * a + c * (x1 * y0 + x0 * y1));
      [unfold a, d, c; ring |]. rewrite Ha, Hd, Hc. ring.
  - transitivity (- (x0 * x2) * d - y0 * y2 * a + c * (x2 * y0 + x0 * y2));
      [unfold a, d, c; ring |]. rewrite Ha, Hd, Hc. ring.
  - transitivity (- (x0 * x1) * d - y0 * y1 * a + c * (x1 * y0 + x0 * y1));
      [unfold a, d, c; ring |]. rewrite Ha, Hd, Hc. ring.
  - transitivity (1 + a * (d + 1 - y1 * y1) + (1 - x1 * x1) * d +
                  c * (2 * x1 * y1 - c)); [unfold a, d, c; ring |].
    rewrite Ha, Hd, Hc. ring.
  - transitivity (- (x1 * x2) * d - y1 * y2 * a + c * (x2 * y1 + x1 * y2));
      [unfold a, d, c; ring |]. rewrite Ha, Hd, Hc. ring.
  - transitivity (- (x0 * x2) * d - y0 * y2 * a + c * (x2 * y0 + x0 * y2));
      [unfold a, d, c; ring |]. rewrite Ha, Hd, Hc. ring.
  - transitivity (- (x1 * x2) * d - y1 * y2 * a + c * (x2 * y1 + x1 * y2));
      [unfold a, d, c; ring |]. rewrite Ha, Hd, Hc. ring.
  - transitivity (1 + a * (d + 1 - y2 * y2) + (1 - x2 * x2) * d +
                  c * (2 * x2 * y2 - c)); [unfold a, d, c; ring |].
    rewrite Ha, Hd, Hc. ring.
Qed.

(** The scalar product of the two normalised directions exceeds a bound in
    magnitude exactly when that of the directions exceeds the bound times
    their lengths. *)
Lemma normalised_dot_bound (u v : RealVectorValue) (tol : R) :
  u <> zero_vector -> v <> zero_vector ->
  (Rabs (dot (vdiv u (norm u)) (vdiv v (norm v))) > tol <->
   Rabs (dot u v) > tol * (norm u * norm v)).
Proof.
  intros Hu Hv. pose proof (norm_pos u Hu) as Hnu.
  pose proof (norm_pos v Hv) as Hnv.
  assert (Hn : 0 < norm u * norm v) by (apply Rmult_lt_0_compat; assumption).
  rewrite (normalised_dot u v Hu Hv).
  unfold Rdiv. rewrite Rabs_mult, (Rabs_pos_eq (/ (norm u * norm v)))
    by (left; apply Rinv_0_lt_compat; exact Hn).
  split; intros H.
  - apply Rmult_lt_reg_r with (/ (norm u * norm v));
      [apply Rinv_0_lt_compat; exact Hn |].
    replace (tol * (norm u * norm v) * / (norm u * norm v)) with tol
      by (field; lra).
    exact H.
  - apply Rmult_lt_compat_r with (r := / (norm u * norm v)) in H;
      [| apply Rinv_0_lt_compat; exact Hn].
    replace (tol * (norm u * norm v) * / (norm u * norm v)) with tol in H
      by (field; lra).
    exact H.
Qed.

Lemma initial_frame_rejected (b : LayeredBeam) (dxyzdxi y_param : RealVectorValue) :
  dxyzdxi <> zero_vector -> y_param <> zero_vector ->
  Rabs (dot dxyzdxi y_param) > 1e-4 * (norm dxyzdxi * norm y_param) ->
  initQpStatefulProperties b dxyzdxi y_param =
    mooseError "LayeredBeam: y_orientation should be perpendicular to the axis of the beam.".
Proof.
  intros Hx Hy H. unfold initQpStatefulProperties.
  apply (normalised_dot_bound dxyzdxi y_param 1e-4 Hx Hy) in H.
  unfold dot in H. apply Rgtb_true_iff in H. rewrite H. reflexivity.
Qed.

Lemma initial_frame_accepted (b : LayeredBeam) (dxyzdxi y_param : RealVectorValue) :
  dxyzdxi <> zero_vector -> y_param <> zero_vector ->
  Rabs (dot dxyzdxi y_param) <= 1e-4 * (norm dxyzdxi * norm y_param) ->
  exists st, initQpStatefulProperties b dxyzdxi y_param = Constructed st.
Proof.
  intros Hx Hy H. unfold initQpStatefulProperties.
  destruct (Rgtb _ 1e-4) eqn:Hc.
  - apply Rgtb_true_iff in Hc.
    apply (normalised_dot_bound dxyzdxi y_param 1e-4 Hx Hy) in Hc. lra.
  - eexists. reflexivity.
Qed.

(** X17: for non-zero directions, [initQpStatefulProperties] raises its error
    exactly when the scalar product of the element tangent and
    [y_orientation] exceeds [1e-4] times the product of their lengths in
    magnitude, and sets the properties up otherwise: the test is on the
    cosine of the angle, so directions up to [1e-4] off the perpendicular
    pass. *)
Theorem orientation_check
    (b : LayeredBeam) (dxyzdxi y_param : RealVectorValue) :
  dxyzdxi <> zero_vector -> y_param <> zero_vector ->
  (initQpStatefulProperties b dxyzdxi y_param =
     mooseError "LayeredBeam: y_orientation should be perpendicular to the axis of the beam."
   <-> Rabs (dot dxyzdxi y_param) > 1e-4 * (norm dxyzdxi * norm y_param)) /\
  ((exists st, initQpStatefulProperties b dxyzdxi y_param = Constructed st)
   <-> Rabs (dot dxyzdxi y_param) <= 1e-4 * (norm dxyzdxi * norm y_param)).
Proof.
  intros Hx Hy.
  destruct (Rle_lt_dec (Rabs (dot dxyzdxi y_param))
                       (1e-4 * (norm dxyzdxi * norm y_param))) as [Hle | Hgt].
  - destruct (initial_frame_accepted b dxyzdxi y_param Hx Hy Hle) as [st Hst].
    split; split; intros H.
    + rewrite Hst in H. discriminate.
    + lra.
    + exact Hle.
    + exists st. exact Hst.
  - pose proof (initial_frame_rejected b dxyzdxi y_param Hx Hy Hgt) as Hrej.
    split; split; intros H.
    + exact Hgt.
    + exact Hrej.
    + destruct H as [st Hst]. rewrite Hrej in Hst. discriminate.
    + lra.
Qed.

Lemma norm_unit_x : norm (Vec 1 0 0) = 1.
Proof.
  unfold norm. cbn [c0 c1 c2].
  replace (1 * 1 + 0 * 0 + 0 * 0) with 1 by ring. apply sqrt_1.
Qed.

Lemma norm_unit_y : norm (Vec 0 1 0) = 1.
Proof.
  unfold norm. cbn [c0 c1 c2].
  replace (0 * 0 + 1 * 1 + 0 * 0) with 1 by ring. apply sqrt_1.
Qed.

(** X17, instance: a [y_orientation] along the axis of the beam is rejected. *)
Lemma orientation_check_witness :
  initQpStatefulProperties (members scenario) (Vec 1 0 0) (Vec 1 0 0) =
  mooseError "LayeredBeam: y_orientation should be perpendicular to the axis of the beam.".
Proof.
  apply (orientation_check (members scenario) (Vec 1 0 0) (Vec 1 0 0)).
  - intros H. apply (f_equal c0) in H. cbn in H. lra.
  - intros H. apply (f_equal c0) in H. cbn in H. lra.
  - rewrite norm_unit_x. unfold dot. cbn [c0 c1 c2].
    rewrite Rabs_pos_eq; lra.
Defined.

(** X18: what a successful [initQpStatefulProperties] leaves, for non-zero
    directions.  The first two rows of the frame are unit vectors whose
    scalar product [s] is at most [1e-4] in magnitude, the third row is
    their vector product, perpendicular to both and of squared length
    [1 - s^2]: the rows are orthonormal only when [s] is zero, and then the
    frame is an orthogonal matrix.  The total rotation is that frame, the
    [N] layers, the resultant, the curvature and both total strains are
    zero. *)
Theorem initial_properties
    (b : LayeredBeam) (dxyzdxi y_param : RealVectorValue)
    (st : StatefulProperties) :
  dxyzdxi <> zero_vector -> y_param <> zero_vector ->
  initQpStatefulProperties b dxyzdxi y_param = Constructed st ->
  let m := original_local_config st in
  let s := dot (axis_of m) (y_of m) in
  s = dot dxyzdxi y_param / (norm dxyzdxi * norm y_param) /\
  Rabs s <= 1e-4 /\
  tmul m (transpose m) = Tensor 1 s 0 s 1 0 0 0 (1 - s * s) /\
  (s = 0 -> tmul (transpose m) m = identity) /\
  init_total_rotation st = m /\
  init_layers st = repeat (Layer 0 0 0) (nlayers b) /\
  init_stres st = 0 /\ init_total_stretch st = 0 /\
  init_total_disp_strain st = zero_vector /\
  init_total_rot_strain st = zero_vector.
Proof.
  intros Hx Hy. unfold initQpStatefulProperties.
  set (x := vdiv dxyzdxi (norm dxyzdxi)).
  set (y := vdiv y_param (norm y_param)).
  change (c0 x * c0 y + c1 x * c1 y + c2 x * c2 y) with (dot x y).
  pose proof (normalised_unit dxyzdxi Hx) as Ux. fold x in Ux.
  pose proof (normalised_unit y_param Hy) as Uy. fold y in Uy.
  pose proof (normalised_dot dxyzdxi y_param Hx Hy) as Hd. fold x y in Hd.
  clearbody x y.
  destruct (Rgtb (Rabs (dot x y)) 1e-4) eqn:Hc; [discriminate |].
  apply Rgtb_false_iff in Hc.
  intros H. injection H as <-.
  pose proof (frame_gram x y Ux Uy) as Hg.
  pose proof (frame_orthogonal x y Ux Uy) as Ho.
  unfold cross in Hg, Ho. cbv zeta in Hg, Ho.
  cbn [original_local_config init_total_rotation init_layers init_stres
       init_total_stretch init_total_disp_strain init_total_rot_strain
       axis_of y_of t00 t01 t02 t10 t11 t12 c0 c1 c2] in *.
  cbv zeta. fold (dot x y).
  split; [exact Hd |]. split; [exact Hc |]. split; [exact Hg |].
  split; [intros Hs; apply Ho; exact Hs |].
  repeat split; reflexivity.
Qed.

(** X18, instance: a beam along the global x axis with [y_orientation] along
    the global y axis. *)
Lemma initial_properties_witness :
  exists st,
    initQpStatefulProperties (members scenario) (Vec 1 0 0) (Vec 0 1 0)
    = Constructed st /\
    tmul (transpose (original_local_config st)) (original_local_config st)
    = identity /\
    init_layers st = repeat (Layer 0 0 0) 10.
Proof.
  assert (Hx : Vec 1 0 0 <> zero_vector).
  { intros H. apply (f_equal c0) in H. cbn in H. lra. }
  assert (Hy : Vec 0 1 0 <> zero_vector).
  { intros H. apply (f_equal c1) in H. cbn in H. lra. }
  destruct (initial_frame_accepted (members scenario) (Vec 1 0 0) (Vec 0 1 0)
              Hx Hy) as [st Hst].
  - rewrite norm_unit_x, norm_unit_y. unfold dot. cbn [c0 c1 c2].
    rewrite Rabs_pos_eq; lra.
  - destruct (initial_properties (members scenario) (Vec 1 0 0) (Vec 0 1 0) st
                Hx Hy Hst) as [Hs [_ [_ [Ho [_ [Hl _]]]]]].
    exists st. split; [exact Hst |]. split; [| exact Hl].
    apply Ho. rewrite Hs. unfold dot. cbn [c0 c1 c2]. unfold Rdiv. ring.
Defined.

(** ** The element call *)

(** The loop over the coupled components assigns the first [n] components
    and leaves the others as they were. *)
Lemma assign_from_components (n : nat) (f : nat -> R) (v : RealVectorValue) :
  (n <= 3)%nat ->
  assign_from 0 n f v =
    Vec (if (0 <? n)%nat then f 0%nat else c0 v)
        (if (1 <? n)%nat then f 1%nat else c1 v)
        (if (2 <? n)%nat then f 2%nat else c2 v).
Proof.
  intros Hn. destruct v as [a b c].
  destruct n as [| [| [| [| n]]]]; try lia; reflexivity.
Qed.

Lemma assign_from_zero (n : nat) (f : nat -> R) (v : RealVectorValue) :
  (n <= 3)%nat ->
  (forall i, (i < n)%nat -> f i = 0) ->
  (forall i, (n <= i)%nat -> component v i = 0) ->
  assign_from 0 n f v = zero_vector.
Proof.
  intros Hn Hf Hv. rewrite assign_from_components by exact Hn.
  unfold zero_vector. f_equal.
  - destruct (Nat.ltb_spec 0 n); [apply Hf; lia | apply (Hv 0%nat); lia].
  - destruct (Nat.ltb_spec 1 n); [apply Hf; lia | apply (Hv 1%nat); lia].
  - destruct (Nat.ltb_spec 2 n); [apply Hf; lia | apply (Hv 2%nat); lia].
Qed.

(** Every quadrature point of an element sees the same three local
    kinematic vectors. *)
Lemma qp_input_kinematics (b : LayeredBeam) (e : ElementInput) (k : nat)
    (d : QpData) :
  let L := element_length b e in
  let m := nodal_increments b e in
  local_grad_disp (qp_input b e k d) =
    tapply (element_local_config e)
           (vscale (1 / L) (vsub (m_disp1 m) (m_disp0 m))) /\
  local_grad_rot (qp_input b e k d) =
    tapply (element_local_config e)
           (vscale (1 / L) (vsub (m_rot1 m) (m_rot0 m))) /\
  local_avg_rot (qp_input b e k d) =
    tapply (element_local_config e)
           (Vec (0.5 * (c0 (m_rot0 m) + c0 (m_rot1 m)))
                (0.5 * (c1 (m_rot0 m) + c1 (m_rot1 m)))
                (0.5 * (c2 (m_rot0 m) + c2 (m_rot1 m)))).
Proof. repeat split; reflexivity. Qed.

Lemma quadrature_loop_done (b : LayeredBeam) (e : ElementInput)
    (ds : list QpData) (k : nat) (os : list QpOutput) :
  quadrature_loop b e k ds = Done os ->
  Forall2 (fun d o => exists j, computeQpStrain b (qp_input b e j d) = Done o)
          ds os.
Proof.
  revert k os. induction ds as [| d ds IH]; intros k os; cbn [quadrature_loop].
  - intros H. injection H as <-. constructor.
  - destruct (computeQpStrain b (qp_input b e k d)) as [o | ex |] eqn:Ho;
      cbn [bind]; try discriminate.
    destruct (quadrature_loop b e (S k) ds) as [os' | ex |] eqn:Hos;
      cbn [bind]; try discriminate.
    intros H. injection H as <-. constructor.
    + exists k. exact Ho.
    + apply (IH (S k)). exact Hos.
Qed.

Lemma computeQpStrain_kinematics (b : LayeredBeam) (q : QpInput) (o : QpOutput) :
  computeQpStrain b q = Done o ->
  grad_disp_0_local_t o = local_grad_disp q /\
  grad_rot_0_local_t o = local_grad_rot q /\
  avg_rot_local_t o = local_avg_rot q /\
  total_stretch o = c2 (local_grad_rot q).
Proof.
  unfold computeQpStrain.
  destruct (computeQpStress b _ _ _ _) as [s | ex |]; cbn [bind];
    try discriminate.
  intros H. injection H as <-. repeat split; reflexivity.
Qed.

Lemma quadrature_loop_throw (b : LayeredBeam) (e : ElementInput)
    (ds : list QpData) (k j : nat) (d : QpData) (ex : exception) :
  nth_error ds j = Some d ->
  (forall i d', (i < j)%nat -> nth_error ds i = Some d' ->
     exists o, computeQpStrain b (qp_input b e (k + i) d') = Done o) ->
  computeQpStrain b (qp_input b e (k + j) d) = Throw ex ->
  quadrature_loop b e k ds = Throw ex.
Proof.
  revert k j. induction ds as [| d0 ds IH]; intros k j Hnth Hbefore Hthrow.
  - destruct j; discriminate.
  - cbn [quadrature_loop]. destruct j as [| j].
    + injection Hnth as ->. rewrite Nat.add_0_r in Hthrow.
      rewrite Hthrow. reflexivity.
    + destruct (Hbefore 0%nat d0) as [o Ho]; [lia | reflexivity |].
      rewrite Nat.add_0_r in Ho. rewrite Ho. cbn [bind].
      rewrite (IH (S k) j); [reflexivity | exact Hnth | |].
      * intros i d' Hi Hd'.
        replace (S k + i)%nat with (k + S i)%nat by lia.
        apply Hbefore; [lia | exact Hd'].
      * replace (S k + j)%nat with (k + S j)%nat by lia. exact Hthrow.
Qed.

(** A quadrature point without nodal increments whose layers are at rest:
    the call returns, keeps the layers and the total displacement strain,
    and leaves zero kinematic vectors. *)
Lemma resting_point (b : LayeredBeam) (q : QpInput) :
  disp0 q = zero_vector -> disp1 q = zero_vector ->
  rot0 q = zero_vector -> rot1 q = zero_vector ->
  (forall i, (i < nlayers b)%nat ->
     at_rest b (c2 (material_flexure q)) (layers_old q i)) ->
  exists o, computeQpStrain b q = Done o /\
    layers (stress o) = map (layers_old q) (seq 0 (nlayers b)) /\
    total_stretch o = 0 /\
    total_disp_strain o = total_disp_strain_old q /\
    grad_disp_0_local_t o = zero_vector /\
    grad_rot_0_local_t o = zero_vector /\
    avg_rot_local_t o = zero_vector.
Proof.
  intros Hd0 Hd1 Hr0 Hr1 Hrest.
  destruct (computeQpStrain_layers b q (map (layers_old q) (seq 0 (nlayers b))))
    as [o [Hrun [Hlayers _]]].
  - rewrite (zero_rotation_no_stretch q Hr0 Hr1).
    apply update_layers_at_rest. intros j Hj. apply Hrest. exact Hj.
  - exists o. split; [exact Hrun |]. split; [exact Hlayers |].
    destruct (computeQpStrain_kinematics b q o Hrun) as [Hg [Hgr [Ha Hk]]].
    destruct (computeQpStrain_done b q o Hrun) as [Htd _].
    destruct (local_vectors_at_rest q Hd0 Hd1 Hr0 Hr1) as [Zg [Zgr Za]].
    destruct (no_increment_no_strain b q Hd0 Hd1 Hr0 Hr1) as [Zd _].
    split; [rewrite Hk; apply zero_rotation_no_stretch; assumption |].
    split.
    + rewrite Htd, Zd. apply vec_eq;
        unfold vadd, tapply, zero_vector; cbn [c0 c1 c2]; ring.
    + rewrite Hg, Hgr, Ha, Zg, Zgr, Za. repeat split; reflexivity.
Qed.

Lemma unchanged_solution_increments (b : LayeredBeam) (e : ElementInput) :
  (ndisp b <= 3)%nat ->
  (forall i, (i < ndisp b)%nat ->
     component (sol_disp0 e) i = component (sol_old_disp0 e) i /\
     component (sol_disp1 e) i = component (sol_old_disp1 e) i /\
     component (sol_rot0 e) i = component (sol_old_rot0 e) i /\
     component (sol_rot1 e) i = component (sol_old_rot1 e) i) ->
  (forall i, (ndisp b <= i)%nat ->
     component (m_disp0 (increments_before e)) i = 0 /\
     component (m_disp1 (increments_before e)) i = 0 /\
     component (m_rot0 (increments_before e)) i = 0 /\
     component (m_rot1 (increments_before e)) i = 0) ->
  nodal_increments b e =
    no_increments.
Proof.
  intros Hn Hsol Hstale. unfold nodal_increments, no_increments.
  f_equal; apply assign_from_zero; try exact Hn;
    try (intros i Hi; destruct (Hsol i Hi) as [H0 [H1 [H2 H3]]];
         rewrite ?H0, ?H1, ?H2, ?H3; ring);
    intros i Hi; apply (Hstale i Hi).
Qed.

Lemma resting_quadrature (b : LayeredBeam) (e : ElementInput)
    (ds : list QpData) (k : nat) :
  nodal_increments b e =
    no_increments ->
  (forall d, In d ds -> forall i, (i < nlayers b)%nat ->
     at_rest b (c2 (d_material_flexure d)) (d_layers_old d i)) ->
  exists os, quadrature_loop b e k ds = Done os /\
    Forall2 (fun d o =>
               layers (stress o) = map (d_layers_old d) (seq 0 (nlayers b)) /\
               total_stretch o = 0 /\
               total_disp_strain o = d_total_disp_strain_old d /\
               grad_disp_0_local_t o = zero_vector /\
               grad_rot_0_local_t o = zero_vector /\
               avg_rot_local_t o = zero_vector) ds os.
Proof.
  intros Hm. revert k. induction ds as [| d ds IH]; intros k Hrest.
  - exists []. split; [reflexivity | constructor].
  - destruct (resting_point b (qp_input b e k d)) as [o [Ho Hprops]];
      try (cbn [qp_input disp0 disp1 rot0 rot1]; rewrite Hm; reflexivity).
    { intros i Hi. cbn [qp_input material_flexure layers_old].
      apply Hrest; [now left | exact Hi]. }
    destruct (IH (S k)) as [os [Hos Hall]].
    { intros d' Hd'. apply Hrest. now right. }
    exists (o :: os). split.
    + cbn [quadrature_loop]. rewrite Ho. cbn [bind]. rewrite Hos. reflexivity.
    + constructor; [exact Hprops | exact Hall].
Qed.

Lemma kinematics_after_last (e : ElementInput) (os : list QpOutput)
    (g gr a : RealVectorValue) :
  os <> [] ->
  (forall o, In o os ->
     grad_disp_0_local_t o = g /\ grad_rot_0_local_t o = gr /\
     avg_rot_local_t o = a) ->
  kinematics_after e os =
    {| k_grad_disp := g; k_grad_rot := gr; k_avg_rot := a |}.
Proof.
  unfold kinematics_after. generalize (kinematics_before e).
  induction os as [| o os IH]; intros k0 Hne Hall; [contradiction |].
  cbn [fold_left]. destruct os as [| o' os].
  - cbn [fold_left]. destruct (Hall o) as [-> [-> ->]]; [now left | reflexivity].
  - apply IH; [discriminate |]. intros o'' Hin. apply Hall. now right.
Qed.

Lemma Forall2_In_r {A B : Type} (P : A -> B -> Prop) (l : list A)
    (l' : list B) :
  Forall2 P l l' -> forall y, In y l' -> exists x, In x l /\ P x y.
Proof.
  induction 1 as [| x y l l' Hxy _ IH]; intros y0 Hin; [contradiction |].
  destruct Hin as [<- | Hin].
  - exists x. split; [now left | exact Hxy].
  - destruct (IH y0 Hin) as [x0 [Hx0 Hp]]. exists x0.
    split; [now right | exact Hp].
Qed.

(** X19: when the solution at the element's degrees of freedom is what it was at
    the previous step (at most three coupled components; member components
    the loop does not reach are zero) and every layer of every quadrature
    point is at rest, [computeProperties] returns with zero nodal
    increments; at each quadrature point the layers, and the total
    displacement strain, are those of the previous step and the curvature
    is zero; and the stiffness blocks, when they are computed for an
    element with a quadrature point and a non-zero length, are the
    small-strain blocks, in large-strain mode as well. *)
Theorem unchanged_solution_changes_nothing
    (b : LayeredBeam) (e : ElementInput) :
  (ndisp b <= 3)%nat ->
  (forall i, (i < ndisp b)%nat ->
     component (sol_disp0 e) i = component (sol_old_disp0 e) i /\
     component (sol_disp1 e) i = component (sol_old_disp1 e) i /\
     component (sol_rot0 e) i = component (sol_old_rot0 e) i /\
     component (sol_rot1 e) i = component (sol_old_rot1 e) i) ->
  (forall i, (ndisp b <= i)%nat ->
     component (m_disp0 (increments_before e)) i = 0 /\
     component (m_disp1 (increments_before e)) i = 0 /\
     component (m_rot0 (increments_before e)) i = 0 /\
     component (m_rot1 (increments_before e)) i = 0) ->
  (forall d, In d (points e) -> forall i, (i < nlayers b)%nat ->
     at_rest b (c2 (d_material_flexure d)) (d_layers_old d i)) ->
  exists out,
    computeProperties b e = Done out /\
    out_increments out = no_increments /\
    Forall2 (fun d o =>
               layers (stress o) = map (d_layers_old d) (seq 0 (nlayers b)) /\
               total_stretch o = 0 /\
               total_disp_strain o = d_total_disp_strain_old d)
            (points e) (out_points out) /\
    (points e <> [] -> element_length b e <> 0 ->
     currentlyComputingJacobian e = true ->
     out_blocks out =
       Some (small_blocks b (element_stiffness_property e)
                          (element_length b e) (element_local_config e))).
Proof.
  intros Hn Hsol Hstale Hrest.
  pose proof (unchanged_solution_increments b e Hn Hsol Hstale) as Hm.
  destruct (resting_quadrature b e (points e) 0 Hm Hrest) as [os [Hos Hall]].
  unfold computeProperties. rewrite Hos. cbn [bind].
  eexists. split; [reflexivity |].
  cbn [out_increments out_points out_blocks].
  split; [exact Hm |]. split.
  - eapply Forall2_impl; [| exact Hall].
    intros d o [H1 [H2 [H3 _]]]. repeat split; assumption.
  - intros Hne HL Hjac. rewrite Hjac.
    rewrite (kinematics_after_last e os zero_vector zero_vector zero_vector).
    + cbn [k_grad_disp k_grad_rot k_avg_rot]. f_equal.
      apply blocks_without_motion. exact HL.
    + intros Hnil. subst os. inversion Hall as [Hp |]. congruence.
    + intros o Hin.
      destruct (Forall2_In_r _ _ _ Hall o Hin) as [d [_ Hd]].
      destruct Hd as [_ [_ [_ [Hg [Hgr Ha]]]]]. repeat split; assumption.
Qed.

Lemma unit_element_at_rest (r : RealVectorValue) (jacobian : bool) :
  forall d, In d (points (unit_element r jacobian)) ->
  forall i, (i < nlayers (members scenario))%nat ->
    at_rest (members scenario) (c2 (d_material_flexure d)) (d_layers_old d i).
Proof.
  intros d Hd i _.
  assert (Hi : d = initial_point).
  { destruct Hd as [<- | [<- | []]]; reflexivity. }
  subst d. left. cbn [initial_point d_layers_old].
  fields_of scenario. rewrite Rabs_R0. lra.
Qed.

(** X19, instance: the unit element with two quadrature points in their initial
    state and an all-zero solution. *)
Lemma unchanged_solution_changes_nothing_witness :
  exists out,
    computeProperties (members scenario) (unit_element zero_vector true)
    = Done out /\
    out_increments out = no_increments.
Proof.
  destruct (unchanged_solution_changes_nothing (members scenario)
              (unit_element zero_vector true)) as [out [Hrun [Hm _]]].
  - fields_of scenario. lia.
  - intros i Hi. repeat split; reflexivity.
  - intros i Hi. change (ndisp (members scenario)) with 3%nat in Hi.
    destruct i as [| [| [| i]]]; try lia. repeat split; reflexivity.
  - apply unit_element_at_rest.
  - exists out. split; [exact Hrun | exact Hm].
Defined.

(** X20: with at most three coupled components, a returning
    [computeProperties] has run [computeQpStrain] once per quadrature
    point, all with the same local kinematic vectors, so that every point
    of the element has the same curvature; total and initial rotation are
    the frame of [initQpStatefulProperties]; and the stiffness blocks are
    written exactly when the Jacobian is being computed, from the same
    kinematic vectors when the element has a quadrature point. *)
Theorem element_call_shares_kinematics
    (b : LayeredBeam) (e : ElementInput) (out : ElementOutput) :
  (ndisp b <= 3)%nat ->
  computeProperties b e = Done out ->
  let L := element_length b e in
  let m := nodal_increments b e in
  let g := tapply (element_local_config e)
             (vscale (1 / L) (vsub (m_disp1 m) (m_disp0 m))) in
  let gr := tapply (element_local_config e)
              (vscale (1 / L) (vsub (m_rot1 m) (m_rot0 m))) in
  let a := tapply (element_local_config e)
             (Vec (0.5 * (c0 (m_rot0 m) + c0 (m_rot1 m)))
                  (0.5 * (c1 (m_rot0 m) + c1 (m_rot1 m)))
                  (0.5 * (c2 (m_rot0 m) + c2 (m_rot1 m)))) in
  List.length (out_points out) = List.length (points e) /\
  (forall o, In o (out_points out) ->
     total_stretch o = c2 gr /\ grad_disp_0_local_t o = g /\
     grad_rot_0_local_t o = gr /\ avg_rot_local_t o = a) /\
  out_total_rotation out = element_local_config e /\
  out_initial_rotation out = element_local_config e /\
  (out_blocks out = None <-> currentlyComputingJacobian e = false) /\
  (points e <> [] -> currentlyComputingJacobian e = true ->
   out_blocks out =
     Some (computeStiffnessMatrix b (element_stiffness_property e) L
             (element_local_config e) g gr a)).
Proof.
  intros _ Hrun L m g gr a. unfold computeProperties in Hrun.
  destruct (quadrature_loop b e 0 (points e)) as [os | ex |] eqn:Hos;
    cbn [bind] in Hrun; try discriminate.
  injection Hrun as <-.
  cbn [out_points out_total_rotation out_initial_rotation out_blocks].
  pose proof (quadrature_loop_done b e (points e) 0 os Hos) as Hall.
  assert (Hkin : forall o, In o os ->
            total_stretch o = c2 gr /\ grad_disp_0_local_t o = g /\
            grad_rot_0_local_t o = gr /\ avg_rot_local_t o = a).
  { intros o Hin.
    destruct (Forall2_In_r _ _ _ Hall o Hin) as [d [_ [j Hrun]]].
    destruct (computeQpStrain_kinematics b _ o Hrun) as [Hg [Hgr [Ha Hk]]].
    destruct (qp_input_kinematics b e j d) as [Qg [Qgr Qa]].
    rewrite Hk, Hg, Hgr, Ha, Qg, Qgr, Qa. repeat split; reflexivity. }
  split; [symmetry; eapply Forall2_length; exact Hall |].
  split; [exact Hkin |]. split; [reflexivity |]. split; [reflexivity |].
  split.
  - destruct (currentlyComputingJacobian e); split; intros H;
      try discriminate; reflexivity.
  - intros Hne Hjac. rewrite Hjac.
    rewrite (kinematics_after_last e os g gr a).
    + reflexivity.
    + intros Hnil. subst os. inversion Hall as [Hp |]. congruence.
    + intros o Hin. destruct (Hkin o Hin) as [_ H]. exact H.
Qed.

(** X20, instance: the unit element with an all-zero solution. *)
Lemma element_call_shares_kinematics_witness :
  exists out,
    computeProperties (members scenario) (unit_element zero_vector true)
    = Done out /\
    List.length (out_points out) = 2%nat /\
    out_total_rotation out = identity.
Proof.
  destruct (resting_quadrature (members scenario) (unit_element zero_vector true)
              (points (unit_element zero_vector true)) 0) as [os [Hos _]].
  - apply unchanged_solution_increments.
    + fields_of scenario. lia.
    + intros i Hi. repeat split; reflexivity.
    + intros i Hi. change (ndisp (members scenario)) with 3%nat in Hi.
      destruct i as [| [| [| i]]]; try lia. repeat split; reflexivity.
  - apply unit_element_at_rest.
  - assert (Hrun : exists out,
              computeProperties (members scenario)
                (unit_element zero_vector true) = Done out).
    { unfold computeProperties. rewrite Hos. cbn [bind]. eexists. reflexivity. }
    destruct Hrun as [out Hrun].
    assert (Hn : (ndisp (members scenario) <= 3)%nat)
      by (fields_of scenario; lia).
    destruct (element_call_shares_kinematics (members scenario)
                (unit_element zero_vector true) out Hn Hrun)
      as [Hlen [_ [Hrot _]]].
    exists out. split; [exact Hrun |]. split; [exact Hlen | exact Hrot].
Defined.

(** X21: with at most three coupled components, an exception thrown at a
    quadrature point, the points before it having returned, leaves
    [computeProperties] as it is: the later points are not visited and no
    stiffness block is computed. *)
Theorem exception_leaves_element_call
    (b : LayeredBeam) (e : ElementInput) (j : nat) (d : QpData)
    (ex : exception) :
  (ndisp b <= 3)%nat ->
  nth_error (points e) j = Some d ->
  (forall i d', (i < j)%nat -> nth_error (points e) i = Some d' ->
     exists o, computeQpStrain b (qp_input b e i d') = Done o) ->
  computeQpStrain b (qp_input b e j d) = Throw ex ->
  computeProperties b e = Throw ex.
Proof.
  intros _ Hnth Hbefore Hthrow. unfold computeProperties.
  rewrite (quadrature_loop_throw b e (points e) 0 j d ex Hnth Hbefore Hthrow).
  reflexivity.
Qed.

Lemma unit_element_length (b : LayeredBeam) (r : RealVectorValue)
    (jacobian : bool) :
  ndisp b = 3%nat -> element_length b (unit_element r jacobian) = 1.
Proof.
  intros Hn. unfold element_length, dxyz. rewrite Hn.
  cbn [assign_from assign unit_element node0 node1 component zero_vector
       c0 c1 c2].
  unfold norm. cbn [c0 c1 c2].
  replace ((1 - 0) * (1 - 0) + (0 - 0) * (0 - 0) + (0 - 0) * (0 - 0)) with 1
    by ring.
  apply sqrt_1.
Qed.

Lemma unit_element_curvature (b : LayeredBeam) (k : R) (jacobian : bool)
    (j : nat) (d : QpData) :
  ndisp b = 3%nat ->
  c2 (local_grad_rot (qp_input b (unit_element (Vec 0 0 k) jacobian) j d)) = k.
Proof.
  intros Hn. unfold local_grad_rot, grad_rot_0.
  cbn [qp_input original_length total_rotation rot0 rot1 computeRotation].
  rewrite (unit_element_length b _ _ Hn).
  unfold nodal_increments. rewrite Hn.
  cbn [assign_from assign unit_element sol_rot0 sol_rot1 sol_old_rot0
       sol_old_rot1 increments_before no_increments m_rot0 m_rot1
       element_local_config component zero_vector c0 c1 c2].
  unfold tapply, vscale, vsub, computeRotation.
  cbn [unit_element element_local_config identity t20 t21 t22 c0 c1 c2].
  field.
Qed.

(** X21, instance: the scenario with an absolute tolerance of -1e-10 on the unit
    element whose node 1 turns by 0.02: the first quadrature point throws. *)
Lemma exception_leaves_element_call_witness :
  computeProperties (with_absolute_tolerance (-1e-10) (members scenario))
    (unit_element (Vec 0 0 0.02) true) =
  Throw (MooseException "LayeredBeam: Plasticity model did not converge").
Proof.
  apply (exception_leaves_element_call
           (with_absolute_tolerance (-1e-10) (members scenario))
           (unit_element (Vec 0 0 0.02) true) 0 initial_point).
  - unfold with_absolute_tolerance. fields_of scenario. lia.
  - reflexivity.
  - intros i d' Hi. lia.
  - unfold computeQpStrain.
    rewrite unit_element_curvature by reflexivity.
    pose proof (computeQpStress_refines
                  (with_absolute_tolerance (-1e-10) (members scenario))
                  2e5 0.02 0 (fun _ => virgin)) as Href.
    rewrite (update_layers_negative_tolerance _ 2e5 0.02 (fun _ => virgin)
               10 0 0) in Href.
    + cbn [qp_input material_flexure stres_entry layers_old initial_point
           d_material_flexure d_stres_entry d_layers_old c2].
      rewrite Href. reflexivity.
    + unfold with_absolute_tolerance. cbn [absolute_tolerance]. lra.
    + lia.
    + unfold layer_offset, layer_thickness, with_absolute_tolerance.
      fields_of scenario. simpl INR.
      rewrite Rabs_left by lra. lra.
Defined.

(** ** Reversal of the bending direction *)

Lemma newton_body_mirrored (b : LayeredBeam) (flexure T : R) (old : LayerState)
    (st : NewtonState) :
  newton_body b flexure (- T) (mirrored old) st = newton_body b flexure T old st.
Proof.
  unfold newton_body, computeHardeningValue, computeHardeningDerivative, mirrored.
  cbn [plastic_strain hardening_variable]. rewrite !Rabs_Ropp. reflexivity.
Qed.

Lemma newton_loop_mirrored (b : LayeredBeam) (fuel : nat) (flexure T : R)
    (old : LayerState) (st : NewtonState) :
  newton_loop b fuel flexure (- T) (mirrored old) st =
  newton_loop b fuel flexure T old st.
Proof.
  revert st. induction fuel as [| fuel IH]; intros st; cbn [newton_loop].
  - reflexivity.
  - rewrite newton_body_mirrored, IH. reflexivity.
Qed.

Lemma newton_solve_mirrored (b : LayeredBeam) (flexure T : R) (old : LayerState) :
  newton_solve b flexure (- T) (mirrored old) = newton_solve b flexure T old.
Proof.
  unfold newton_solve. rewrite newton_loop_mirrored. f_equal.
  unfold newton_init, mirrored. cbn [hardening_variable].
  rewrite !Rabs_Ropp. reflexivity.
Qed.

Lemma sign_opp (x : R) : x <> 0 -> sign (- x) = - sign x.
Proof.
  intros Hx. destruct (Rle_lt_dec 0 x) as [H | H].
  - rewrite (sign_nonneg x H), sign_neg by lra. reflexivity.
  - rewrite (sign_neg x H), sign_nonneg by lra. ring.
Qed.

Lemma layer_update_mirrored (b : LayeredBeam) (flexure se z : R)
    (old : LayerState) :
  admissible b old ->
  layer_update b flexure (- se) z (mirrored old) =
  (l <- layer_update b flexure se z old ;; Done (mirrored l)).
Proof.
  intros Hadm. unfold admissible in Hadm. unfold layer_update.
  replace (direct_stress (mirrored old) + flexure * - se * z)
    with (- (direct_stress old + flexure * se * z))
    by (unfold mirrored; cbn [direct_stress]; ring).
  set (T := direct_stress old + flexure * se * z).
  rewrite newton_solve_mirrored, Rabs_Ropp.
  change (hardening_variable (mirrored old)) with (hardening_variable old).
  destruct (Rgtb _ 0) eqn:Hy.
  - apply Rgtb_true_iff in Hy.
    assert (HT : T <> 0).
    { intros H0. rewrite H0, Rabs_R0 in Hy. lra. }
    destruct (newton_solve b flexure T old) as [st | ex |]; cbn [bind];
      try reflexivity.
    rewrite (sign_opp T HT). unfold mirrored.
    cbn [direct_stress plastic_strain hardening_variable].
    f_equal. f_equal; ring.
  - cbn [bind]. unfold mirrored.
    cbn [direct_stress plastic_strain hardening_variable].
    f_equal. f_equal; ring.
Qed.

Lemma update_layers_mirrored (b : LayeredBeam) (flexure se : R)
    (old : LayersOld) (n i : nat) :
  (forall j, (j < n)%nat -> admissible b (old (i + j)%nat)) ->
  update_layers b flexure (- se) (fun k => mirrored (old k)) n i =
  (ls <- update_layers b flexure se old n i ;; Done (map mirrored ls)).
Proof.
  revert i. induction n as [| n IH]; intros i Hadm; [reflexivity |].
  cbn [update_layers]. rewrite layer_update_mirrored.
  - destruct (layer_update b flexure se (layer_offset b i) (old i))
      as [l | ex |]; cbn [bind]; try reflexivity.
    rewrite IH.
    + destruct (update_layers b flexure se old n (S i)) as [ls | ex |];
        cbn [bind]; reflexivity.
    + intros j Hj. replace (S i + j)%nat with (i + S j)%nat by lia.
      apply Hadm. lia.
  - specialize (Hadm 0%nat). rewrite Nat.add_0_r in Hadm. apply Hadm. lia.
Qed.

Lemma midpoint_moment_mirrored (b : LayeredBeam) (ls : list LayerState)
    (i : nat) :
  midpoint_moment b i (map mirrored ls) = - midpoint_moment b i ls.
Proof.
  revert i. induction ls as [| l ls IH]; intros i; cbn [map midpoint_moment].
  - ring.
  - rewrite IH. unfold mirrored. cbn [direct_stress]. ring.
Qed.

(** X22: the bending response is odd: for layers whose current yield strength
    is not negative, reversing the curvature together with the previous
    stresses and plastic strains reverses the new stresses, the new plastic
    strains and the resultant, and leaves the hardening variables as they
    are; a call that throws does so in the reversed situation as well. *)
Theorem bending_response_is_odd
    (b : LayeredBeam) (flexure stretch stres0 stres0' : R) (old : LayersOld) :
  (1 <= nlayers b)%nat ->
  (forall i, (i < nlayers b)%nat -> admissible b (old i)) ->
  match computeQpStress b flexure stretch stres0 old with
  | Done out =>
      exists out',
        computeQpStress b flexure (- stretch) stres0'
                        (fun i => mirrored (old i)) = Done out' /\
        layers out' = map mirrored (layers out) /\
        stres out' = - stres out
  | Throw ex =>
      computeQpStress b flexure (- stretch) stres0' (fun i => mirrored (old i))
      = Throw ex
  | Fuel => False
  end.
Proof.
  intros HN Hadm.
  pose proof (computeQpStress_refines b flexure stretch stres0 old) as H1.
  pose proof (computeQpStress_refines b flexure (- stretch) stres0'
                (fun i => mirrored (old i))) as H2.
  rewrite update_layers_mirrored in H2 by (intros j Hj; apply Hadm; exact Hj).
  pose proof (update_layers_not_fuel b flexure stretch old (nlayers b) 0) as Hnf.
  destruct (update_layers b flexure stretch old (nlayers b) 0) as [ls | ex |];
    cbn [bind] in H2; [| rewrite H1; exact H2 | congruence].
  destruct H1 as [out [Hrun [Hlayers [Hmoment Hstres]]]].
  destruct H2 as [out' [Hrun' [Hlayers' [Hmoment' Hstres']]]].
  rewrite Hrun. exists out'. split; [exact Hrun' |].
  split; [rewrite Hlayers', Hlayers; reflexivity |].
  rewrite Hstres, Hstres'. destruct (nlayers b); [lia |].
  rewrite Hmoment, Hmoment'. apply midpoint_moment_mirrored.
Qed.

(** X22, instance: the scenario from the initial state, bent by 0.02 one way
    and the other. *)
Lemma bending_response_is_odd_witness :
  match computeQpStress (members scenario) 2e5 0.02 0 (fun _ => virgin) with
  | Done out =>
      exists out',
        computeQpStress (members scenario) 2e5 (- (0.02)) 0
                        (fun _ => mirrored virgin) = Done out' /\
        layers out' = map mirrored (layers out) /\
        stres out' = - stres out
  | Throw ex =>
      computeQpStress (members scenario) 2e5 (- (0.02)) 0
                      (fun _ => mirrored virgin) = Throw ex
  | Fuel => False
  end.
Proof.
  apply (bending_response_is_odd (members scenario) 2e5 0.02 0 0
           (fun _ => virgin)).
  - fields_of scenario. lia.
  - intros i _. unfold admissible. fields_of scenario. lra.
Defined.

(** ** Superposition in small-strain mode *)

Lemma local_vectors_add (q1 q2 q : QpInput) :
  original_length q1 = original_length q ->
  original_length q2 = original_length q ->
  total_rotation q1 = total_rotation q ->
  total_rotation q2 = total_rotation q ->
  disp0 q = vadd (disp0 q1) (disp0 q2) ->
  disp1 q = vadd (disp1 q1) (disp1 q2) ->
  rot0 q = vadd (rot0 q1) (rot0 q2) ->
  rot1 q = vadd (rot1 q1) (rot1 q2) ->
  local_grad_disp q = vadd (local_grad_disp q1) (local_grad_disp q2) /\
  local_grad_rot q = vadd (local_grad_rot q1) (local_grad_rot q2) /\
  local_avg_rot q = vadd (local_avg_rot q1) (local_avg_rot q2).
Proof.
  intros HL1 HL2 HR1 HR2 Hd0 Hd1 Hr0 Hr1.
  unfold local_grad_disp, local_grad_rot, local_avg_rot, grad_disp_0,
    grad_rot_0, avg_rot.
  rewrite HL1, HL2, HR1, HR2, Hd0, Hd1, Hr0, Hr1.
  unfold tapply, vscale, vsub, vadd. cbn [c0 c1 c2].
  repeat split; apply vec_eq; cbn [c0 c1 c2];
    unfold Q2R; cbn [QArith_base.Qnum QArith_base.Qden]; ring.
Qed.

(** X23: in small-strain mode the strain increments and the curvature are
    additive in the nodal increments: for two motions of the same element
    at the same quadrature point, the increments of the combined motion
    are the sums of the increments of the two. *)
Theorem small_strain_superposition (b : LayeredBeam) (q1 q2 q : QpInput) :
  large_strain b = false ->
  qp q1 = qp q -> qp q2 = qp q ->
  original_length q1 = original_length q ->
  original_length q2 = original_length q ->
  total_rotation q1 = total_rotation q ->
  total_rotation q2 = total_rotation q ->
  disp0 q = vadd (disp0 q1) (disp0 q2) ->
  disp1 q = vadd (disp1 q1) (disp1 q2) ->
  rot0 q = vadd (rot0 q1) (rot0 q2) ->
  rot1 q = vadd (rot1 q1) (rot1 q2) ->
  disp_strain_increment b q =
    vadd (disp_strain_increment b q1) (disp_strain_increment b q2) /\
  rot_strain_increment b q =
    vadd (rot_strain_increment b q1) (rot_strain_increment b q2) /\
  c2 (local_grad_rot q) = c2 (local_grad_rot q1) + c2 (local_grad_rot q2).
Proof.
  intros Hsmall Hq1 Hq2 HL1 HL2 HR1 HR2 Hd0 Hd1 Hr0 Hr1.
  destruct (local_vectors_add q1 q2 q HL1 HL2 HR1 HR2 Hd0 Hd1 Hr0 Hr1)
    as [Hg [Hgr Ha]].
  unfold disp_strain_increment, rot_strain_increment, small_disp_strain,
    small_rot_strain, Ix_qp.
  rewrite Hsmall, Hg, Hgr, Ha, Hq1, Hq2.
  unfold vadd. cbn [c0 c1 c2].
  repeat split; try (apply vec_eq; cbn [c0 c1 c2]; ring).
Qed.

(** X23, instance: on the unit beam, a pull of node 1 by (1e-3, 0, 0) and a turn
    of node 1 by (0, 0, 2e-3), separately and together. *)
Lemma small_strain_superposition_witness :
  disp_strain_increment (members scenario)
    (moved_beam zero_vector (Vec 1e-3 0 0) zero_vector (Vec 0 0 2e-3)) =
  vadd (disp_strain_increment (members scenario)
          (moved_beam zero_vector (Vec 1e-3 0 0) zero_vector zero_vector))
       (disp_strain_increment (members scenario)
          (moved_beam zero_vector zero_vector zero_vector (Vec 0 0 2e-3))).
Proof.
  apply (small_strain_superposition (members scenario)
           (moved_beam zero_vector (Vec 1e-3 0 0) zero_vector zero_vector)
           (moved_beam zero_vector zero_vector zero_vector (Vec 0 0 2e-3))
           (moved_beam zero_vector (Vec 1e-3 0 0) zero_vector (Vec 0 0 2e-3)));
    try reflexivity;
    cbn [moved_beam disp0 disp1 rot0 rot1]; unfold vadd, zero_vector;
    cbn [c0 c1 c2]; f_equal; lra.
Defined.

(** ** The fully plastic moment *)

Lemma sign_times_abs (x : R) : sign x * Rabs x = x.
Proof.
  destruct (Rle_lt_dec 0 x) as [H | H].
  - rewrite sign_nonneg by exact H. rewrite Rabs_pos_eq by exact H. ring.
  - rewrite sign_neg by exact H. rewrite Rabs_left by exact H. ring.
Qed.

(** A layer without hardening whose trial stress exceeds the yield
    condition by more than the absolute tolerance: an update that returns
    has brought it back to its yield strength, whichever iterate the solve
    returned. *)
Lemma perfectly_plastic_layer_returned (b : LayeredBeam) (flexure se z : R)
    (old l : LayerState) :
  hardening_function b = None -> hardening_constant b = 0 ->
  0 < flexure ->
  0 <= absolute_tolerance b ->
  Rabs (direct_stress old + flexure * se * z) - hardening_variable old -
    yield_stress b > absolute_tolerance b ->
  layer_update b flexure se z old = Done l ->
  direct_stress l =
    sign (direct_stress old + flexure * se * z) *
    (hardening_variable old + yield_stress b) /\
  hardening_variable l = hardening_variable old.
Proof.
  intros Hlin Hs HE Habs Hy Hrun.
  assert (Hden : flexure + hardening_constant b <> 0) by (rewrite Hs; lra).
  unfold layer_update in Hrun.
  set (T := direct_stress old + flexure * se * z) in *.
  destruct (Rgtb _ 0) eqn:Hc; [| apply Rgtb_false_iff in Hc; lra].
  destruct (newton_solve b flexure T old) as [st | e |] eqn:Hsolve;
    cbn [bind] in Hrun; try discriminate.
  injection Hrun as <-. cbn [direct_stress hardening_variable].
  destruct (linear_returned_state b flexure T old Hlin Hden st Hsolve)
    as [_ [[[Hentry _] _] | [_ [_ [Hdp [_ Hh]]]]]].
  - exfalso. cbn [newton_init residual] in Hentry.
    rewrite Rabs_le_iff in Hentry. lra.
  - assert (Hh' : hardening st = hardening_variable old).
    { destruct Hh as [[_ [Hh _]] | [_ [Hh _]]]; rewrite Hh; [reflexivity |].
      rewrite Hs. ring. }
    rewrite Hdp, Hh'. split; [| reflexivity].
    unfold closed_form_increment. rewrite Hs.
    pose proof (sign_times_abs T) as Hsa.
    replace (direct_stress old +
             (se * z - (Rabs T - yield_stress b - hardening_variable old) /
                       (flexure + 0) * sign T) * flexure)
      with (T - sign T * Rabs T +
            sign T * (hardening_variable old + yield_stress b))
      by (unfold T; field; lra).
    rewrite Hsa. ring.
Qed.

(** What a returning call has written, layer by layer. *)
Lemma computeQpStress_done (b : LayeredBeam) (flexure stretch stres0 : R)
    (old : LayersOld) (out : LayerLoop) :
  computeQpStress b flexure stretch stres0 old = Done out ->
  update_layers b flexure stretch old (nlayers b) 0 = Done (layers out) /\
  stres out = match nlayers b with
              | O => stres0
              | S _ => midpoint_moment b 0 (layers out)
              end.
Proof.
  intros Hrun.
  pose proof (computeQpStress_refines b flexure stretch stres0 old) as Href.
  destruct (update_layers b flexure stretch old (nlayers b) 0)
    as [ls | e |]; [| congruence | congruence].
  destruct Href as [out' [Hout [Hlayers [Hmoment Hstres]]]].
  assert (out' = out) by congruence. subst out'.
  split; [rewrite Hlayers; reflexivity |].
  rewrite Hstres. destruct (nlayers b); [reflexivity |].
  rewrite Hmoment, Hlayers. reflexivity.
Qed.

(** A call returns or throws the non-convergence exception. *)
Lemma computeQpStress_total (b : LayeredBeam) (flexure stretch stres0 : R)
    (old : LayersOld) :
  (exists out, computeQpStress b flexure stretch stres0 old = Done out) \/
  computeQpStress b flexure stretch stres0 old =
    Throw (MooseException "LayeredBeam: Plasticity model did not converge").
Proof.
  pose proof (computeQpStress_refines b flexure stretch stres0 old) as Href.
  destruct (update_layers b flexure stretch old (nlayers b) 0)
    as [ls | e |] eqn:Hls.
  - left. destruct Href as [out [Hout _]]. exists out. exact Hout.
  - right. rewrite Href. apply update_layers_throw in Hls.
    destruct Hls as [j [_ [Hthrow _]]].
    destruct (layer_update_returns_or_throws b flexure stretch
                (layer_offset b (0 + j)) (old (0 + j)%nat)) as [[l Hl] | Ht];
      congruence.
  - exfalso. eapply update_layers_not_fuel. exact Hls.
Qed.

Lemma update_layers_app (b : LayeredBeam) (flexure se : R) (old : LayersOld)
    (n1 n2 i : nat) :
  update_layers b flexure se old (n1 + n2) i =
  (l1 <- update_layers b flexure se old n1 i ;;
   l2 <- update_layers b flexure se old n2 (i + n1) ;;
   Done (l1 ++ l2)).
Proof.
  revert i. induction n1 as [| n1 IH]; intros i.
  - cbn [Nat.add update_layers bind]. rewrite Nat.add_0_r.
    destruct (update_layers b flexure se old n2 i); reflexivity.
  - cbn [Nat.add update_layers].
    destruct (layer_update b flexure se (layer_offset b i) (old i));
      cbn [bind]; try reflexivity.
    rewrite IH. replace (S i + n1)%nat with (i + S n1)%nat by lia.
    destruct (update_layers b flexure se old n1 (S i)); cbn [bind];
      try reflexivity.
    destruct (update_layers b flexure se old n2 (i + S n1)); reflexivity.
Qed.

Lemma update_layers_uniform (b : LayeredBeam) (flexure se : R) (old : LayersOld)
    (n i : nat) (s h : R) :
  (forall j, (j < n)%nat -> exists l,
     layer_update b flexure se (layer_offset b (i + j)) (old (i + j)%nat)
     = Done l /\ direct_stress l = s /\ hardening_variable l = h) ->
  exists ls, update_layers b flexure se old n i = Done ls /\
             List.length ls = n /\
             forall l, In l ls -> direct_stress l = s /\ hardening_variable l = h.
Proof.
  revert i. induction n as [| n IH]; intros i Hall.
  - exists []. repeat split; try reflexivity; contradiction.
  - destruct (Hall 0%nat) as [l [Hl Hp]]; [lia |].
    rewrite Nat.add_0_r in Hl.
    destruct (IH (S i)) as [ls [Hls [Hlen Hin]]].
    { intros j Hj. replace (S i + j)%nat with (i + S j)%nat by lia.
      apply Hall. lia. }
    exists (l :: ls). cbn [update_layers]. rewrite Hl. cbn [bind].
    rewrite Hls. cbn [bind]. split; [reflexivity |].
    split; [cbn [List.length]; rewrite Hlen; reflexivity |].
    intros l' [<- | Hl']; [exact Hp | apply Hin; exact Hl'].
Qed.

Lemma midpoint_moment_app (b : LayeredBeam) (l1 l2 : list LayerState) (i : nat) :
  midpoint_moment b i (l1 ++ l2) =
  midpoint_moment b i l1 + midpoint_moment b (i + List.length l1) l2.
Proof.
  revert i. induction l1 as [| l l1 IH]; intros i.
  - cbn [app midpoint_moment List.length]. rewrite Nat.add_0_r. ring.
  - cbn [app midpoint_moment List.length]. rewrite IH.
    replace (S i + List.length l1)%nat with (i + S (List.length l1))%nat by lia.
    ring.
Qed.

Lemma layer_offset_plus (b : LayeredBeam) (i j : nat) :
  layer_offset b (i + j) = layer_offset b i + INR j * layer_thickness b.
Proof. unfold layer_offset. rewrite plus_INR. ring. Qed.

Lemma sign_of_trial (flexure k z : R) :
  0 < flexure -> k <> 0 ->
  (0 < z -> sign (0 + flexure * k * z) = sign k) /\
  (z < 0 -> sign (0 + flexure * k * z) = - sign k).
Proof.
  intros HE Hk.
  destruct (Rle_lt_dec 0 k) as [Hpos | Hneg]; split; intros Hz.
  - rewrite (sign_nonneg k Hpos). apply sign_nonneg.
    assert (0 <= flexure * k) by (apply Rmult_le_pos; lra). nra.
  - rewrite (sign_nonneg k Hpos). rewrite sign_neg; [ring |].
    assert (0 < flexure * k) by (apply Rmult_lt_0_compat; lra). nra.
  - rewrite (sign_neg k Hneg). apply sign_neg.
    assert (0 < flexure * - k) by (apply Rmult_lt_0_compat; lra). nra.
  - rewrite (sign_neg k Hneg). rewrite sign_nonneg; [ring |].
    assert (0 < flexure * - k) by (apply Rmult_lt_0_compat; lra). nra.
Qed.

Section FullyPlastic.

Variable b : LayeredBeam.
Variables flexure stretch : R.
Variable m : nat.
Hypothesis linear : hardening_function b = None.
Hypothesis perfect : hardening_constant b = 0.
Hypothesis stiff : 0 < flexure.
Hypothesis yield_nonneg : 0 <= yield_stress b.
Hypothesis abs_tol : 0 <= absolute_tolerance b.
Hypothesis even : nlayers b = (m + m)%nat.
Hypothesis some : (1 <= m)%nat.
Hypothesis deep : 0 < depth b.
Hypothesis all_yield :
  flexure * Rabs stretch * (layer_thickness b / 2) - yield_stress b >
  absolute_tolerance b.

Lemma even_thickness :
  0 < layer_thickness b /\ depth b = 2 * INR m * layer_thickness b.
Proof.
  assert (HN : (1 <= nlayers b)%nat) by (rewrite even; clear - some; lia).
  pose proof (layer_thickness_tiles b HN) as Htile.
  rewrite even, plus_INR in Htile.
  assert (Hm : 0 < INR m) by (apply lt_0_INR; exact some).
  split; [| clear - Htile Hm; lra].
  unfold layer_thickness. apply Rdiv_lt_0_compat; [exact deep |].
  apply lt_0_INR. exact HN.
Qed.

Lemma curvature_nonzero : stretch <> 0.
Proof.
  intros H0. pose proof all_yield as Hy. rewrite H0, Rabs_R0 in Hy.
  clear - Hy yield_nonneg abs_tol. lra.
Qed.

(** The offsets of the lower half are at most minus half a thickness, those
    of the upper half at least half a thickness. *)
Lemma half_offsets (j : nat) :
  (j < m)%nat ->
  layer_offset b j <= - (layer_thickness b / 2) /\
  layer_thickness b / 2 <= layer_offset b (m + j).
Proof.
  intros Hj. destruct even_thickness as [Ht Hd].
  assert (Hj0 : 0 <= INR j) by apply pos_INR.
  assert (Hj1 : INR j + 1 <= INR m).
  { rewrite <- S_INR. apply le_INR. exact Hj. }
  unfold layer_offset. rewrite plus_INR, Hd.
  clear - Ht Hj0 Hj1. split; nra.
Qed.

Lemma yielding_layer_returned (z : R) (l : LayerState) :
  layer_thickness b / 2 <= Rabs z ->
  layer_update b flexure stretch z virgin = Done l ->
  direct_stress l = sign (0 + flexure * stretch * z) * yield_stress b /\
  hardening_variable l = 0.
Proof.
  intros Hz Hrun. destruct even_thickness as [Ht _].
  destruct (perfectly_plastic_layer_returned b flexure stretch z virgin l linear
              perfect stiff abs_tol) as [Hs Hh].
  - cbn [virgin direct_stress hardening_variable].
    replace (0 + flexure * stretch * z) with (flexure * stretch * z) by ring.
    rewrite !Rabs_mult, (Rabs_pos_eq flexure) by lra.
    pose proof all_yield as Hy. pose proof (Rabs_pos stretch) as Hk.
    assert (0 <= flexure * Rabs stretch) by (apply Rmult_le_pos; lra).
    nra.
  - exact Hrun.
  - cbn [virgin direct_stress hardening_variable] in Hs, Hh.
    split; [rewrite Hs; ring | exact Hh].
Qed.

(** The layers a returning call has written: the lower half at the yield
    stress against the curvature, the upper half at the yield stress with
    it. *)
Lemma fully_plastic_layers_returned (ls : list LayerState) :
  update_layers b flexure stretch (fun _ => virgin) (nlayers b) 0 = Done ls ->
  List.length (firstn m ls) = m /\ List.length (skipn m ls) = m /\
  (forall l, In l (firstn m ls) ->
     direct_stress l = - sign stretch * yield_stress b /\
     hardening_variable l = 0) /\
  (forall l, In l (skipn m ls) ->
     direct_stress l = sign stretch * yield_stress b /\
     hardening_variable l = 0).
Proof.
  intros Hrun. destruct even_thickness as [Ht _].
  pose proof curvature_nonzero as Hk.
  destruct (update_layers_done b flexure stretch (fun _ => virgin) (nlayers b) 0
              ls Hrun) as [Hlen Hnth].
  rewrite even in Hlen.
  assert (Hlen1 : List.length (firstn m ls) = m).
  { rewrite length_firstn, Hlen. clear. lia. }
  assert (Hlen2 : List.length (skipn m ls) = m).
  { rewrite length_skipn, Hlen. clear. lia. }
  split; [exact Hlen1 |]. split; [exact Hlen2 |]. split.
  - intros l Hl. destruct (In_nth _ l virgin Hl) as [j [Hj Hlj]].
    rewrite Hlen1 in Hj. rewrite nth_firstn in Hlj.
    destruct (Nat.ltb_spec j m) as [_ | Hge]; [| clear - Hj Hge; lia].
    specialize (Hnth j). cbn [Nat.add] in Hnth. rewrite Hlj in Hnth.
    destruct (half_offsets j Hj) as [Hlow _].
    destruct (yielding_layer_returned (layer_offset b j) l) as [Hs Hh].
    + rewrite Rabs_left by lra. lra.
    + apply Hnth. rewrite even. clear - Hj. lia.
    + split; [| exact Hh]. rewrite Hs.
      destruct (sign_of_trial flexure stretch (layer_offset b j) stiff Hk)
        as [_ Hneg].
      rewrite Hneg by lra. reflexivity.
  - intros l Hl. destruct (In_nth _ l virgin Hl) as [j [Hj Hlj]].
    rewrite Hlen2 in Hj. rewrite nth_skipn in Hlj.
    specialize (Hnth (m + j)%nat). cbn [Nat.add] in Hnth. rewrite Hlj in Hnth.
    destruct (half_offsets j Hj) as [_ Hup].
    destruct (yielding_layer_returned (layer_offset b (m + j)) l) as [Hs Hh].
    + rewrite Rabs_pos_eq by lra. lra.
    + apply Hnth. rewrite even. clear - Hj. lia.
    + split; [| exact Hh]. rewrite Hs.
      destruct (sign_of_trial flexure stretch (layer_offset b (m + j)) stiff Hk)
        as [Hpos _].
      rewrite Hpos by lra. reflexivity.
Qed.

Lemma fully_plastic_moment_value (l1 l2 : list LayerState) :
  List.length l1 = m -> List.length l2 = m ->
  (forall l, In l l1 -> direct_stress l = - sign stretch * yield_stress b) ->
  (forall l, In l l2 -> direct_stress l = sign stretch * yield_stress b) ->
  midpoint_moment b 0 (l1 ++ l2) =
  sign stretch * (yield_stress b * width b * depth b ^ 2 / 4).
Proof.
  intros Hlen1 Hlen2 Hin1 Hin2. destruct even_thickness as [_ Hd].
  rewrite midpoint_moment_app, Hlen1. cbn [Nat.add].
  pose proof (midpoint_moment_uniform b _ l1 0 Hin1) as M1.
  pose proof (midpoint_moment_uniform b _ l2 m Hin2) as M2.
  rewrite Hlen1 in M1. rewrite Hlen2 in M2.
  replace (layer_offset b m) with (layer_offset b 0 + INR m * layer_thickness b)
    in M2 by (rewrite <- layer_offset_plus; reflexivity).
  rewrite Hd. clear - M1 M2. nra.
Qed.

End FullyPlastic.

Lemma sign_cases (x : R) : sign x = 1 \/ sign x = -1.
Proof.
  destruct (Rle_lt_dec 0 x) as [H | H];
    [left; apply sign_nonneg | right; apply sign_neg]; exact H.
Qed.

(** X24: without hardening (the linear law with a zero hardening constant),
    with a positive modulus, a non-negative yield stress, a non-negative
    absolute tolerance, a positive depth, an even number [2 m >= 2] of
    layers in their initial state and a curvature so large that the
    innermost layers exceed the yield stress by more than the absolute
    tolerance: the call returns or throws the non-convergence exception,
    and a call that returns has left every layer at the yield stress in
    magnitude with a zero hardening variable, and a resultant that is the
    fully plastic moment of the rectangle,
    [yield_stress * width * depth^2 / 4], with the sign of the
    curvature. *)
Theorem fully_plastic_moment
    (b : LayeredBeam) (flexure stretch stres0 : R) (m : nat) :
  hardening_function b = None -> hardening_constant b = 0 ->
  0 < flexure -> 0 <= yield_stress b ->
  0 <= absolute_tolerance b ->
  nlayers b = (m + m)%nat -> (1 <= m)%nat -> 0 < depth b ->
  flexure * Rabs stretch * (layer_thickness b / 2) - yield_stress b >
    absolute_tolerance b ->
  ((exists out,
      computeQpStress b flexure stretch stres0 (fun _ => virgin) = Done out) \/
   computeQpStress b flexure stretch stres0 (fun _ => virgin) =
     Throw (MooseException "LayeredBeam: Plasticity model did not converge")) /\
  forall out,
    computeQpStress b flexure stretch stres0 (fun _ => virgin) = Done out ->
    (forall l, In l (layers out) ->
       Rabs (direct_stress l) = yield_stress b /\ hardening_variable l = 0) /\
    stres out = sign stretch * (yield_stress b * width b * depth b ^ 2 / 4).
Proof.
  intros Hlin Hs HE HY Habs Heven Hm Hd Hy.
  split; [apply computeQpStress_total |]. intros out Hout.
  destruct (computeQpStress_done b flexure stretch stres0 _ out Hout)
    as [Hrun Hstres].
  destruct (fully_plastic_layers_returned b flexure stretch m Hlin Hs HE HY Habs
              Heven Hm Hd Hy (layers out) Hrun)
    as [Hlen1 [Hlen2 [Hin1 Hin2]]].
  split.
  - intros l Hl. rewrite <- (firstn_skipn m (layers out)) in Hl.
    apply in_app_or in Hl.
    destruct (sign_cases stretch) as [Hsg | Hsg];
      destruct Hl as [Hl | Hl];
      [destruct (Hin1 l Hl) as [H1 H2] | destruct (Hin2 l Hl) as [H1 H2]
      | destruct (Hin1 l Hl) as [H1 H2] | destruct (Hin2 l Hl) as [H1 H2]];
      rewrite H1, Hsg; split; try exact H2.
    + rewrite Rabs_left1 by lra. lra.
    + rewrite Rabs_pos_eq by lra. lra.
    + rewrite Rabs_pos_eq by lra. lra.
    + rewrite Rabs_left1 by lra. lra.
  - rewrite Hstres. destruct (nlayers b) eqn:HN; [lia |].
    rewrite <- (firstn_skipn m (layers out)).
    apply (fully_plastic_moment_value b stretch m); try assumption.
    + rewrite HN. exact Heven.
    + intros l Hl. apply Hin1. exact Hl.
    + intros l Hl. apply Hin2. exact Hl.
Qed.

(** X24, instance: the scenario's section without hardening, ten layers, under
    a curvature of 1 (the innermost layers reach a trial stress of 2000):
    the call returns, with the fully plastic moment. *)
Lemma fully_plastic_moment_witness :
  exists out,
    computeQpStress (members perfectly_plastic) 2e5 1 0 (fun _ => virgin)
    = Done out /\
    stres out = sign 1 * (200 * 0.1 * 0.2 ^ 2 / 4).
Proof.
  destruct (computeQpStress_linear_at_rest (members perfectly_plastic) 2e5)
    with (flexure' := 2e5) (stretch := 1) (stres0 := 0)
         (old := fun _ : nat => virgin) as [out [Hrun _]];
    try reflexivity; try (fields_of perfectly_plastic; lra);
    try (fields_of perfectly_plastic; lia);
    try (intros j; unfold admissible; fields_of perfectly_plastic; lra).
  destruct (fully_plastic_moment (members perfectly_plastic) 2e5 1 0 5)
    as [_ Hret].
  - reflexivity.
  - reflexivity.
  - lra.
  - fields_of perfectly_plastic. lra.
  - fields_of perfectly_plastic. lra.
  - reflexivity.
  - lia.
  - fields_of perfectly_plastic. lra.
  - unfold layer_thickness. fields_of perfectly_plastic. simpl INR.
    rewrite Rabs_pos_eq by lra. lra.
  - destruct (Hret out Hrun) as [_ Hres].
    exists out. split; [exact Hrun | exact Hres].
Defined.

(** ** The order of the large-strain terms *)

Lemma local_vectors_scaled (k : R) (q : QpInput) :
  local_grad_disp (scaled_motion k q) = vscale k (local_grad_disp q) /\
  local_grad_rot (scaled_motion k q) = vscale k (local_grad_rot q) /\
  local_avg_rot (scaled_motion k q) = vscale k (local_avg_rot q).
Proof.
  unfold local_grad_disp, local_grad_rot, local_avg_rot, grad_disp_0,
    grad_rot_0, avg_rot.
  cbn [scaled_motion original_length total_rotation disp0 disp1 rot0 rot1].
  unfold tapply, vscale, vsub. cbn [c0 c1 c2].
  repeat split; apply vec_eq; cbn [c0 c1 c2];
    unfold Q2R; cbn [QArith_base.Qnum QArith_base.Qden]; ring.
Qed.

(** X25: when all nodal increments are multiplied by [k], the small-strain
    increments and the curvature are multiplied by [k] and the terms added
    in large-strain mode by [k^2]: the large-strain terms are of second
    order in the nodal motion. *)
Theorem large_strain_terms_are_second_order
    (b : LayeredBeam) (q : QpInput) (k : R) :
  small_disp_strain b (scaled_motion k q) = vscale k (small_disp_strain b q) /\
  small_rot_strain b (scaled_motion k q) = vscale k (small_rot_strain b q) /\
  c2 (local_grad_rot (scaled_motion k q)) = k * c2 (local_grad_rot q) /\
  large_disp_strain_terms b (scaled_motion k q) =
    vscale (k * k) (large_disp_strain_terms b q) /\
  large_rot_strain_terms b (scaled_motion k q) =
    vscale (k * k) (large_rot_strain_terms b q).
Proof.
  destruct (local_vectors_scaled k q) as [Hg [Hgr Ha]].
  unfold small_disp_strain, small_rot_strain, large_disp_strain_terms,
    large_rot_strain_terms, Ix_qp.
  rewrite Hg, Hgr, Ha. cbn [scaled_motion qp].
  unfold vscale. cbn [c0 c1 c2].
  split; [apply vec_eq; cbn [c0 c1 c2]; ring |].
  split; [apply vec_eq; cbn [c0 c1 c2]; ring |].
  split; [reflexivity |].
  split; apply vec_eq; cbn [c0 c1 c2];
    unfold Q2R; cbn [QArith_base.Qnum QArith_base.Qden]; ring.
Qed.

(** ** The sign of the resultant *)

Lemma midpoint_moment_sign (b : LayeredBeam) (k : R) (ls : list LayerState)
    (i : nat) :
  0 <= width b -> 0 <= layer_thickness b ->
  (forall j, (j < List.length ls)%nat ->
     0 <= direct_stress (nth j ls virgin) * (k * layer_offset b (i + j))) ->
  0 <= midpoint_moment b i ls * k.
Proof.
  intros Hw Ht. revert i. induction ls as [| l ls IH]; intros i Hall.
  - cbn [midpoint_moment]. lra.
  - cbn [midpoint_moment].
    assert (H0 : 0 <= direct_stress l * (k * layer_offset b i)).
    { specialize (Hall 0%nat). rewrite Nat.add_0_r in Hall.
      apply Hall. cbn [List.length]. lia. }
    assert (Hrest : 0 <= midpoint_moment b (S i) ls * k).
    { apply IH. intros j Hj.
      replace (S i + j)%nat with (i + S j)%nat by lia.
      apply (Hall (S j)). cbn [List.length]. lia. }
    assert (Hwt : 0 <= width b * layer_thickness b)
      by (apply Rmult_le_pos; assumption).
    replace ((direct_stress l * width b * layer_offset b i * layer_thickness b +
              midpoint_moment b (S i) ls) * k)
      with (direct_stress l * (k * layer_offset b i) *
            (width b * layer_thickness b) + midpoint_moment b (S i) ls * k)
      by ring.
    apply Rplus_le_le_0_compat; [apply Rmult_le_pos; assumption | exact Hrest].
Qed.

(** X26: from stress-free layers whose current yield strength is not
    negative, under linear hardening with a positive modulus, a
    non-negative hardening constant, at least one layer and a non-negative
    width and depth, the call returns or throws the non-convergence
    exception, and the resultant of a call that returns never opposes the
    curvature: their product is not negative, whether the layers stay
    elastic or yield. *)
Theorem resultant_follows_curvature
    (b : LayeredBeam) (flexure stretch stres0 : R) (old : LayersOld) :
  hardening_function b = None ->
  0 < flexure -> 0 <= hardening_constant b ->
  (1 <= nlayers b)%nat -> 0 <= width b -> 0 <= depth b ->
  (forall i, (i < nlayers b)%nat ->
     direct_stress (old i) = 0 /\ admissible b (old i)) ->
  ((exists out, computeQpStress b flexure stretch stres0 old = Done out) \/
   computeQpStress b flexure stretch stres0 old =
     Throw (MooseException "LayeredBeam: Plasticity model did not converge")) /\
  forall out, computeQpStress b flexure stretch stres0 old = Done out ->
              0 <= stres out * stretch.
Proof.
  intros Hlin HE Hs HN Hw Hd Hold.
  split; [apply computeQpStress_total |]. intros out Hout.
  destruct (computeQpStress_done b flexure stretch stres0 old out Hout)
    as [Hls Hstres].
  rewrite Hstres. destruct (nlayers b) as [| n] eqn:HNb; [lia |].
  rewrite <- HNb in Hls.
  destruct (update_layers_done b flexure stretch old _ 0 (layers out) Hls)
    as [Hlen Hnth].
  apply midpoint_moment_sign; [exact Hw | |].
  - unfold layer_thickness. unfold Rdiv. apply Rmult_le_pos; [exact Hd |].
    left. apply Rinv_0_lt_compat. apply lt_0_INR. lia.
  - intros j Hj. rewrite Hlen in Hj. specialize (Hnth j Hj).
    cbn [Nat.add] in Hnth |- *.
    destruct (Hold j) as [Hzero Hadm]; [lia |].
    destruct (layer_update_linear_returned b flexure Hlin HE Hs stretch
                (layer_offset b j) (old j) _ Hadm Hnth)
      as [[_ [Hsame _]] _].
    rewrite Hzero in Hsame.
    replace (direct_stress (nth j (layers out) virgin) *
             (0 + flexure * stretch * layer_offset b j))
      with (flexure * (direct_stress (nth j (layers out) virgin) *
                       (stretch * layer_offset b j))) in Hsame by ring.
    apply Rmult_le_reg_l with flexure; [exact HE |]. lra.
Qed.

(** X26, instance: the scenario from the initial state under a curvature of
    -0.02: the call returns, and the resultant follows the curvature. *)
Lemma resultant_follows_curvature_witness :
  exists out,
    computeQpStress (members scenario) 2e5 (-0.02) 0 (fun _ => virgin)
    = Done out /\
    0 <= stres out * -0.02.
Proof.
  assert (Hadm : forall j : nat, admissible (members scenario) virgin)
    by (intros j; unfold admissible; fields_of scenario; lra).
  destruct (computeQpStress_linear_at_rest (members scenario) 2e5)
    with (flexure' := 2e5) (stretch := -0.02) (stres0 := 0)
         (old := fun _ : nat => virgin) as [out [Hrun _]];
    try reflexivity; try (fields_of scenario; lra);
    try (fields_of scenario; lia); try exact Hadm.
  destruct (resultant_follows_curvature (members scenario) 2e5 (-0.02) 0
              (fun _ => virgin)) as [_ Hret].
  - reflexivity.
  - lra.
  - fields_of scenario. lra.
  - fields_of scenario. lia.
  - fields_of scenario. lra.
  - fields_of scenario. lra.
  - intros i _. split; [reflexivity | apply (Hadm i)].
  - exists out. split; [exact Hrun | exact (Hret out Hrun)].
Defined.

(** ** What rounding does to the loop *)

Lemma steel_solve_over_the_reals :
  exists st, newton_solve (members steel) 2e11 3e8 virgin = Done st /\
             iteration st = 2%nat /\
             plastic_strain_increment st =
               closed_form_increment (members steel) 2e11 3e8 virgin.
Proof.
  assert (Hlin : hardening_function (members steel) = None) by reflexivity.
  assert (Hden : 2e11 + hardening_constant (members steel) <> 0)
    by (fields_of steel; lra).
  exists (newton_iterate (members steel) 2 2e11 3e8 virgin).
  split; [| split].
  - apply newton_solve_first.
    + fields_of steel. lia.
    + apply (linear_iterate_2_stops (members steel) 2e11 3e8 virgin Hlin Hden);
        fields_of steel; lra.
    + intros i Hi. apply loop_condition_true_iff. intros [Habs _].
      destruct i as [| [| i]]; [| | lia].
      * cbn [newton_iterate newton_init residual] in Habs.
        fields_of steel. rewrite (Rabs_pos_eq 3e8) in Habs by lra.
        rewrite Rabs_le_iff in Habs. lra.
      * destruct (linear_iterate_1 (members steel) 2e11 3e8 virgin Hlin Hden)
          as [_ [_ [Hres _]]].
        rewrite Hres in Habs. unfold closed_form_increment in Habs.
        fields_of steel. rewrite (Rabs_pos_eq 3e8) in Habs by lra.
        rewrite Rabs_le_iff in Habs.
        set (q := (3e8 - 2.5e8 - 0) / (2e11 + 1e9)) in Habs.
        assert (Hq : q * (2e11 + 1e9) = 5e7).
        { unfold q, Rdiv. rewrite Rmult_assoc, Rinv_l by lra. lra. }
        lra.
  - apply iteration_newton_iterate.
  - apply (linear_iterate_2 (members steel) 2e11 3e8 virgin Hlin Hden).
Qed.

(** X27: the outcome of the solve depends on the rounding.  For a steel
    layer in SI units (modulus 2e11, yield stress 2.5e8, hardening constant
    1e9, trial stress 3e8, default tolerances and cap) the solve over the
    reals returns after two passes with the closed-form increment, and the
    same solve in binary64 arithmetic throws the non-convergence
    exception: the residual left by rounding stays above the absolute
    tolerance of 1e-10.  In binary64 the solve throws as well for the same
    steel without hardening at a trial stress of -2.52e8, and with the
    hardening line [2.5e8 + 1e9 * x] at a trial stress of 3e8; and the
    update of the outermost of ten layers of a section of depth 0.2 throws
    for the steel under a curvature of 0.014 and for the steel without
    hardening under a curvature of 0.2.  At the magnitudes of the scenario
    (modulus 2e5, yield stress 200, hardening constant 1e3) the binary64
    solve returns after two passes for a trial stress of -360, and the
    update of the outermost layer returns under a curvature of 0.02. *)
Theorem rounding_decides_the_outcome_of_the_solve :
  (exists st, newton_solve (members steel) 2e11 3e8 virgin = Done st /\
              iteration st = 2%nat /\
              plastic_strain_increment st =
                closed_form_increment (members steel) 2e11 3e8 virgin) /\
  Binary64.newton_solve Binary64.steel Binary64.steel_modulus
    Binary64.steel_trial Binary64.virgin =
    Throw (MooseException "LayeredBeam: Plasticity model did not converge") /\
  Binary64.newton_solve Binary64.steel_perfectly_plastic Binary64.steel_modulus
    Binary64.steel_trial_near_yield Binary64.virgin =
    Throw (MooseException "LayeredBeam: Plasticity model did not converge") /\
  Binary64.newton_solve Binary64.steel_with_curve Binary64.steel_modulus
    Binary64.steel_trial Binary64.virgin =
    Throw (MooseException "LayeredBeam: Plasticity model did not converge") /\
  Binary64.layer_update Binary64.steel Binary64.steel_modulus
    Binary64.steel_curvature Binary64.outer_offset Binary64.virgin =
    Throw (MooseException "LayeredBeam: Plasticity model did not converge") /\
  Binary64.layer_update Binary64.steel_perfectly_plastic Binary64.steel_modulus
    Binary64.steel_large_curvature Binary64.outer_offset Binary64.virgin =
    Throw (MooseException "LayeredBeam: Plasticity model did not converge") /\
  (exists st, Binary64.newton_solve Binary64.scenario Binary64.scenario_modulus
                Binary64.scenario_trial Binary64.virgin = Done st /\
              Binary64.iteration st = 2%nat) /\
  (exists l, Binary64.layer_update Binary64.scenario Binary64.scenario_modulus
               Binary64.scenario_curvature Binary64.outer_offset
               Binary64.virgin = Done l).
Proof.
  split; [exact steel_solve_over_the_reals |].
  split; [vm_compute; reflexivity |].
  split; [vm_compute; reflexivity |].
  split; [vm_compute; reflexivity |].
  split; [vm_compute; reflexivity |].
  split; [vm_compute; reflexivity |].
  split.
  - eexists. split; [vm_compute; reflexivity | reflexivity].
  - eexists. vm_compute. reflexivity.
Qed.

(** ** C10: what the large-strain corrections are *)

















